(** * chordpad: voicing builder, degree analyser, note scheduler and pad holds

    A shallow embedding of [lib/voicing.ts], [lib/performance.ts] and of the
    hold bookkeeping of [app/dev/page.tsx], with the properties the
    specification states about them; and, for the further properties, of
    the pads and the highlight of the page, of the keys of
    [app/PianoKeyboard.tsx], of [lib/chordSuggest.ts] and of
    [lib/chordGuide.ts].

    Modelling conventions.
    - A JavaScript string is the [string] of its UTF-8 bytes.  Searching for
      a substring is the same on bytes as on code points.  Lowering covers
      ASCII, Latin-1 and the Greek capitals (the blocks chord notation draws
      on); raising, white space and line ends are the ASCII ones.
    - A pitch (a MIDI number) is a [Z].  [%] is the truncating remainder
      [Z.rem].
    - A time or velocity is an exact rational [Q]; a setting that fails
      [Number.isFinite] is [None].
    - [Math.random] draws from an explicit tape.
    - The chord lookup of tonal, and the note naming of Tone, are parameters
      of the development: they are libraries, not code of this program. *)

From Stdlib Require Import ZArith QArith Qround Lia Lqa List Ascii String.
From Stdlib Require Import Sorting.Permutation Sorting.Sorted.
From stdpp Require Import base strings list gmap pretty.
Import ListNotations.

Local Open Scope string_scope.
Local Open Scope list_scope.
Local Open Scope Z_scope.

(** ** JavaScript strings *)

Module JsString.

Definition code (c : ascii) : N := N_of_ascii c.

Definition in_range (lo hi : N) (c : ascii) : bool :=
  ((lo <=? code c) && (code c <=? hi))%N.

Definition shift_code (d : N) (c : ascii) : ascii := ascii_of_N (code c + d).
Definition unshift_code (d : N) (c : ascii) : ascii := ascii_of_N (code c - d).

(** [A-Z] to [a-z]; every other byte is left alone. *)
Definition lower_ascii (c : ascii) : ascii :=
  if in_range 65 90 c then shift_code 32 c else c.

Definition upper_ascii (c : ascii) : ascii :=
  if in_range 97 122 c then unshift_code 32 c else c.

(** Two-byte capitals: Latin-1 (C3 80 .. C3 9E, but for the multiplication
    sign C3 97) and Greek (CE 91 .. CE 9F, CE A0 .. CE A9). *)
Definition lower_pair (c d : ascii) : option (ascii * ascii) :=
  if (code c =? 195)%N && in_range 128 158 d && negb (code d =? 151)%N
  then Some (c, shift_code 32 d)
  else if (code c =? 206)%N && in_range 145 159 d
  then Some (c, shift_code 32 d)
  else if (code c =? 206)%N && in_range 160 169 d
  then Some (ascii_of_N 207, unshift_code 32 d)
  else None.

(** [s.toLowerCase()] *)
Fixpoint toLowerCase (s : string) : string :=
  match s with
  | EmptyString => EmptyString
  | String c s' =>
      match s' with
      | String d s'' =>
          match lower_pair c d with
          | Some (c', d') => String c' (String d' (toLowerCase s''))
          | None => String (lower_ascii c) (toLowerCase s')
          end
      | EmptyString => String (lower_ascii c) EmptyString
      end
  end.

(** [s.toUpperCase()], used by the program on ASCII text only (the head
    letter of a pitch class, a roman numeral). *)
Fixpoint toUpperCase (s : string) : string :=
  match s with
  | EmptyString => EmptyString
  | String c s' => String (upper_ascii c) (toUpperCase s')
  end.

(** [s.includes(sub)] *)
Fixpoint includes (sub s : string) : bool :=
  String.prefix sub s ||
  match s with
  | EmptyString => false
  | String _ s' => includes sub s'
  end.

(** White space: tab, line feed, vertical tab, form feed, carriage return,
    space. *)
Definition is_space (c : ascii) : bool :=
  in_range 9 13 c || (code c =? 32)%N.

Fixpoint trimStart (s : string) : string :=
  match s with
  | String c s' => if is_space c then trimStart s' else s
  | EmptyString => EmptyString
  end.

Definition rev_string (s : string) : string :=
  string_of_list_ascii (rev (list_ascii_of_string s)).

Definition trimEnd (s : string) : string := rev_string (trimStart (rev_string s)).

(** [s.trim()] *)
Definition trim (s : string) : string := trimEnd (trimStart s).

Fixpoint drop (n : nat) (s : string) : string :=
  match n, s with
  | O, _ => s
  | S n', String _ s' => drop n' s'
  | S _, EmptyString => EmptyString
  end.

(** [s.replace(pat, rep)] with a string pattern: the first occurrence only. *)
Fixpoint replace (pat rep s : string) : string :=
  if String.prefix pat s then rep +:+ drop (String.length pat) s
  else match s with
       | EmptyString => EmptyString
       | String c s' => String c (replace pat rep s')
       end.

(** A continuation byte of a UTF-8 sequence. *)
Definition is_cont (c : ascii) : bool := in_range 128 191 c.

Fixpoint take_cont (n : nat) (s : string) : string :=
  match n, s with
  | S n', String c s' => if is_cont c then String c (take_cont n' s') else EmptyString
  | _, _ => EmptyString
  end.

(** [s.charAt(0)]: the first character, with its continuation bytes. *)
Definition charAt0 (s : string) : string :=
  match s with
  | EmptyString => EmptyString
  | String c s' => String c (if in_range 192 255 c then take_cont 3 s' else EmptyString)
  end.

(** [s.slice(1)] *)
Definition slice1 (s : string) : string := drop (String.length (charAt0 s)) s.

End JsString.

Import JsString.

(** ** Pitch-class utilities ([lib/voicing.ts]) *)

Definition LETTER_BASE (letter : string) : option Z :=
  if String.eqb letter "C" then Some 0
  else if String.eqb letter "D" then Some 2
  else if String.eqb letter "E" then Some 4
  else if String.eqb letter "F" then Some 5
  else if String.eqb letter "G" then Some 7
  else if String.eqb letter "A" then Some 9
  else if String.eqb letter "B" then Some 11
  else None.

Definition normalizePc (pc : string) : string :=
  let s := replace "♯" "#" (replace "♭" "b" (trim pc)) in
  let head := toUpperCase (charAt0 s) in
  let tail := slice1 s in
  head +:+ tail.

(** The loop over the accidentals: [#] adds one, [b] takes one away. *)
Fixpoint accidentalDelta (acc : string) (delta : Z) : Z :=
  match acc with
  | EmptyString => delta
  | String ch acc' =>
      let delta := if Ascii.eqb ch "#"%char then delta + 1 else delta in
      let delta := if Ascii.eqb ch "b"%char then delta - 1 else delta in
      accidentalDelta acc' delta
  end.

Definition pcToSemitone (pc : string) : Z :=
  let s := normalizePc pc in
  let letter := charAt0 s in
  let base := default 0 (LETTER_BASE letter) in
  let acc := slice1 s in
  let delta := accidentalDelta acc 0 in
  let v := Z.rem (base + delta) 12 in
  if v <? 0 then v + 12 else v.

Definition signedSemitoneDiff (fromPc toPc : string) : Z :=
  let a := pcToSemitone fromPc in
  let b := pcToSemitone toPc in
  let d := Z.rem (b - a + 12) 12 in
  let signed := Z.rem (d + 6) 12 - 6 in
  signed.

(** ** Chord parsing *)

Inductive Quality := major | minor | diminished | augmented.

(** What [Chord.get] of tonal hands back, as far as the program reads it.
    [ct_tonic = None] is the tonic [null] of tonal's empty chord. *)
Record TonalChord := {
  ct_tonic : option string;
  ct_notes : list string;
  ct_quality : string;
}.

Record Parsed := {
  core : string;
  slashBass : option string;
  tonic : string;
  notes : list string;
  qualityGuess : Quality;
}.

(** [.] of a regular expression: anything but a line terminator. *)
Definition is_dot (c : ascii) : bool :=
  negb ((code c =? 10)%N || (code c =? 13)%N).

(** [[A-Ga-g][b#]?] up to the end of the text. *)
Definition is_bass (b : string) : bool :=
  match b with
  | String l r =>
      (in_range 65 71 l || in_range 97 103 l) &&
      match r with
      | EmptyString => true
      | String a EmptyString => Ascii.eqb a "b"%char || Ascii.eqb a "#"%char
      | _ => false
      end
  | EmptyString => false
  end.

(** The tail [\s*\/\s*([A-Ga-g][b#]?)$] of the slash pattern: the bass it
    captures when the text matches. *)
Definition slashTail (r : string) : option string :=
  match trimStart r with
  | String c r' =>
      if Ascii.eqb c "/"%char
      then let b := trimStart r' in if is_bass b then Some b else None
      else None
  | EmptyString => None
  end.

(** The lazy group [(.+?)]: the shortest prefix, of one character or more,
    after which the tail matches.  [seen] is the prefix read so far, last
    character first. *)
Fixpoint lazyCore (seen : list ascii) (rest : string) : option (string * string) :=
  match slashTail rest with
  | Some b => Some (string_of_list_ascii (rev seen), b)
  | None =>
      match rest with
      | String c rest' => if is_dot c then lazyCore (c :: seen) rest' else None
      | EmptyString => None
      end
  end.

(** [input.trim().match(/^(.+?)\s*\/\s*([A-Ga-g][b#]?)$/)] *)
Definition matchSlash (t : string) : option (string * string) :=
  match t with
  | String c rest => if is_dot c then lazyCore [c] rest else None
  | EmptyString => None
  end.

Definition splitSlash (input : string) : string * option string :=
  match matchSlash (trim input) with
  | None => (trim input, None)
  | Some (m1, m2) => (trim m1, Some (normalizePc m2))
  end.

Definition guessQuality (symbol : string) (tonalQuality : string) : Quality :=
  let s := toLowerCase symbol in
  if includes "dim" s || includes "o" s || includes "m7b5" s || includes "ø" s
  then diminished
  else if includes "aug" s || includes "+" s then augmented
  else
    let q := toLowerCase tonalQuality in
    if includes "minor" q then minor
    else if includes "major" q then major
    else if includes "m" s && negb (includes "maj" s) then minor
    else major.

(** [!c?.tonic] is false: the tonic is a string and not the empty one. *)
Definition hasTonic (c : TonalChord) : bool :=
  match ct_tonic c with
  | Some t => negb (String.eqb t "")
  | None => false
  end.

Inductive PadVoicingPreset :=
  | PAD_TRIAD_BASS_35R
  | DROP2_1357_NO_BASS
  | DROP3_1357_NO_BASS
  | DROP24_1357_NO_BASS
  | DROP4_1357_NO_BASS
  | SHELL_R37_NO_BASS
  | GUIDE_379_NO_BASS
  | ROOTLESS_37_9_NO_BASS.

(** A flag that is absent reads as [false]. *)
Record OmitFlags := {
  omit_root : bool;
  omit_third : bool;
  omit_fifth : bool;
  omit_seventh : bool;
}.

Inductive OmitKey := root | third | fifth | seventh.

Definition omitFlag (o : OmitFlags) (deg : OmitKey) : bool :=
  match deg with
  | root => omit_root o
  | third => omit_third o
  | fifth => omit_fifth o
  | seventh => omit_seventh o
  end.

Record VoicingOptions := { omit : option OmitFlags }.

Record VoicingResult := {
  chordSymbol : string;
  preset : PadVoicingPreset;
  midis : list Z;
  vnotes : list string;
}.

Inductive DropKind := drop2 | drop3 | drop24 | drop4.

(** ** Sorting and the other array primitives *)

(** [arr.sort((a, b) => a - b)] on numbers. *)
Fixpoint insertZ (x : Z) (l : list Z) : list Z :=
  match l with
  | [] => [x]
  | y :: l' => if x <=? y then x :: l else y :: insertZ x l'
  end.

Fixpoint sortZ (l : list Z) : list Z :=
  match l with
  | [] => []
  | x :: l' => insertZ x (sortZ l')
  end.

(** [arr.slice(-n)] *)
Definition sliceLast {A} (n : nat) (l : list A) : list A :=
  skipn (length l - n) l.

(** [Math.min(...l)]; [None] is the [Infinity] of the empty list. *)
Definition Math_min (l : list Z) : option Z :=
  match l with
  | [] => None
  | x :: l' => Some (fold_left Z.min l' x)
  end.

(** [Math.max(...l)]; [None] is the [-Infinity] of the empty list. *)
Definition Math_max (l : list Z) : option Z :=
  match l with
  | [] => None
  | x :: l' => Some (fold_left Z.max l' x)
  end.

(** [Math.ceil(x / d)] on integers, [d] positive. *)
Definition ceilDiv (x d : Z) : Z := - ((- x) / d).

(** ** The voicing builder *)

Section Voicing.

(** [Chord.get(core)] of tonal. *)
Variable Chord_get : string -> TonalChord.
(** [Tone.Frequency(pc + oct).toMidi()] *)
Variable midiFrom : string -> Z -> Z.
(** [Tone.Frequency(m, "midi").toNote()] *)
Variable toNote : Z -> string.

Definition parseChordSymbol (input : string) : option Parsed :=
  let '(core, slash) := splitSlash input in
  let c := Chord_get core in
  if negb (hasTonic c) then None
  else
    let tonic := normalizePc (default "" (ct_tonic c)) in
    let notes := map normalizePc (ct_notes c) in
    Some {| core := core;
            slashBass := slash;
            tonic := tonic;
            notes := notes;
            qualityGuess := guessQuality core (ct_quality c) |}.

Definition toneAt (p : Parsed) (idx : nat) : option string := notes p !! idx.
Definition rootPc (p : Parsed) : string := tonic p.
Definition thirdPc (p : Parsed) := toneAt p 1.
Definition fifthPc (p : Parsed) := toneAt p 2.
Definition seventhPc (p : Parsed) := toneAt p 3.
Definition ninthPc (p : Parsed) := toneAt p 4.
Definition thirteenthPc (p : Parsed) := toneAt p 6.

(** The loop [while (m < minMidi) m += 12], run for at most [fuel] turns. *)
Fixpoint raiseOctaves (fuel : nat) (m minMidi : Z) : Z :=
  match fuel with
  | O => m
  | S fuel' => if m <? minMidi then raiseOctaves fuel' (m + 12) minMidi else m
  end.

(** [minMidi - m] turns are more than the loop ever takes
    ([nearestAbove_clears] below: it leaves on its own condition). *)
Definition nearestAbove (pc : string) (minMidi anchorOct : Z) : Z :=
  let m := midiFrom pc anchorOct in
  raiseOctaves (Z.to_nat (minMidi - m)) m minMidi.

Definition clampLowMud (midis : list Z) (minTop : Z) : list Z :=
  if (length midis <? 2)%nat then midis
  else
    let sorted := sortZ midis in
    let top3 := sliceLast 3 sorted in
    match Math_min top3 with
    | None => sorted
    | Some topMin =>
        if topMin >=? minTop then sorted
        else
          let delta := 12 * ceilDiv (minTop - topMin) 12 in
          imap (fun i m => if (i =? 0)%nat then m else m + delta) sorted
    end.

Definition applyShift (midis : list Z) (shift : Z) : list Z :=
  if shift =? 0 then midis else map (fun m => m + shift) midis.

(** The placement loop
    [for (const pc of pcs) { m = nearestAbove(pc, min + 1, oct); placed.push(m); min = m + 1 }],
    which the source writes out in [buildClosedFromPcs] and in three
    presets. *)
Fixpoint placeEach (pcs : list string) (min oct : Z) : list Z :=
  match pcs with
  | [] => []
  | pc :: pcs' =>
      let m := nearestAbove pc (min + 1) oct in
      m :: placeEach pcs' (m + 1) oct
  end.

Definition buildClosedFromPcs (anchorPc : string) (pcs : list string) (centerOctave : Z)
  : list Z :=
  match pcs with
  | [] => []
  | _ =>
      let baseOct := Z.max 1 (centerOctave - 1) in
      let min := midiFrom anchorPc baseOct - 1 in
      placeEach pcs min baseOct
  end.

Definition applyDrop (closed : list Z) (kind : DropKind) : list Z :=
  match closed with
  | [v1; v2; v3; v4] =>
      match kind with
      | drop2 => sortZ [v1; v2; v3 - 12; v4]
      | drop3 => sortZ [v1; v2 - 12; v3; v4]
      | drop4 => sortZ [v1 - 12; v2; v3; v4]
      | drop24 => sortZ [v1 - 12; v2; v3 - 12; v4]
      end
  | _ => closed
  end.

Definition omitOk (deg : OmitKey) (omit : option OmitFlags) : bool :=
  match omit with
  | None => true
  | Some o => negb (omitFlag o deg)
  end.

(** [if (cond) pcs.push(pc)] *)
Definition pushIf {A} (cond : bool) (x : A) : list A := if cond then [x] else [].

(** The pitch classes of the four drop presets. *)
Definition pcs1357 (p : Parsed) (omit : option OmitFlags) : list string :=
  let r := rootPc p in
  let t3 := thirdPc p in
  let t5 := fifthPc p in
  let t7 := seventhPc p in
  pushIf (omitOk root omit) r
  ++ pushIf (omitOk third omit) (default r t3)
  ++ pushIf (omitOk fifth omit) (default r t5)
  ++ pushIf (omitOk seventh omit) (default (default r t5) t7).

Definition dropPreset (p : Parsed) (centerOctave : Z) (omit : option OmitFlags)
    (kind : DropKind) : list Z :=
  let closed := buildClosedFromPcs (rootPc p) (pcs1357 p omit) centerOctave in
  clampLowMud (applyDrop closed kind) 58.

(** [PAD_TRIAD_BASS_35R]: bass, third, fifth and a closing root. *)
Definition triadPreset (p : Parsed) (centerOctave : Z) (omit : option OmitFlags)
  : list Z :=
  let r := rootPc p in
  let t3 := thirdPc p in
  let t5 := fifthPc p in
  let bassPc := default r (slashBass p) in
  let bassOct := Z.max 1 (centerOctave - 2) in
  let bass := midiFrom bassPc bassOct in
  let omitRoot := match omit with Some o => omit_root o | None => false end in
  let tmp := pushIf (negb (omitRoot && String.eqb bassPc r)) bass in
  let cursor := match last tmp with Some b => b + 2 | None => bass - 6 end in
  let '(tmp, cursor) :=
    if omitOk third omit
    then let m3 := nearestAbove (default r t3) cursor (centerOctave - 1) in
         (tmp ++ [m3], m3 + 2)
    else (tmp, cursor) in
  let '(tmp, cursor) :=
    if omitOk fifth omit
    then let m5 := nearestAbove (default r t5) cursor (centerOctave - 1) in
         (tmp ++ [m5], m5 + 2)
    else (tmp, cursor) in
  let tmp :=
    if omitOk root omit
    then let topR := nearestAbove r cursor centerOctave in tmp ++ [topR]
    else tmp in
  clampLowMud tmp 55.

(** The three presets placed from the centre octave, over a floor taken one
    octave below. *)
Definition placedPreset (p : Parsed) (centerOctave : Z) (pcs : list string)
    (minTop : Z) : list Z :=
  let min := midiFrom (rootPc p) (Z.max 1 (centerOctave - 1)) - 1 in
  clampLowMud (placeEach pcs min centerOctave) minTop.

(** The value of [midis] when the chain of [if (preset === ...)] is over. *)
Definition presetMidis (p : Parsed) (centerOctave : Z) (preset : PadVoicingPreset)
    (omit : option OmitFlags) : list Z :=
  let r := rootPc p in
  let t3 := thirdPc p in
  let t5 := fifthPc p in
  let t7 := seventhPc p in
  let t9 := ninthPc p in
  let t13 := thirteenthPc p in
  match preset with
  | PAD_TRIAD_BASS_35R => triadPreset p centerOctave omit
  | DROP2_1357_NO_BASS => dropPreset p centerOctave omit drop2
  | DROP3_1357_NO_BASS => dropPreset p centerOctave omit drop3
  | DROP24_1357_NO_BASS => dropPreset p centerOctave omit drop24
  | DROP4_1357_NO_BASS => dropPreset p centerOctave omit drop4
  | SHELL_R37_NO_BASS =>
      placedPreset p centerOctave
        (pushIf (omitOk root omit) r
         ++ pushIf (omitOk third omit) (default r t3)
         ++ pushIf (omitOk seventh omit) (default (default r t5) t7)
         ++ [default (default r t5) t9]) 60
  | GUIDE_379_NO_BASS =>
      placedPreset p centerOctave
        (pushIf (omitOk third omit) (default r t3)
         ++ pushIf (omitOk seventh omit) (default (default r t5) t7)
         ++ [default (default r t5) t9]
         ++ pushIf (omitOk root omit) r) 60
  | ROOTLESS_37_9_NO_BASS =>
      placedPreset p centerOctave
        (pushIf (omitOk third omit) (default r t3)
         ++ pushIf (omitOk seventh omit) (default (default r t5) t7)
         ++ [default (default r t5) t9]
         ++ [default (default r t5) t13]) 62
  end.

(** The pitch class of the fallback: the slash bass, or the root. *)
Definition fallbackPc (p : Parsed) : string := default (rootPc p) (slashBass p).

(** [if (!midis.length) midis = [midiFrom(fallbackPc, Math.max(1, centerOctave - 1))]] *)
Definition withFallback (p : Parsed) (centerOctave : Z) (midis : list Z) : list Z :=
  match midis with
  | [] => [midiFrom (fallbackPc p) (Z.max 1 (centerOctave - 1))]
  | _ => midis
  end.

Definition buildPadVoicing (chordSymbol : string) (centerOctave : Z)
    (preset : PadVoicingPreset) (transposeShift : Z) (opts : VoicingOptions)
  : option VoicingResult :=
  match parseChordSymbol chordSymbol with
  | None => None
  | Some p =>
      let midis := presetMidis p centerOctave preset (omit opts) in
      let midis := withFallback p centerOctave midis in
      let midis := applyShift midis transposeShift in
      let notes := map toNote midis in
      Some {| chordSymbol := chordSymbol;
              preset := preset;
              midis := midis;
              vnotes := notes |}
  end.

End Voicing.

(** ** Roman numerals *)

Inductive KeyMode := key_major | key_minor.

Record KeySig := { key_tonic : string; key_mode : KeyMode }.

Definition DEGREE_ROMAN : list string := ["I"; "II"; "III"; "IV"; "V"; "VI"; "VII"].

Definition degreeIntervals (mode : KeyMode) : list Z :=
  match mode with
  | key_major => [0; 2; 4; 5; 7; 9; 11]
  | key_minor => [0; 2; 3; 5; 7; 8; 10]
  end.

Definition accidentalPrefix (delta : Z) : string :=
  if delta =? -2 then "bb"
  else if delta =? -1 then "b"
  else if delta =? 1 then "#"
  else if delta =? 2 then "##"
  else "".

(** [/7/.test(s)] *)
Definition isSeventhChord (symbol : string) : bool :=
  let s := toLowerCase symbol in
  includes "7" s.

Definition isMaj7 (symbol : string) : bool :=
  let s := toLowerCase symbol in
  includes "maj7" s || includes "ma7" s || includes "Δ7" s.

Definition qualityToRomanCase (q : Quality) (base symbol : string) : string :=
  let s := toLowerCase symbol in
  let isHalfDim := includes "m7b5" s || includes "ø" s in
  let isDim :=
    match q with diminished => true | _ => false end
    || includes "dim" s || includes "o" s in
  let isAug :=
    match q with augmented => true | _ => false end
    || includes "+" s || includes "aug" s in
  if isHalfDim then toLowerCase base +:+ "ø"
  else if isDim then toLowerCase base +:+ "°"
  else if isAug then toUpperCase base +:+ "+"
  else match q with
       | minor => toLowerCase base
       | _ => toUpperCase base
       end.

(** The state of the search loop: [bestIdx], [bestDelta], [bestScore]. *)
Record Best := { bestIdx : nat; bestDelta : Z; bestScore : Z }.

(** One turn of [for (let i = 0; i < baseInts.length; i++)]. *)
Definition degreeStep (diff : Z) (b : Best) (i : nat) (base : Z) : Best :=
  let deltaSigned := Z.rem (diff - base + 6) 12 - 6 in
  let score := Z.abs deltaSigned in
  if score <? bestScore b
  then {| bestIdx := i; bestDelta := deltaSigned; bestScore := score |}
  else b.

Fixpoint degreeLoop (diff : Z) (b : Best) (i : nat) (baseInts : list Z) : Best :=
  match baseInts with
  | [] => b
  | base :: rest => degreeLoop diff (degreeStep diff b i base) (S i) rest
  end.

(** What [romanizeChord] appends for the seventh. *)
Definition extensionOf (coreSymbol : string) : string :=
  if isMaj7 coreSymbol then "Δ7"
  else if isSeventhChord coreSymbol then "7"
  else "".

Section Roman.

Variable Chord_get : string -> TonalChord.

Definition romanizeChord (chordSymbol : string) (key : KeySig) : string :=
  match parseChordSymbol Chord_get chordSymbol with
  | None => ""
  | Some p =>
      let keySemi := pcToSemitone (key_tonic key) in
      let chordSemi := pcToSemitone (tonic p) in
      let diff := Z.rem (chordSemi - keySemi + 12) 12 in
      let baseInts := degreeIntervals (key_mode key) in
      let best :=
        degreeLoop diff {| bestIdx := 0; bestDelta := 0; bestScore := 999 |} 0 baseInts in
      let clipped := Z.max (-2) (Z.min 2 (bestDelta best)) in
      let acc := accidentalPrefix clipped in
      let baseRoman := nth (bestIdx best) DEGREE_ROMAN "" in
      let romanWithQuality := qualityToRomanCase (qualityGuess p) baseRoman (core p) in
      let ext := extensionOf (core p) in
      acc +:+ romanWithQuality +:+ ext
  end.

End Roman.

(** ** The two libraries, on the inputs of the examples *)

(** Tone's note numbers: C4 is 60, an octave is 12, an accidental is one
    semitone and is not reduced (Cb4 is 59, B#4 is 72). *)
Module Tone.

Definition midiFrom (pc : string) (oct : Z) : Z :=
  12 * (oct + 1)
  + default 0 (LETTER_BASE (toUpperCase (charAt0 pc)))
  + accidentalDelta (slice1 pc) 0.

Definition NOTE_NAMES : list string :=
  ["C"; "C#"; "D"; "D#"; "E"; "F"; "F#"; "G"; "G#"; "A"; "A#"; "B"].

Definition toNote (m : Z) : string :=
  nth (Z.to_nat (m mod 12)) NOTE_NAMES "" +:+ pretty (m / 12 - 1).

End Tone.

(** tonal's [Chord.get] on a few chord names; any other name is taken as
    one tonal does not know (its empty chord). *)
Module Tonal.

Definition chord (t : string) (ns : list string) (q : string) : TonalChord :=
  {| ct_tonic := Some t; ct_notes := ns; ct_quality := q |}.

Definition NoChord : TonalChord :=
  {| ct_tonic := None; ct_notes := []; ct_quality := "Unknown" |}.

Definition get (name : string) : TonalChord :=
  if String.eqb name "C" then chord "C" ["C"; "E"; "G"] "Major"
  else if String.eqb name "F" then chord "F" ["F"; "A"; "C"] "Major"
  else if String.eqb name "C7" then chord "C" ["C"; "E"; "G"; "Bb"] "Major"
  else if String.eqb name "Cm7" then chord "C" ["C"; "Eb"; "G"; "Bb"] "Minor"
  else if String.eqb name "Dbm7" then chord "Db" ["Db"; "Fb"; "Ab"; "Cb"] "Minor"
  else if String.eqb name "Cmaj7" then chord "C" ["C"; "E"; "G"; "B"] "Major"
  else if String.eqb name "C-Δ7" then chord "C" ["C"; "Eb"; "G"; "B"] "Minor"
  else NoChord.

End Tonal.

Definition noOmit : VoicingOptions := {| omit := None |}.

Definition omitFlags (r t f s : bool) : VoicingOptions :=
  {| omit := Some {| omit_root := r; omit_third := t; omit_fifth := f; omit_seventh := s |} |}.

Definition build := buildPadVoicing Tonal.get Tone.midiFrom Tone.toNote.

(** ** Predicates and sample values of the statements *)

(** The three ways out of [clampLowMud]. *)
Inductive ClampCase (l : list Z) (minTop : Z) : list Z -> Prop :=
  | clamp_short : (length l < 2)%nat -> ClampCase l minTop l
  | clamp_clear :
      (2 <= length l)%nat ->
      (forall t, Math_min (sliceLast 3 (sortZ l)) = Some t -> minTop <= t) ->
      ClampCase l minTop (sortZ l)
  | clamp_raise b rest t :
      sortZ l = b :: rest ->
      Math_min (sliceLast 3 (sortZ l)) = Some t ->
      t < minTop ->
      ClampCase l minTop (b :: map (fun m => m + 12 * ceilDiv (minTop - t) 12) rest).

(** The chord of C as the parser returns it. *)
Definition parsed_C : Parsed :=
  {| core := "C"; slashBass := None; tonic := "C"; notes := ["C"; "E"; "G"];
     qualityGuess := major |}.

Definition result_Cm7_drop2_up_3 : VoicingResult :=
  {| chordSymbol := "Cm7"; preset := DROP2_1357_NO_BASS;
     midis := [58; 63; 66; 73]%Z; vnotes := ["A#3"; "D#4"; "F#4"; "C#5"] |}.

Definition key_C_major : KeySig := {| key_tonic := "C"; key_mode := key_major |}.

(** ** The note scheduler ([lib/performance.ts]) *)

Local Open Scope Q_scope.

(** *** Numbers and chance *)

Definition Math_maxQ (a b : Q) : Q := if Qle_bool a b then b else a.
Definition Math_minQ (a b : Q) : Q := if Qle_bool a b then a else b.

Definition clamp (x lo hi : Q) : Q := Math_maxQ lo (Math_minQ hi x).
Definition clamp01 (x : Q) : Q := clamp x 0 1.

(** A computation that draws from [Math.random]: the tape holds the draws
    to come, each in [0, 1); a tape that has run out draws 0. *)
Definition Rand (A : Type) : Type := list Q -> A * list Q.

Definition ret {A} (x : A) : Rand A := fun tape => (x, tape).

Definition bind {A B} (m : Rand A) (k : A -> Rand B) : Rand B :=
  fun tape => let '(x, tape') := m tape in k x tape'.

Notation "'rand' x <- m 'in' k" := (bind m (fun x => k))
  (at level 10, x name, m at level 100, k at level 200).

Definition Math_random : Rand Q :=
  fun tape => match tape with
              | [] => (0, [])
              | r :: tape' => (r, tape')
              end.

Definition randBetween (min max : Q) : Rand Q :=
  rand r <- Math_random in ret (min + r * (max - min)).

(** [arr.map((x, idx) => ...)] with a callback that draws; [i] is the index
    of the head. *)
Fixpoint mapM {A B} (f : A -> nat -> Rand B) (i : nat) (l : list A) : Rand (list B) :=
  match l with
  | [] => ret []
  | x :: l' => rand y <- f x i in rand ys <- mapM f (S i) l' in ret (y :: ys)
  end.

(** *** Settings and events *)

Inductive StrumDirection := dir_up | dir_down | dir_random.
Inductive PlayMode := chord | arp.
Inductive ArpPattern := arp_up | arp_down | arp_random | arp_1357.

(** A number that is not finite, and a field that is missing, are [None]. *)
Record PerformanceSettings := {
  strumMs : option Q;
  direction : option StrumDirection;
  playMode : option PlayMode;
  arpPattern : option ArpPattern;
  arpStepMs : option Q;
  arpGate : option Q;
  timingJitterMs : option Q;
  velocityHumanize : option Q;
  baseVelocity : option Q;
  topBoost : option Q;
}.

Record NormalizedPerf := {
  n_strumMs : Q;
  n_direction : StrumDirection;
  n_playMode : PlayMode;
  n_arpPattern : ArpPattern;
  n_arpStepMs : Q;
  n_arpGate : Q;
  n_timingJitterMs : Q;
  n_velocityHumanize : Q;
  n_baseVelocity : Q;
  n_topBoost : Q;
}.

Record NoteEvent := {
  note : string;
  midi : Z;
  isTop : bool;
  delayMs : Q;
  velocity : Q;
  durSec : Q;
}.

Record Item := { it_note : string; it_midi : Z; it_isTop : bool; it_idx : nat }.

Definition normalizePerf (perf : PerformanceSettings) : NormalizedPerf :=
  {| n_strumMs := Math_maxQ 0 (default 0 (strumMs perf));
     n_direction := default dir_up (direction perf);
     n_playMode := default chord (playMode perf);
     n_arpPattern := default arp_up (arpPattern perf);
     n_arpStepMs := Math_maxQ 10 (default 90 (arpStepMs perf));
     n_arpGate := clamp (default (85 # 100) (arpGate perf)) (1 # 10) 1;
     n_timingJitterMs := Math_maxQ 0 (default 0 (timingJitterMs perf));
     n_velocityHumanize := Math_maxQ 0 (default 0 (velocityHumanize perf));
     n_baseVelocity := clamp (default (8 # 10) (baseVelocity perf)) (5 # 100) 1;
     n_topBoost := clamp (default 0 (topBoost perf)) 0 1 |}.

(** *** Play order *)

(** One swap of the shuffle: [t = arr[i]; arr[i] = arr[j]; arr[j] = t].
    With a draw in [0, 1) both indices are in range. *)
Definition swap {A} (i j : nat) (arr : list A) : list A :=
  match arr !! i, arr !! j with
  | Some t, Some aj => <[j := t]> (<[i := aj]> arr)
  | _, _ => arr
  end.

(** [for (let i = arr.length - 1; i > 0; i--)], entered at [i]. *)
Fixpoint shuffleFrom {A} (i : nat) (arr : list A) : Rand (list A) :=
  match i with
  | O => ret arr
  | S i' =>
      rand r <- Math_random in
      let j := Z.to_nat (Qfloor (r * inject_Z (Z.of_nat i + 1))) in
      shuffleFrom i' (swap i j arr)
  end.

Definition shuffleInPlace {A} (arr : list A) : Rand (list A) :=
  shuffleFrom (length arr - 1) arr.

(** [items.sort((a, b) => a.midi - b.midi)]; the sort of JavaScript is
    stable. *)
Fixpoint insertItem (x : Item) (l : list Item) : list Item :=
  match l with
  | [] => [x]
  | y :: l' => if (it_midi x <=? it_midi y)%Z then x :: l else y :: insertItem x l'
  end.

Fixpoint sortItems (l : list Item) : list Item :=
  match l with
  | [] => []
  | x :: l' => insertItem x (sortItems l')
  end.

Definition orderForChord (items : list Item) (dir : StrumDirection) : Rand (list Item) :=
  let ordered := sortItems items in
  match dir with
  | dir_down => ret (rev ordered)
  | dir_random => shuffleInPlace ordered
  | dir_up => ret ordered
  end.

Definition orderForArp (items : list Item) (pat : ArpPattern) : Rand (list Item) :=
  match pat with
  | arp_1357 => ret items
  | _ =>
      let ordered := sortItems items in
      match pat with
      | arp_down => ret (rev ordered)
      | arp_random => shuffleInPlace ordered
      | _ => ret ordered
      end
  end.

(** *** Events *)

(** [midis[i] === topMidi] *)
Definition isTopMidi (topMidi : option Z) (m : Z) : bool :=
  match topMidi with
  | Some t => (m =? t)%Z
  | None => false
  end.

(** [notes.map((note, i) => ({ note, midi: midis[i], isTop: midis[i] === topMidi, idx: i }))];
    the lengths agree, so [midis[i]] is there. *)
Definition makeItems (notes : list string) (midis : list Z) : list Item :=
  let topMidi := Math_max midis in
  imap (fun i note =>
          {| it_note := note;
             it_midi := nth i midis 0%Z;
             it_isTop := isTopMidi topMidi (nth i midis 0%Z);
             it_idx := i |}) notes.

Definition ofNat (i : nat) : Q := inject_Z (Z.of_nat i).

(** The delay schedule: [for (let i = 0; i < n; i++) delays.push(i * step)]. *)
Definition makeDelays (p : NormalizedPerf) (n : nat) : list Q :=
  match n_playMode p with
  | arp =>
      let step := n_arpStepMs p in
      map (fun i => ofNat i * step) (seq 0 n)
  | chord =>
      let total := n_strumMs p in
      let step := if (n <=? 1)%nat then 0 else total / (ofNat n - 1) in
      map (fun i => ofNat i * step) (seq 0 n)
  end.

(** The callback of the last [map]: one event, with its draws. *)
Definition makeEvent (p : NormalizedPerf) (delays : list Q) (arpDurSec oneShot : Q)
    (it : Item) (idx : nat) : Rand NoteEvent :=
  let d := default 0 (delays !! idx) in
  rand d <- (if Qlt_le_dec 0 (n_timingJitterMs p)
            then rand j <- randBetween (- n_timingJitterMs p) (n_timingJitterMs p) in
                 ret (d + j)
            else ret d) in
  let d := Math_maxQ 0 d in
  let v := n_baseVelocity p in
  rand v <- (if Qlt_le_dec 0 (n_velocityHumanize p)
            then rand h <- randBetween (- n_velocityHumanize p) (n_velocityHumanize p) in
                 ret (v * (1 + h))
            else ret v) in
  let v := if it_isTop it && (if Qlt_le_dec 0 (n_topBoost p) then true else false)
           then v * (1 + n_topBoost p) else v in
  ret {| note := it_note it;
         midi := it_midi it;
         isTop := it_isTop it;
         delayMs := d;
         velocity := clamp01 v;
         durSec := match n_playMode p with arp => arpDurSec | chord => oneShot end |}.

(** [oneShotDurSec] is [None] when the caller leaves it out (0.85 then). *)
Definition buildNoteEvents (notes : list string) (midis : list Z)
    (perf : PerformanceSettings) (oneShotDurSec : option Q) : Rand (list NoteEvent) :=
  if (length notes =? 0)%nat || negb (length notes =? length midis)%nat then ret []
  else
    let p := normalizePerf perf in
    let oneShot := clamp (default (85 # 100) oneShotDurSec) (5 # 100) 10 in
    let items := makeItems notes midis in
    rand playOrder <- (match n_playMode p with
                      | arp => orderForArp items (n_arpPattern p)
                      | chord => orderForChord items (n_direction p)
                      end) in
    let n := length playOrder in
    let delays := makeDelays p n in
    let arpStepSec := match n_playMode p with arp => n_arpStepMs p / 1000 | chord => 0 end in
    let arpDurSec := Math_minQ oneShot (Math_maxQ (5 # 100) (arpStepSec * n_arpGate p)) in
    mapM (makeEvent p delays arpDurSec oneShot) 0 playOrder.

(** The settings the page starts with, jitter and humanising switched off. *)
Definition plainPerf (mode : PlayMode) (pat : ArpPattern) (dir : StrumDirection)
    (strum step : Q) : PerformanceSettings :=
  {| strumMs := Some strum; direction := Some dir; playMode := Some mode;
     arpPattern := Some pat; arpStepMs := Some step; arpGate := Some (85 # 100);
     timingJitterMs := Some 0; velocityHumanize := Some 0;
     baseVelocity := Some (75 # 100); topBoost := Some (18 # 100) |}.

Local Close Scope Q_scope.

(** ** Pad holds ([app/dev/page.tsx]) *)

Record HoldState := {
  h_notes : list string;
  scheduleIds : list nat;
}.

(** A pad as [padModels] holds it. *)
Record PadModel := {
  pm_idx : nat;
  pm_chord : string;
  pm_roman : string;
  pm_preset : PadVoicingPreset;
  pm_notes : list string;
  pm_midis : list Z;
  pm_ok : bool;
}.

(** A row of the log (the wall-clock stamp is left out). *)
Record LogRow := {
  log_chord : string;
  log_roman : string;
  log_preset : PadVoicingPreset;
  log_notes : list string;
  log_midis : list Z;
  log_shift : Z;
  log_perf : PerformanceSettings;
}.

(** A callback waiting in [Tone.Transport]: the attack it will trigger. *)
Record Attack := {
  at_note : string;
  at_velocity : Q;
  at_delaySec : Q;
}.

(** What the synth has been told. *)
Inductive SynthCall :=
  | triggerAttack (n : string) (v : Q)
  | triggerRelease (ns : list string)
  | releaseAll.

(** The refs of the page that the holds read and write, and the part of
    Tone they drive. *)
Record Page := {
  activeHold : gmap nat HoldState;      (* activeHoldRef.current *)
  holdMidis : gmap nat (list Z);        (* holdMidisRef.current *)
  oneShotMidis : list Z;                (* oneShotMidisRef.current *)
  oneShotTimer : option nat;            (* oneShotTimerRef.current *)
  syncPending : bool;                   (* rafSyncRef.current != null *)
  guidePadIdx : nat;
  logs : list LogRow;
  padModels : list PadModel;            (* padModelsRef.current *)
  perfNow : PerformanceSettings;        (* perfRef.current *)
  shiftNow : Z;                         (* shiftRef.current *)
  synthMade : bool;                     (* synthRef.current is set *)
  audioReady : bool;                    (* audioReadyRef.current *)
  transportStarted : bool;              (* Tone.Transport.state is "started" *)
  transport : gmap nat Attack;          (* the callbacks of scheduleOnce not yet run *)
  nextId : nat;                         (* the id scheduleOnce gives next *)
  synthLog : list SynthCall;            (* calls made to the synth, latest first *)
  randomTape : list Q;                  (* the draws of Math.random to come *)
}.

(** [ids.forEach((id) => Tone.Transport.clear(id))] *)
Definition clearAll (ids : list nat) (t : gmap nat Attack) : gmap nat Attack :=
  foldr delete t ids.

Definition stopHoldByIndex (idx : nat) (st : Page) : Page :=
  match activeHold st !! idx with
  | None => st
  | Some h =>
      {| activeHold := delete idx (activeHold st);
         holdMidis := delete idx (holdMidis st);
         oneShotMidis := oneShotMidis st;
         oneShotTimer := oneShotTimer st;
         syncPending := true;
         guidePadIdx := guidePadIdx st;
         logs := logs st;
         padModels := padModels st;
         perfNow := perfNow st;
         shiftNow := shiftNow st;
         synthMade := synthMade st;
         audioReady := audioReady st;
         transportStarted := transportStarted st;
         transport := clearAll (scheduleIds h) (transport st);
         nextId := nextId st;
         synthLog := if synthMade st then triggerRelease (h_notes h) :: synthLog st
                     else synthLog st;
         randomTape := randomTape st |}
  end.

(** The two guards of [startHoldByIndex]: the pad it goes on with, if any. *)
Definition startGuard (idx : nat) (st : Page) : option PadModel :=
  match padModels st !! idx with
  | None => None
  | Some p =>
      if negb (pm_ok p) || (length (pm_notes p) =? 0)%nat then None
      else match activeHold st !! idx with
           | Some _ => None
           | None => Some p
           end
  end.

(** [startHoldByIndex] up to its [await]: the state it leaves, and the pad
    it holds on to when it is to go on after the [await]. *)
Definition startHoldBegin (idx : nat) (st : Page) : Page * option PadModel :=
  match startGuard idx st with
  | None => (st, None)
  | Some p =>
      ({| activeHold := activeHold st;
          holdMidis := holdMidis st;
          oneShotMidis := oneShotMidis st;
          oneShotTimer := oneShotTimer st;
          syncPending := syncPending st;
          guidePadIdx := idx;
          logs := logs st;
          padModels := padModels st;
          perfNow := perfNow st;
          shiftNow := shiftNow st;
          synthMade := synthMade st;
          audioReady := audioReady st;
          transportStarted := transportStarted st;
          transport := transport st;
          nextId := nextId st;
          synthLog := synthLog st;
          randomTape := randomTape st |}, Some p)
  end.

(** The loop over the events: one [scheduleOnce] each, ids in order. *)
Fixpoint scheduleEvents (events : list NoteEvent) (t : gmap nat Attack) (next : nat)
  : gmap nat Attack * nat * list nat :=
  match events with
  | [] => (t, next, [])
  | ev :: events' =>
      let delaySec := (Math_maxQ 0 (delayMs ev) / 1000)%Q in
      let cb := {| at_note := note ev; at_velocity := velocity ev; at_delaySec := delaySec |} in
      let '(t', next', ids) := scheduleEvents events' (<[next := cb]> t) (S next) in
      (t', next', next :: ids)
  end.

(** [startHoldByIndex] from its [await] on: the audio is made ready, then
    the hold is set up. *)
Definition startHoldResume (idx : nat) (p : PadModel) (st : Page) : Page :=
  let '(events, tape') :=
    buildNoteEvents (pm_notes p) (pm_midis p) (perfNow st) (Some (9 # 10)%Q) (randomTape st) in
  let '(transport', next', ids) := scheduleEvents events (transport st) (nextId st) in
  {| activeHold := <[idx := {| h_notes := map note events; scheduleIds := ids |}]> (activeHold st);
     holdMidis := <[idx := pm_midis p]> (holdMidis st);
     oneShotMidis := oneShotMidis st;
     oneShotTimer := oneShotTimer st;
     syncPending := true;
     guidePadIdx := guidePadIdx st;
     logs := take 200 ({| log_chord := pm_chord p; log_roman := pm_roman p;
                          log_preset := pm_preset p; log_notes := pm_notes p;
                          log_midis := pm_midis p; log_shift := shiftNow st;
                          log_perf := perfNow st |} :: logs st);
     padModels := padModels st;
     perfNow := perfNow st;
     shiftNow := shiftNow st;
     synthMade := true;
     audioReady := true;
     transportStarted := true;
     transport := transport';
     nextId := next';
     synthLog := synthLog st;
     randomTape := tape' |}.

(** A press that nothing interrupts at its [await]. *)
Definition startHoldByIndex (idx : nat) (st : Page) : Page :=
  match startHoldBegin idx st with
  | (st', None) => st'
  | (st', Some p) => startHoldResume idx p st'
  end.

Definition stopAll (st : Page) : Page :=
  {| activeHold := ∅;
     holdMidis := ∅;
     oneShotMidis := [];
     oneShotTimer := None;
     syncPending := true;
     guidePadIdx := guidePadIdx st;
     logs := logs st;
     padModels := padModels st;
     perfNow := perfNow st;
     shiftNow := shiftNow st;
     synthMade := synthMade st;
     audioReady := audioReady st;
     transportStarted := false;
     transport := ∅;
     nextId := nextId st;
     synthLog := if synthMade st then releaseAll :: synthLog st else synthLog st;
     randomTape := randomTape st |}.

(** The transport runs the callback [id]: the attack sounds and the
    callback, scheduled once, is gone. *)
Definition fire (id : nat) (st : Page) : Page :=
  match transport st !! id with
  | None => st
  | Some cb =>
      {| activeHold := activeHold st;
         holdMidis := holdMidis st;
         oneShotMidis := oneShotMidis st;
         oneShotTimer := oneShotTimer st;
         syncPending := syncPending st;
         guidePadIdx := guidePadIdx st;
         logs := logs st;
         padModels := padModels st;
         perfNow := perfNow st;
         shiftNow := shiftNow st;
         synthMade := synthMade st;
         audioReady := audioReady st;
         transportStarted := transportStarted st;
         transport := delete id (transport st);
         nextId := nextId st;
         synthLog := triggerAttack (at_note cb) (at_velocity cb) :: synthLog st;
         randomTape := randomTape st |}
  end.

(** What can happen to the holds. *)
Inductive HoldOp :=
  | Press (idx : nat)
  | Release (idx : nat)
  | StopAll
  | Fire (id : nat).

Definition step (st : Page) (op : HoldOp) : Page :=
  match op with
  | Press idx => startHoldByIndex idx st
  | Release idx => stopHoldByIndex idx st
  | StopAll => stopAll st
  | Fire id => fire id st
  end.

Definition run (ops : list HoldOp) (st : Page) : Page := fold_left step ops st.

(** A page on which nothing is held and nothing is scheduled. *)
Definition idle (st : Page) : Prop :=
  activeHold st = ∅ /\ holdMidis st = ∅ /\ transport st = ∅.

(** *** The invariant of the holds *)

(** Every callback that waits in the transport belongs to one hold, and to
    one only; a hold has one callback id for each of its notes, no id
    twice; the highlighted pads are the held ones. *)
Record HoldInv (st : Page) : Prop := {
  inv_pending_old : forall id, is_Some (transport st !! id) -> (id < nextId st)%nat;
  inv_ids : forall idx h,
      activeHold st !! idx = Some h ->
      NoDup (scheduleIds h)
      /\ (forall id, id ∈ scheduleIds h -> (id < nextId st)%nat)
      /\ length (scheduleIds h) = length (h_notes h);
  inv_one_owner : forall idx1 idx2 h1 h2 id,
      activeHold st !! idx1 = Some h1 ->
      activeHold st !! idx2 = Some h2 ->
      id ∈ scheduleIds h1 -> id ∈ scheduleIds h2 -> idx1 = idx2;
  inv_owned : forall id,
      is_Some (transport st !! id) ->
      exists idx h, activeHold st !! idx = Some h /\ id ∈ scheduleIds h;
  inv_viz : dom (holdMidis st) = dom (activeHold st);
}.

(** *** The holds on a page with one pad *)

Definition pad_F_over_G : PadModel :=
  {| pm_idx := 0; pm_chord := "F/G"; pm_roman := "IV"; pm_preset := PAD_TRIAD_BASS_35R;
     pm_notes := ["G3"; "A4"; "C5"; "F5"]; pm_midis := [55; 69; 72; 77]; pm_ok := true |}.

Definition page0 : Page :=
  {| activeHold := ∅; holdMidis := ∅; oneShotMidis := []; oneShotTimer := None;
     syncPending := false; guidePadIdx := 0; logs := []; padModels := [pad_F_over_G];
     perfNow := plainPerf chord arp_up dir_up 20 90; shiftNow := 0;
     synthMade := false; audioReady := false; transportStarted := false;
     transport := ∅; nextId := 0; synthLog := []; randomTape := [] |}.

Definition hold_F_over_G : HoldState :=
  {| h_notes := ["G3"; "A4"; "C5"; "F5"]; scheduleIds := [0; 1; 2; 3]%nat |}.

(** *** Presses that wait at their [await] *)

(** [startHoldByIndex] reads its guard when it is called and sets up its
    hold only after [await ensureAudioReady()]: other presses, releases,
    stop-alls and callbacks can run in between.  [awaiting] holds the
    presses that have passed their guard and wait, each with the pad it
    read.  What a press does once it goes on ([startHoldResume]) runs with
    no event in between: the steps of [ensureAudioReady] after its own
    [await] only set what is set already when they are run twice. *)
Record Sys := {
  page : Page;
  awaiting : list (nat * PadModel);
}.

Inductive Event :=
  | PressE (idx : nat)
  | ResumeE (k : nat)
  | ReleaseE (idx : nat)
  | StopAllE
  | FireE (id : nat).

(** [PressE idx]: [startHoldByIndex(idx)] is called and runs to its
    [await]; [ResumeE k]: the press at place [k] of those that wait goes
    on. *)
Definition stepSys (s : Sys) (e : Event) : Sys :=
  match e with
  | PressE idx =>
      match startHoldBegin idx (page s) with
      | (st', None) => {| page := st'; awaiting := awaiting s |}
      | (st', Some p) => {| page := st'; awaiting := awaiting s ++ [(idx, p)] |}
      end
  | ResumeE k =>
      match awaiting s !! k with
      | None => s
      | Some (idx, p) =>
          {| page := startHoldResume idx p (page s); awaiting := delete k (awaiting s) |}
      end
  | ReleaseE idx => {| page := stopHoldByIndex idx (page s); awaiting := awaiting s |}
  | StopAllE => {| page := stopAll (page s); awaiting := awaiting s |}
  | FireE id => {| page := fire id (page s); awaiting := awaiting s |}
  end.

Definition runSys (evs : list Event) (s : Sys) : Sys := fold_left stepSys evs s.



(** What the hold records keep, however the presses overlap: a hold has one
    callback id for each of its notes, no id twice and none that another
    hold has; every id was handed out by the transport; the highlighted
    pads are the held ones. *)
Record HoldRecords (st : Page) : Prop := {
  rec_pending_old : forall id, is_Some (transport st !! id) -> (id < nextId st)%nat;
  rec_ids : forall idx h,
      activeHold st !! idx = Some h ->
      NoDup (scheduleIds h)
      /\ (forall id, id ∈ scheduleIds h -> (id < nextId st)%nat)
      /\ length (scheduleIds h) = length (h_notes h);
  rec_one_owner : forall idx1 idx2 h1 h2 id,
      activeHold st !! idx1 = Some h1 ->
      activeHold st !! idx2 = Some h2 ->
      id ∈ scheduleIds h1 -> id ∈ scheduleIds h2 -> idx1 = idx2;
  rec_viz : dom (holdMidis st) = dom (activeHold st);
}.

Definition sys0 : Sys := {| page := page0; awaiting := [] |}.

(** ** Predicates of the further statements *)

(** No voice is asked away: every flag is off, or there are no flags. *)
Definition noOmission (o : option OmitFlags) : Prop :=
  forall deg, omitOk deg o = true.

(** [pc] is a pitch class of the parsed chord: its tonic, one of its notes,
    or its slash bass. *)
Definition chordTone (p : Parsed) (pc : string) : Prop :=
  pc = tonic p \/ In pc (notes p) \/ slashBass p = Some pc.

(** [m] is a whole number of octaves from where the note numbering puts a
    pitch class of the chord. *)
Definition octavesFromChord (midiFrom : string -> Z -> Z) (p : Parsed) (m : Z) : Prop :=
  exists pc oct, chordTone p pc /\ (m - midiFrom pc oct) mod 12 = 0.

(** A note name as Tone and tonal write it: a letter, at most one
    accidental, and the digits of an octave, if any.  [noteName s pc] says
    that [s] is such a name and [pc] its letter and accidental. *)
Definition LETTERS : list string := ["C"; "D"; "E"; "F"; "G"; "A"; "B"].
Definition ACCIDENTALS : list string := [""; "#"; "b"].

Fixpoint allDigits (s : string) : bool :=
  match s with
  | EmptyString => true
  | String c s' => in_range 48 57 c && allDigits s'
  end.

Definition noteName (s pc : string) : Prop :=
  exists l a d, In l LETTERS /\ In a ACCIDENTALS /\ allDigits d = true
                /\ pc = l +:+ a /\ s = pc +:+ d.

(** A separator of the chord text: white space or a comma. *)
Definition is_sep (c : ascii) : bool := is_space c || Ascii.eqb c ","%char.

(** [tokens.join(sep)] *)
Fixpoint joinWith (sep : string) (tokens : list string) : string :=
  match tokens with
  | [] => ""
  | [t] => t
  | t :: tokens' => t +:+ sep +:+ joinWith sep tokens'
  end.

(** The white space of JavaScript beyond ASCII, which [trim] and the
    class [\s] take too, as UTF-8: U+00A0, U+1680, U+2000 to U+200A,
    U+2028, U+2029, U+202F, U+205F, U+3000 and U+FEFF.  The model of the
    strings knows the ASCII white space only; [noUnicodeSpace s] says that
    none of the others stands in [s]. *)
Definition utf8 (bytes : list N) : string := string_of_list_ascii (map ascii_of_N bytes).

Definition UNICODE_SPACES : list string :=
  [utf8 [194; 160]; utf8 [225; 154; 128];
   utf8 [226; 128; 128]; utf8 [226; 128; 129]; utf8 [226; 128; 130]; utf8 [226; 128; 131];
   utf8 [226; 128; 132]; utf8 [226; 128; 133]; utf8 [226; 128; 134]; utf8 [226; 128; 135];
   utf8 [226; 128; 136]; utf8 [226; 128; 137]; utf8 [226; 128; 138];
   utf8 [226; 128; 168]; utf8 [226; 128; 169]; utf8 [226; 128; 175];
   utf8 [226; 129; 159]; utf8 [227; 128; 128]; utf8 [239; 187; 191]]%N.

Definition noUnicodeSpace (s : string) : Prop :=
  Forall (fun w => includes w s = false) UNICODE_SPACES.

(** A chord symbol as it stands in the chord text: not empty, and with no
    white space or comma in it. *)
Definition isToken (s : string) : Prop :=
  s <> "" /\ Forall (fun c => is_sep c = false) (list_ascii_of_string s).

(** The state in which the degree search starts. *)
Definition degreeStart : Best := {| bestIdx := 0; bestDelta := 0; bestScore := 999 |}.

(** ** The highlighted pitches ([app/dev/page.tsx]) *)

(** [u.add(m)] on a [Set]: a value that is in already is not added again,
    and the values stay in the order of their first arrival. *)
Definition setAdd {A} `{EqDecision A} (u : list A) (m : A) : list A :=
  if decide (m ∈ u) then u else u ++ [m].

(** [Object.values(holdMidisRef.current)]: the values, by ascending key. *)
Fixpoint insertKey (x : nat * list Z) (l : list (nat * list Z)) : list (nat * list Z) :=
  match l with
  | [] => [x]
  | y :: l' => if (fst x <=? fst y)%nat then x :: l else y :: insertKey x l'
  end.

Fixpoint sortKeys (l : list (nat * list Z)) : list (nat * list Z) :=
  match l with
  | [] => []
  | x :: l' => insertKey x (sortKeys l')
  end.

Definition holdValues (m : gmap nat (list Z)) : list (list Z) :=
  map snd (sortKeys (map_to_list m)).

(** The list that the animation frame of [requestSyncActiveMidis] hands to
    [setActiveMidis]. *)
Definition syncActiveMidis (st : Page) : list Z :=
  let u := fold_left (fun u arr => fold_left setAdd arr u) (holdValues (holdMidis st)) [] in
  let u := fold_left setAdd (oneShotMidis st) u in
  sortZ u.


(** ** The keyboard ([app/PianoKeyboard.tsx]) *)

(** [((midi % 12) + 12) % 12] *)
Definition mod12 (midi : Z) : Z := Z.rem (Z.rem midi 12 + 12) 12.

Definition WHITE_MOD12 : list Z := [0; 2; 4; 5; 7; 9; 11].
Definition BLACK_MOD12 : list Z := [1; 3; 6; 8; 10].

(** [set.has(x)] *)
Definition has (set : list Z) (x : Z) : bool := existsb (Z.eqb x) set.

Definition isWhite (midi : Z) : bool := has WHITE_MOD12 (mod12 midi).
Definition isBlack (midi : Z) : bool := has BLACK_MOD12 (mod12 midi).

Record KeyModel := {
  k_midi : Z;
  k_whiteIndex : Z;
  k_isWhite : bool;
  k_mod12 : Z;
}.

(** The loop [for (let m = minMidi; m <= maxMidi; m++)], with the count of
    the keys that are left to make. *)
Fixpoint keysLoop (left : nat) (m : Z) (whiteCount : Z) : list KeyModel :=
  match left with
  | O => []
  | S left' =>
      let w := isWhite m in
      {| k_midi := m;
         k_whiteIndex := if w then whiteCount else whiteCount - 1;
         k_isWhite := w;
         k_mod12 := mod12 m |}
      :: keysLoop left' (m + 1) (if w then whiteCount + 1 else whiteCount)
  end.

Definition keys (minMidi maxMidi : Z) : list KeyModel :=
  keysLoop (Z.to_nat (maxMidi - minMidi + 1)) minMidi 0.

Definition totalWhite (ks : list KeyModel) : nat := length (filter k_isWhite ks).

(** ** Pitch-class spelling and chord candidates ([lib/chordSuggest.ts]) *)

Definition SHARP_TO_FLAT (pc : string) : option string :=
  if String.eqb pc "C#" then Some "Db"
  else if String.eqb pc "D#" then Some "Eb"
  else if String.eqb pc "F#" then Some "Gb"
  else if String.eqb pc "G#" then Some "Ab"
  else if String.eqb pc "A#" then Some "Bb"
  else if String.eqb pc "B#" then Some "C"
  else if String.eqb pc "E#" then Some "F"
  else None.

Definition FLAT_NORMALIZE (pc : string) : option string :=
  if String.eqb pc "Cb" then Some "B"
  else if String.eqb pc "Fb" then Some "E"
  else None.

(** The names under which every object literal finds a member that it
    inherits rather than owns. *)
Definition OBJECT_PROTOTYPE_KEYS : list string :=
  ["__proto__"; "__defineGetter__"; "__defineSetter__"; "__lookupGetter__";
   "__lookupSetter__"; "constructor"; "hasOwnProperty"; "isPrototypeOf";
   "propertyIsEnumerable"; "toLocaleString"; "toString"; "valueOf"].

(** What a table read can hand back: a string of the table, or the
    inherited member of that name (an object or a function). *)
Inductive Value :=
  | Str (s : string)
  | Inherited (key : string).

#[global] Instance Value_eq_dec : EqDecision Value.
Proof. solve_decision. Defined.

(** [table[key]]; [None] is [undefined]. *)
Definition tableGet (table : string -> option string) (key : string) : option Value :=
  match table key with
  | Some s => Some (Str s)
  | None => if existsb (String.eqb key) OBJECT_PROTOTYPE_KEYS
            then Some (Inherited key) else None
  end.

(** Truthiness: of the values here only the empty string and [undefined]
    are falsy. *)
Definition truthy (v : Value) : bool :=
  match v with
  | Str s => negb (String.eqb s "")
  | Inherited _ => true
  end.

Definition truthyAt (o : option Value) : bool :=
  match o with
  | Some v => truthy v
  | None => false
  end.

(** [s.replace(/[0-9]/g, "")] *)
Fixpoint removeDigits (s : string) : string :=
  match s with
  | EmptyString => EmptyString
  | String c s' => if in_range 48 57 c then removeDigits s' else String c (removeDigits s')
  end.

Definition toPitchClass (noteOrPc : string) : string :=
  let s := removeDigits (trim noteOrPc) in
  let head := toUpperCase (charAt0 s) in
  let tail := slice1 s in
  head +:+ tail.

Definition toFlatPc (noteOrPc : string) : Value :=
  let pc := toPitchClass noteOrPc in
  match tableGet FLAT_NORMALIZE pc with
  | Some v => if truthy v then v else
      match tableGet SHARP_TO_FLAT pc with
      | Some v' => if truthy v' then v' else Str pc
      | None => Str pc
      end
  | None =>
      match tableGet SHARP_TO_FLAT pc with
      | Some v' => if truthy v' then v' else Str pc
      | None => Str pc
      end
  end.

Inductive Tag := tag_triad | tag_7th | tag_sus | tag_color | tag_alt.

Record ChordCandidate := { symbol : string; tag : Tag }.

(** The filter with the [seen] set: a candidate whose symbol came before is
    left out. *)
Fixpoint filterSeen (seen : list string) (l : list ChordCandidate) : list ChordCandidate :=
  match l with
  | [] => []
  | x :: l' =>
      if existsb (String.eqb (symbol x)) seen then filterSeen seen l'
      else x :: filterSeen (seen ++ [symbol x]) l'
  end.

Definition suggestChordsFromPc (rootPc : string) : list ChordCandidate :=
  let r := rootPc in
  let list :=
    [ {| symbol := r; tag := tag_triad |};
      {| symbol := r +:+ "m"; tag := tag_triad |};
      {| symbol := r +:+ "7"; tag := tag_7th |};
      {| symbol := r +:+ "maj7"; tag := tag_7th |};
      {| symbol := r +:+ "m7"; tag := tag_7th |};
      {| symbol := r +:+ "sus4"; tag := tag_sus |};
      {| symbol := r +:+ "sus2"; tag := tag_sus |};
      {| symbol := r +:+ "dim"; tag := tag_alt |};
      {| symbol := r +:+ "m7b5"; tag := tag_alt |};
      {| symbol := r +:+ "aug"; tag := tag_alt |};
      {| symbol := r +:+ "add9"; tag := tag_color |} ] in
  filterSeen [] list.

(** ** The guide pitch classes ([lib/chordGuide.ts]) *)

(** [s.split("/")[0]] *)
Fixpoint beforeSlash (s : string) : string :=
  match s with
  | EmptyString => EmptyString
  | String c s' => if Ascii.eqb c "/"%char then EmptyString else String c (beforeSlash s')
  end.

Definition coreSymbol (symbol : string) : string := trim (beforeSlash (trim symbol)).

(** [Array.from(new Set(list.filter(Boolean)))]; an entry of the list is
    [None] where the array read was out of range. *)
Definition uniq (items : list (option Value)) : list Value :=
  fold_left setAdd (omap (fun o => if truthyAt o then o else None) items) [].

Record ChordGuideOptions := { add9 : bool; add11 : bool; add13 : bool }.

Record ChordGuide := { chordPcs : list Value; extPcs : list Value }.

(** [if (flag && notes[i]) ext.push(notes[i])] *)
Definition pushNote (flag : bool) (o : option Value) : list (option Value) :=
  if flag && truthyAt o then [o] else [].

Section Guide.

Variable Chord_get : string -> TonalChord.

Definition getChordGuidePcs (chordSymbol : string) (opts : ChordGuideOptions) : ChordGuide :=
  let c := Chord_get (coreSymbol chordSymbol) in
  if negb (hasTonic c) then {| chordPcs := []; extPcs := [] |}
  else
    let notes := map toFlatPc (ct_notes c) in
    let chordPcs := uniq [notes !! 0%nat; notes !! 1%nat; notes !! 2%nat; notes !! 3%nat] in
    let ext := pushNote (add9 opts) (notes !! 4%nat)
               ++ pushNote (add11 opts) (notes !! 5%nat)
               ++ pushNote (add13 opts) (notes !! 6%nat) in
    let extPcs := filter (fun pc => negb (bool_decide (pc ∈ chordPcs))) (uniq ext) in
    {| chordPcs := chordPcs; extPcs := extPcs |}.

End Guide.

(** ** The pads of the page ([app/dev/page.tsx]) *)

Definition MAX_PADS : nat := 16.

(** [text.split(/[\s,]+/)]: the pieces between the runs of separators; a
    run at either end leaves an empty piece there. *)
Fixpoint splitSeparators (text : string) : list string :=
  match text with
  | EmptyString => [EmptyString]
  | String c text' =>
      let pieces := splitSeparators text' in
      if is_sep c then
        match text' with
        | String d _ => if is_sep d then pieces else EmptyString :: pieces
        | EmptyString => EmptyString :: pieces
        end
      else
        match pieces with
        | piece :: pieces' => String c piece :: pieces'
        | [] => [String c EmptyString]
        end
  end.

Definition chordSymbols (text : string) : list string :=
  let items := filter (fun s => negb (String.eqb s "")) (map trim (splitSeparators text)) in
  take MAX_PADS items.

Definition emptyOmit : OmitFlags :=
  {| omit_root := false; omit_third := false; omit_fifth := false; omit_seventh := false |}.

Section Pads.

Variable Chord_get : string -> TonalChord.
Variable midiFrom : string -> Z -> Z.
Variable toNote : Z -> string.

(** One pad of [padModels], with the omit flags it carries. *)
Definition padModel (chordSymbols : list string) (padPresets : list PadVoicingPreset)
    (padOmits : list OmitFlags) (centerOctave shift : Z) (analysisKey : KeySig)
    (i : nat) : PadModel * OmitFlags :=
  let chord := default "" (chordSymbols !! i) in
  let preset := default PAD_TRIAD_BASS_35R (padPresets !! i) in
  let omit := default emptyOmit (padOmits !! i) in
  if String.eqb chord "" then
    ({| pm_idx := i; pm_chord := ""; pm_roman := ""; pm_preset := preset;
        pm_notes := []; pm_midis := []; pm_ok := false |}, omit)
  else
    let v := buildPadVoicing Chord_get midiFrom toNote chord centerOctave preset shift
               {| omit := Some omit |} in
    let roman := romanizeChord Chord_get chord analysisKey in
    ({| pm_idx := i; pm_chord := chord; pm_roman := roman; pm_preset := preset;
        pm_notes := default [] (vnotes <$> v);
        pm_midis := default [] (midis <$> v);
        pm_ok := bool_decide (is_Some v) |}, omit).

(** The memo [padModels]: one pad for each of the sixteen places. *)
Definition padModelsOf (chordSymbols : list string) (padPresets : list PadVoicingPreset)
    (padOmits : list OmitFlags) (centerOctave shift : Z) (analysisKey : KeySig)
  : list (PadModel * OmitFlags) :=
  map (padModel chordSymbols padPresets padOmits centerOctave shift analysisKey)
      (seq 0 MAX_PADS).

End Pads.

(** * Properties *)

(** ** The string and pitch-class functions on examples *)

Example pcToSemitone_Ab : pcToSemitone "Ab" = 8.
Proof. reflexivity. Qed.

Example pcToSemitone_flat_sign : pcToSemitone " e♭ " = 3.
Proof. reflexivity. Qed.

Example pcToSemitone_Cb : pcToSemitone "Cb" = 11.
Proof. reflexivity. Qed.

Example signedSemitoneDiff_C_E : signedSemitoneDiff "C" "E" = 4.
Proof. reflexivity. Qed.

Example signedSemitoneDiff_C_Ab : signedSemitoneDiff "C" "Ab" = -4.
Proof. reflexivity. Qed.

Example signedSemitoneDiff_C_Gb : signedSemitoneDiff "C" "Gb" = -6.
Proof. reflexivity. Qed.

Example splitSlash_F_G : splitSlash "F/G" = ("F", Some "G").
Proof. reflexivity. Qed.

Example splitSlash_spaces : splitSlash " Dbm7 / ab " = ("Dbm7", Some "Ab").
Proof. reflexivity. Qed.

Example splitSlash_not_a_bass : splitSlash "Cm/ma7" = ("Cm/ma7", None).
Proof. reflexivity. Qed.

Example splitSlash_last_slash : splitSlash "C6/9/E" = ("C6/9", Some "E").
Proof. reflexivity. Qed.

(** ** Sorting *)

Lemma insertZ_perm x l : Permutation (insertZ x l) (x :: l).
Proof.
  induction l as [|y l IH]; simpl; [reflexivity|].
  destruct (x <=? y); [reflexivity|].
  rewrite IH. apply perm_swap.
Qed.

Lemma sortZ_perm l : Permutation (sortZ l) l.
Proof.
  induction l as [|x l IH]; simpl; [reflexivity|].
  rewrite insertZ_perm. now constructor.
Qed.

Lemma sortZ_length l : length (sortZ l) = length l.
Proof. apply Permutation_length, sortZ_perm. Qed.

Lemma insertZ_hdrel a x l : a <= x -> HdRel Z.le a l -> HdRel Z.le a (insertZ x l).
Proof.
  intros Hax Hl. destruct l as [|y l]; simpl; [now constructor|].
  destruct (x <=? y); constructor; [assumption|].
  now inversion Hl.
Qed.

Lemma insertZ_sorted x l : Sorted Z.le l -> Sorted Z.le (insertZ x l).
Proof.
  induction 1 as [|y l Hs IH Hhd]; simpl; [repeat constructor|].
  destruct (Z.leb_spec x y).
  - constructor; [now constructor|now constructor].
  - constructor; [assumption|]. apply insertZ_hdrel; [lia|assumption].
Qed.

Lemma sortZ_sorted l : Sorted Z.le (sortZ l).
Proof.
  induction l as [|x l IH]; simpl; [constructor|]. now apply insertZ_sorted.
Qed.

Lemma insertZ_id x l : HdRel Z.le x l -> insertZ x l = x :: l.
Proof.
  destruct 1 as [|y l Hxy]; simpl; [reflexivity|].
  destruct (Z.leb_spec x y); [reflexivity|lia].
Qed.

Lemma sortZ_id l : Sorted Z.le l -> sortZ l = l.
Proof.
  induction 1 as [|x l Hs IH Hhd]; simpl; [reflexivity|].
  rewrite IH. now apply insertZ_id.
Qed.

Lemma Sorted_le_strong l : Sorted Z.le l -> StronglySorted Z.le l.
Proof. apply Sorted_StronglySorted. intros x y z. apply Z.le_trans. Qed.

Lemma Sorted_head_least b rest x : Sorted Z.le (b :: rest) -> In x rest -> b <= x.
Proof.
  intros Hs Hin. apply Sorted_le_strong in Hs.
  apply StronglySorted_inv in Hs as [_ Hall].
  rewrite Forall_forall in Hall. now apply Hall, list_elem_of_In.
Qed.

Lemma Sorted_map_add d l : Sorted Z.le l -> Sorted Z.le (map (fun m => m + d) l).
Proof.
  induction 1 as [|x l Hs IH Hhd]; simpl; constructor; [assumption|].
  destruct Hhd; simpl; constructor. lia.
Qed.

(** Raising everything but the first of an ascending list keeps it
    ascending. *)
Lemma Sorted_raise_tail d b rest :
  0 <= d -> Sorted Z.le (b :: rest) -> Sorted Z.le (b :: map (fun m => m + d) rest).
Proof.
  intros Hd Hs. inversion Hs as [|? ? Hrest Hhd]; subst.
  constructor; [now apply Sorted_map_add|].
  destruct Hhd; simpl; constructor. lia.
Qed.

(** ** Minimum and maximum *)

Lemma fold_min_le_init l x : fold_left Z.min l x <= x.
Proof.
  revert x. induction l as [|y l IH]; intros x; simpl; [lia|].
  specialize (IH (Z.min x y)). lia.
Qed.

Lemma fold_min_le_elem l x y : In y l -> fold_left Z.min l x <= y.
Proof.
  revert x. induction l as [|z l IH]; intros x; simpl; [tauto|].
  intros [->|Hin]; [|now apply IH].
  pose proof (fold_min_le_init l (Z.min x y)). lia.
Qed.

Lemma fold_min_in l x : fold_left Z.min l x = x \/ In (fold_left Z.min l x) l.
Proof.
  revert x. induction l as [|y l IH]; intros x; simpl; [now left|].
  destruct (IH (Z.min x y)) as [H|H]; [|now right; right].
  rewrite H. destruct (Z.min_spec x y) as [[_ ->]|[_ ->]]; [now left|now right; left].
Qed.

(** [Math_min] is the least element. *)
Lemma Math_min_spec l m :
  Math_min l = Some m <-> In m l /\ forall y, In y l -> m <= y.
Proof.
  destruct l as [|x l]; simpl.
  - split; [discriminate|tauto].
  - split.
    + intros [= <-]. split.
      * destruct (fold_min_in l x) as [->|H]; [now left|now right].
      * intros y [<-|Hy]; [apply fold_min_le_init|now apply fold_min_le_elem].
    + intros [Hin Hle]. f_equal.
      assert (fold_left Z.min l x <= m).
      { destruct Hin as [<-|Hin]; [apply fold_min_le_init|now apply fold_min_le_elem]. }
      assert (m <= fold_left Z.min l x).
      { apply Hle. destruct (fold_min_in l x) as [->|H']; [now left|now right]. }
      lia.
Qed.

Lemma Math_min_is_Some l : l <> [] -> exists m, Math_min l = Some m.
Proof. destruct l; [congruence|]. simpl. eauto. Qed.

Lemma Math_min_perm l l' : Permutation l l' -> Math_min l = Math_min l'.
Proof.
  intros HP. destruct l as [|x l].
  - apply Permutation_nil in HP. now subst.
  - destruct (Math_min_is_Some (x :: l)) as [m Hm]; [discriminate|].
    rewrite Hm. symmetry. apply Math_min_spec.
    apply Math_min_spec in Hm as [Hin Hle]. split.
    + now apply (Permutation_in _ HP).
    + intros y Hy. apply Hle. now apply (Permutation_in _ (Permutation_sym HP)).
Qed.

Lemma Math_min_sorted b rest : Sorted Z.le (b :: rest) -> Math_min (b :: rest) = Some b.
Proof.
  intros Hs. apply Math_min_spec. split; [now left|].
  intros y [<-|Hy]; [lia|]. now apply (Sorted_head_least b rest).
Qed.

(** ** Crowding, drops and shifts *)

(** [12 * Math.ceil(x / 12)] is the least multiple of 12 that is [x] or
    more. *)
Lemma ceilDiv_12_least x :
  let d := 12 * ceilDiv x 12 in
  x <= d /\ d mod 12 = 0 /\ forall d', d' mod 12 = 0 -> x <= d' -> d <= d'.
Proof.
  unfold ceilDiv. cbv zeta. split; [|split].
  - Z.div_mod_to_equations. lia.
  - rewrite Z.mul_comm. apply Z.mod_mul. lia.
  - intros d' Hd' Hx. Z.div_mod_to_equations. lia.
Qed.

Lemma imap_raise_tail d b rest :
  imap (fun (i : nat) m => if (i =? 0)%nat then m else m + d) (b :: rest)
  = b :: map (fun m => m + d) rest.
Proof.
  rewrite imap_cons. simpl. f_equal.
  rewrite <- (imap_const (fun m => m + d)). apply imap_ext. now intros.
Qed.

Lemma clampLowMud_case l minTop : ClampCase l minTop (clampLowMud l minTop).
Proof.
  unfold clampLowMud.
  destruct (Nat.ltb_spec (length l) 2) as [Hlen|Hlen]; [now constructor|].
  destruct (Math_min (sliceLast 3 (sortZ l))) as [t|] eqn:Ht;
    [|apply clamp_clear; [assumption|intros t; rewrite Ht; discriminate]].
  destruct (Z.geb_spec t minTop) as [Hge|Hlt].
  { apply clamp_clear; [assumption|]. intros t'. rewrite Ht. intros [= <-]. lia. }
  destruct (sortZ l) as [|b rest] eqn:Hs.
  - apply (f_equal (@length Z)) in Hs. rewrite sortZ_length in Hs. simpl in Hs. lia.
  - rewrite imap_raise_tail. rewrite <- Hs in Ht. now apply clamp_raise.
Qed.

Lemma clampLowMud_sorted l minTop : Sorted Z.le (clampLowMud l minTop).
Proof.
  destruct (clampLowMud_case l minTop) as [Hlen|Hlen _|b rest t Hs Ht Hlt].
  - destruct l as [|x [|y l]]; simpl in Hlen; try lia; repeat constructor.
  - apply sortZ_sorted.
  - apply Sorted_raise_tail.
    + pose proof (ceilDiv_12_least (minTop - t)) as [H _]. lia.
    + rewrite <- Hs. apply sortZ_sorted.
Qed.

Lemma clampLowMud_length l minTop : length (clampLowMud l minTop) = length l.
Proof.
  destruct (clampLowMud_case l minTop) as [Hlen|Hlen _|b rest t Hs Ht Hlt].
  - reflexivity.
  - apply sortZ_length.
  - simpl. rewrite length_map. rewrite <- (sortZ_length l), Hs. reflexivity.
Qed.

Lemma applyShift_map l shift : applyShift l shift = map (fun m => m + shift) l.
Proof.
  unfold applyShift. destruct (Z.eqb_spec shift 0) as [->|_]; [|reflexivity].
  induction l as [|x l IH]; simpl; [reflexivity|]. rewrite <- IH. f_equal. lia.
Qed.

Lemma applyShift_length l shift : length (applyShift l shift) = length l.
Proof. rewrite applyShift_map. apply length_map. Qed.

Lemma raiseOctaves_clears fuel m minMidi :
  (Z.to_nat (minMidi - m) <= fuel)%nat -> minMidi <= raiseOctaves fuel m minMidi.
Proof.
  revert m. induction fuel as [|fuel IH]; intros m Hfuel; simpl.
  - lia.
  - destruct (Z.ltb_spec m minMidi); [|lia]. apply IH. lia.
Qed.

Section VoicingFacts.

Variable Chord_get : string -> TonalChord.
Variable midiFrom : string -> Z -> Z.
Variable toNote : Z -> string.

(** The [while] loop of [nearestAbove] ends because its test fails, not
    because the fuel of the model runs out. *)
Lemma nearestAbove_clears pc minMidi anchorOct :
  minMidi <= nearestAbove midiFrom pc minMidi anchorOct.
Proof. unfold nearestAbove. now apply raiseOctaves_clears. Qed.

Lemma parseChordSymbol_None input :
  parseChordSymbol Chord_get input = None
  <-> hasTonic (Chord_get (fst (splitSlash input))) = false.
Proof.
  unfold parseChordSymbol. destruct (splitSlash input) as [c slash]. simpl.
  destruct (hasTonic (Chord_get c)); simpl; split; congruence.
Qed.

Lemma withFallback_nonempty p c l : withFallback midiFrom p c l <> [].
Proof. destruct l; simpl; congruence. Qed.

Lemma presetMidis_sorted p c pr o : Sorted Z.le (presetMidis midiFrom p c pr o).
Proof.
  destruct pr; simpl; unfold triadPreset, dropPreset, placedPreset;
    repeat match goal with |- context [let '(_, _) := ?x in _] => destruct x end;
    apply clampLowMud_sorted.
Qed.

End VoicingFacts.

(** ** Claims on the pitch-class utilities *)

Lemma pcToSemitone_range pc : 0 <= pcToSemitone pc < 12.
Proof.
  unfold pcToSemitone. cbv zeta.
  set (n := default 0 (LETTER_BASE _) + _). clearbody n.
  destruct (Z.ltb_spec (Z.rem n 12) 0); Z.quot_rem_to_equations; lia.
Qed.

(** C8.  For all pitch-class strings [a] and [b], [signedSemitoneDiff a b]
    lies between -6 and +5; it is the distance
    [(semitoneOf b - semitoneOf a) mod 12], less 12 when that distance is
    more than 5; and [signedSemitoneDiff a a] is 0. *)
Theorem signedSemitoneDiff_centered (a b : string) :
  -6 <= signedSemitoneDiff a b <= 5
  /\ signedSemitoneDiff a b =
       (let raw := (pcToSemitone b - pcToSemitone a) mod 12 in
        if raw >? 5 then raw - 12 else raw)
  /\ signedSemitoneDiff a a = 0.
Proof.
  unfold signedSemitoneDiff. cbv zeta.
  pose proof (pcToSemitone_range a) as Ha.
  pose proof (pcToSemitone_range b) as Hb.
  set (x := pcToSemitone a) in *. set (y := pcToSemitone b) in *.
  clearbody x y.
  assert (Hraw : Z.rem (y - x + 12) 12 = (y - x) mod 12).
  { rewrite Z.rem_mod_nonneg by lia.
    replace (y - x + 12) with (y - x + 1 * 12) by lia. apply Z.mod_add. lia. }
  rewrite Hraw.
  pose proof (Z.mod_pos_bound (y - x) 12 ltac:(lia)) as Hr.
  set (raw := (y - x) mod 12) in *. clearbody raw.
  repeat split.
  - Z.quot_rem_to_equations. lia.
  - Z.quot_rem_to_equations. lia.
  - destruct (Z.gtb_spec raw 5); Z.quot_rem_to_equations; lia.
  - replace (x - x + 12) with 12 by lia. reflexivity.
Qed.

(** ** Claims on the drop reordering and the crowding resolution *)

(** C5.  On a strictly ascending closed stack [c0 < c1 < c2 < c3], drop-2
    returns the pitches [c0], [c1], [c2 - 12], [c3] (the same set, and the
    same pitches counted with repeats), in ascending order; and a list whose
    length is not 4 comes back unchanged, whatever the drop kind.  (The
    result is sorted again, so the order of the stack is not used.) *)
Theorem applyDrop_drop2_and_short :
  (forall c0 c1 c2 c3 : Z,
      c0 < c1 -> c1 < c2 -> c2 < c3 ->
      let out := applyDrop [c0; c1; c2; c3] drop2 in
      (forall x, In x out <-> In x [c0; c1; c2 - 12; c3])
      /\ Permutation out [c0; c1; c2 - 12; c3]
      /\ Sorted Z.le out)
  /\ (forall (l : list Z) (kind : DropKind),
         length l <> 4%nat -> applyDrop l kind = l).
Proof.
  split.
  - intros c0 c1 c2 c3 _ _ _ out. subst out. unfold applyDrop.
    pose proof (sortZ_perm [c0; c1; c2 - 12; c3]) as HP.
    split; [|split].
    + intros x. split; intros Hin.
      * now apply (Permutation_in _ HP).
      * now apply (Permutation_in _ (Permutation_sym HP)).
    + exact HP.
    + apply sortZ_sorted.
  - intros l kind Hlen.
    destruct l as [|v1 [|v2 [|v3 [|v4 [|v5 l]]]]]; try reflexivity.
    simpl in Hlen. congruence.
Qed.

Lemma applyDrop_drop2_and_short_witness :
  Permutation (applyDrop [60; 64; 67; 71] drop2) [60; 64; 67 - 12; 71]
  /\ applyDrop [60; 64; 67; 71] drop2 = [55; 60; 64; 71]
  /\ applyDrop [60; 64; 67] drop3 = [60; 64; 67].
Proof.
  destruct applyDrop_drop2_and_short as [Hdrop Hshort].
  destruct (Hdrop 60 64 67 71) as (_ & HP & _); [lia|lia|lia|].
  split; [exact HP|]. split; [reflexivity|].
  apply Hshort. simpl. lia.
Defined.

(** C6.  [clampLowMud] keeps the lowest pitch: the minimum of its output is
    the minimum of its input.  And when the least of the three highest
    pitches is under the floor, the output is the ascending input with its
    first (lowest) pitch as it was and every other pitch raised by [delta],
    the least multiple of 12 that lifts that least-of-three to the floor. *)
Theorem clampLowMud_keeps_bass (l : list Z) (minTop : Z) :
  Math_min (clampLowMud l minTop) = Math_min l
  /\ (forall t,
         Math_min (sliceLast 3 (sortZ l)) = Some t -> t < minTop ->
         exists delta b rest,
           (minTop <= t + delta
            /\ delta mod 12 = 0
            /\ forall d', d' mod 12 = 0 -> minTop <= t + d' -> delta <= d')
           /\ sortZ l = b :: rest
           /\ clampLowMud l minTop = b :: map (fun m => m + delta) rest).
Proof.
  split.
  - destruct (clampLowMud_case l minTop) as [Hlen|Hlen _|b rest t Hs Ht Hlt].
    + reflexivity.
    + apply Math_min_perm, sortZ_perm.
    + pose proof (sortZ_sorted l) as Hsorted. rewrite Hs in Hsorted.
      rewrite <- (Math_min_perm _ _ (sortZ_perm l)), Hs.
      rewrite (Math_min_sorted _ _ Hsorted).
      apply Math_min_sorted, Sorted_raise_tail; [|assumption].
      pose proof (ceilDiv_12_least (minTop - t)) as [H _]. lia.
  - intros t Ht Hlt.
    pose proof (ceilDiv_12_least (minTop - t)) as (Hle & Hmod & Hleast).
    exists (12 * ceilDiv (minTop - t) 12).
    assert (Hdelta : minTop <= t + 12 * ceilDiv (minTop - t) 12
                     /\ (12 * ceilDiv (minTop - t) 12) mod 12 = 0
                     /\ forall d', d' mod 12 = 0 -> minTop <= t + d' ->
                                   12 * ceilDiv (minTop - t) 12 <= d').
    { split; [lia|]. split; [assumption|]. intros d' Hd' Hx. apply Hleast; [assumption|lia]. }
    destruct (clampLowMud_case l minTop) as [Hlen|Hlen Hclear|b rest t' Hs Ht' Hlt'].
    + destruct l as [|x [|y l]]; simpl in Hlen; try lia.
      * discriminate Ht.
      * exists x, []. split; [exact Hdelta|]. split; reflexivity.
    + specialize (Hclear t Ht). lia.
    + rewrite Ht in Ht'. injection Ht' as <-.
      exists b, rest. split; [exact Hdelta|]. split; [assumption|reflexivity].
Qed.

Example clampLowMud_raises_upper_voices :
  clampLowMud [57; 43; 52; 50] 55 = [43; 62; 64; 69].
Proof. reflexivity. Qed.

Lemma clampLowMud_keeps_bass_witness :
  Math_min (sliceLast 3 (sortZ [57; 43; 52; 50])) = Some 50
  /\ 50 < 55
  /\ Math_min (clampLowMud [57; 43; 52; 50] 55) = Math_min [57; 43; 52; 50]
  /\ exists delta b rest,
       (55 <= 50 + delta
        /\ delta mod 12 = 0
        /\ forall d', d' mod 12 = 0 -> 55 <= 50 + d' -> delta <= d')
       /\ sortZ [57; 43; 52; 50] = b :: rest
       /\ clampLowMud [57; 43; 52; 50] 55 = b :: map (fun m => m + delta) rest.
Proof.
  split; [reflexivity|]. split; [lia|].
  destruct (clampLowMud_keeps_bass [57; 43; 52; 50] 55) as [Hmin Hraise].
  split; [exact Hmin|].
  apply Hraise; [reflexivity|lia].
Defined.

(** ** Claims on the voicing builder *)

Section BuilderClaims.

Variable Chord_get : string -> TonalChord.
Variable midiFrom : string -> Z -> Z.
Variable toNote : Z -> string.

Local Abbreviation voicing := (buildPadVoicing Chord_get midiFrom toNote).
Local Abbreviation parsed := (parseChordSymbol Chord_get).
Local Abbreviation placed := (presetMidis midiFrom).

(** C1, as amended.  [buildPadVoicing] returns nothing exactly when the
    lookup resolves no tonic for the core of the symbol.  For a symbol that
    parses it returns a result whose [midis] is not empty and whose notes
    are as many as its [midis]; when the preset yields no pitch, [midis] is
    the single pitch of the slash bass, or else the root, in octave
    [max 1 (centerOctave - 1)] (shifted like any pitch): one octave below
    the centre whenever the centre octave is 2 or more. *)
Theorem buildPadVoicing_defined (sym : string) (centerOctave : Z)
    (pr : PadVoicingPreset) (shift : Z) (opts : VoicingOptions) :
  (voicing sym centerOctave pr shift opts = None
   <-> hasTonic (Chord_get (fst (splitSlash sym))) = false)
  /\ (forall p,
         parsed sym = Some p ->
         exists r,
           voicing sym centerOctave pr shift opts = Some r
           /\ midis r <> []
           /\ length (vnotes r) = length (midis r)
           /\ (placed p centerOctave pr (omit opts) = [] ->
               midis r = [midiFrom (fallbackPc p) (Z.max 1 (centerOctave - 1)) + shift]
               /\ (2 <= centerOctave ->
                   midis r = [midiFrom (fallbackPc p) (centerOctave - 1) + shift]))).
Proof.
  split.
  - rewrite <- parseChordSymbol_None. unfold buildPadVoicing.
    destruct (parsed sym); split; congruence.
  - intros p Hp. unfold buildPadVoicing. rewrite Hp.
    eexists. split; [reflexivity|]. simpl. split; [|split].
    + intros H. apply (f_equal (@length Z)) in H.
      rewrite applyShift_length in H.
      pose proof (withFallback_nonempty midiFrom p centerOctave
                    (placed p centerOctave pr (omit opts))) as Hne.
      destruct (withFallback _ _ _ _); [congruence|discriminate].
    + apply length_map.
    + intros Hempty. rewrite Hempty. simpl. rewrite applyShift_map. simpl.
      split; [reflexivity|]. intros Hc. now rewrite Z.max_r by lia.
Qed.

(** The [midis] built with a shift are the [midis] built with shift 0,
    each with the shift added; and the call answers with one shift exactly
    when it answers with the other. *)
Lemma buildPadVoicing_shift_equation (sym : string) (centerOctave : Z)
    (pr : PadVoicingPreset) (shift : Z) (opts : VoicingOptions) :
  option_map midis (voicing sym centerOctave pr shift opts)
  = option_map (fun r0 => map (fun m => m + shift) (midis r0))
               (voicing sym centerOctave pr 0 opts).
Proof.
  unfold buildPadVoicing.
  destruct (parsed sym) as [p|]; [|reflexivity].
  simpl. f_equal. rewrite !applyShift_map.
  rewrite map_map. apply map_ext. intros m. lia.
Qed.

(** C2.  Transposition is linear: for a symbol that parses, the call with
    shift 0 and the call with the shift both answer, with one pitch or
    more, and the [midis] built with the shift are the [midis] built with
    shift 0, each with the shift added, in the same places. *)
Theorem buildPadVoicing_shift_linear (sym : string) (centerOctave : Z)
    (pr : PadVoicingPreset) (shift : Z) (opts : VoicingOptions) (p : Parsed) :
  parsed sym = Some p ->
  exists r0 r,
    voicing sym centerOctave pr 0 opts = Some r0
    /\ voicing sym centerOctave pr shift opts = Some r
    /\ midis r0 <> []
    /\ length (midis r) = length (midis r0)
    /\ midis r = map (fun m => m + shift) (midis r0)
    /\ (forall (i : nat) m0, midis r0 !! i = Some m0 -> midis r !! i = Some (m0 + shift)).
Proof.
  intros Hp.
  pose proof (buildPadVoicing_shift_equation sym centerOctave pr shift opts) as Heq.
  unfold buildPadVoicing in *. rewrite Hp in *. cbv zeta in *.
  eexists _, _. split; [reflexivity|]. split; [reflexivity|].
  cbn [midis option_map] in *. injection Heq as Heq.
  assert (Hne : applyShift
                  (withFallback midiFrom p centerOctave
                     (placed p centerOctave pr (omit opts))) 0 <> []).
  { intros H. apply (f_equal (@length Z)) in H. rewrite applyShift_length in H.
    pose proof (withFallback_nonempty midiFrom p centerOctave
                  (placed p centerOctave pr (omit opts))) as Hw.
    destruct (withFallback _ _ _ _); [congruence|discriminate]. }
  split; [exact Hne|]. split; [now rewrite Heq, length_map|]. split; [exact Heq|].
  intros i m0 Hi. rewrite Heq. change (map ?f ?l) with (f <$> l).
  now rewrite list_lookup_fmap, Hi.
Qed.

(** The [midis] of a result are in nondecreasing order, its notes are as
    many as its [midis], and there is one pitch or more. *)
Lemma buildPadVoicing_result_shape (sym : string) (centerOctave : Z)
    (pr : PadVoicingPreset) (shift : Z) (opts : VoicingOptions) (r : VoicingResult) :
  voicing sym centerOctave pr shift opts = Some r ->
  Sorted Z.le (midis r) /\ length (vnotes r) = length (midis r) /\ vnotes r <> [].
Proof.
  unfold buildPadVoicing.
  destruct (parsed sym) as [p|]; [|discriminate].
  intros [= <-]. simpl. split; [|split].
  - rewrite applyShift_map. apply Sorted_map_add.
    pose proof (presetMidis_sorted midiFrom p centerOctave pr (omit opts)) as Hs.
    destruct (placed p centerOctave pr (omit opts)); simpl;
      [repeat constructor|assumption].
  - apply length_map.
  - intros H. apply (f_equal (@length string)) in H.
    rewrite length_map, applyShift_length in H.
    pose proof (withFallback_nonempty midiFrom p centerOctave
                  (placed p centerOctave pr (omit opts))) as Hne.
    destruct (withFallback _ _ _ _); [congruence|discriminate].
Qed.

End BuilderClaims.

(** *** The builder on the two libraries *)

Example build_F_over_G :
  build "F/G" 5 PAD_TRIAD_BASS_35R 0 noOmit
  = Some {| chordSymbol := "F/G"; preset := PAD_TRIAD_BASS_35R;
            midis := [55; 69; 72; 77]; vnotes := ["G3"; "A4"; "C5"; "F5"] |}.
Proof. vm_compute. reflexivity. Qed.

Example build_Cm7_drop2 :
  option_map midis (build "Cm7" 5 DROP2_1357_NO_BASS 0 noOmit) = Some [55; 60; 63; 70].
Proof. vm_compute. reflexivity. Qed.

Example build_Cm7_drop2_up_3 :
  option_map midis (build "Cm7" 5 DROP2_1357_NO_BASS 3 noOmit) = Some [58; 63; 66; 73].
Proof. vm_compute. reflexivity. Qed.

Example build_unknown_symbol : build "H7" 5 SHELL_R37_NO_BASS 0 noOmit = None.
Proof. vm_compute. reflexivity. Qed.

Lemma buildPadVoicing_defined_witness :
  parseChordSymbol Tonal.get "C" = Some parsed_C
  /\ exists r,
       build "C" 4 PAD_TRIAD_BASS_35R 2 (omitFlags true true true false) = Some r
       /\ midis r <> []
       /\ length (vnotes r) = length (midis r)
       /\ (presetMidis Tone.midiFrom parsed_C 4 PAD_TRIAD_BASS_35R
             (omit (omitFlags true true true false)) = [] ->
           midis r = [Tone.midiFrom (fallbackPc parsed_C) (Z.max 1 (4 - 1)) + 2]
           /\ (2 <= 4 -> midis r = [Tone.midiFrom (fallbackPc parsed_C) (4 - 1) + 2])).
Proof.
  split; [reflexivity|].
  apply (buildPadVoicing_defined Tonal.get Tone.midiFrom Tone.toNote
           "C" 4 PAD_TRIAD_BASS_35R 2 (omitFlags true true true false)).
  reflexivity.
Defined.

Lemma buildPadVoicing_shift_linear_witness :
  parseChordSymbol Tonal.get "C" = Some parsed_C
  /\ exists r0 r,
       build "C" 4 DROP2_1357_NO_BASS 0 noOmit = Some r0
       /\ build "C" 4 DROP2_1357_NO_BASS 3 noOmit = Some r
       /\ midis r0 <> []
       /\ length (midis r) = length (midis r0)
       /\ midis r = map (fun m => m + 3) (midis r0)
       /\ (forall (i : nat) m0, midis r0 !! i = Some m0 -> midis r !! i = Some (m0 + 3)).
Proof.
  split; [reflexivity|].
  apply (buildPadVoicing_shift_linear Tonal.get Tone.midiFrom Tone.toNote
           "C" 4 DROP2_1357_NO_BASS 3 noOmit parsed_C).
  reflexivity.
Defined.

(** C1, as the specification words it, fails: with the centre in octave 1
    and the bass, third and fifth omitted, the triad preset yields no pitch
    and the fallback is C1 (24), in the centre octave itself, not C0 (12)
    one octave below it. *)
Lemma fallback_register_counterexample :
  parseChordSymbol Tonal.get "C" = Some parsed_C
  /\ presetMidis Tone.midiFrom parsed_C 1 PAD_TRIAD_BASS_35R
       (omit (omitFlags true true true false)) = []
  /\ build "C" 1 PAD_TRIAD_BASS_35R 0 (omitFlags true true true false)
     = Some {| chordSymbol := "C"; preset := PAD_TRIAD_BASS_35R;
               midis := [24]; vnotes := ["C1"] |}
  /\ Tone.midiFrom (fallbackPc parsed_C) (1 - 1) + 0 = 12
  /\ ~ (forall r,
          build "C" 1 PAD_TRIAD_BASS_35R 0 (omitFlags true true true false) = Some r ->
          midis r = [Tone.midiFrom (fallbackPc parsed_C) (1 - 1) + 0]).
Proof.
  split; [reflexivity|]. split; [reflexivity|]. split; [reflexivity|].
  split; [reflexivity|].
  intros H. specialize (H _ eq_refl). discriminate H.
Qed.


(** ** Claim on the extension marker of the roman numeral *)

Example romanize_Cm7 : romanizeChord Tonal.get "Cm7" key_C_major = "i7".
Proof. vm_compute. reflexivity. Qed.

Example romanize_F_over_G : romanizeChord Tonal.get "F/G" key_C_major = "IV".
Proof. vm_compute. reflexivity. Qed.

Example romanize_Cmaj7 : romanizeChord Tonal.get "Cmaj7" key_C_major = "IΔ7".
Proof. vm_compute. reflexivity. Qed.

Lemma append_assoc (a b c : string) : (a +:+ b) +:+ c = a +:+ (b +:+ c).
Proof.
  induction a as [|x a IH]; [reflexivity|].
  change (String x ((a +:+ b) +:+ c) = String x (a +:+ (b +:+ c))).
  now rewrite IH.
Qed.

(** The marker is what [romanizeChord] ends with, whatever the lookup. *)
Lemma romanizeChord_ends_with_extension Chord_get sym key p :
  parseChordSymbol Chord_get sym = Some p ->
  exists front, romanizeChord Chord_get sym key = front +:+ extensionOf (core p).
Proof.
  intros Hp. unfold romanizeChord. rewrite Hp. cbv zeta.
  eexists. symmetry. apply append_assoc.
Qed.

(** *** Lowering and the capital delta *)

Lemma in_range_spec lo hi c :
  in_range lo hi c = true <-> (lo <= code c /\ code c <= hi)%N.
Proof.
  unfold in_range. rewrite andb_true_iff, !N.leb_le. reflexivity.
Qed.

Lemma code_bounded c : (code c < 256)%N.
Proof. apply N_ascii_bounded. Qed.

Lemma code_shift d c : (code c + d < 256)%N -> code (shift_code d c) = (code c + d)%N.
Proof. intros H. unfold shift_code, code. now apply N_ascii_embedding. Qed.

Lemma code_unshift d c : code (unshift_code d c) = (code c - d)%N.
Proof.
  unfold unshift_code, code. apply N_ascii_embedding.
  pose proof (N_ascii_bounded c). lia.
Qed.

Lemma code_inj c c' : code c = code c' -> c = c'.
Proof.
  intros H. rewrite <- (ascii_N_embedding c), <- (ascii_N_embedding c').
  unfold code in H. now rewrite H.
Qed.

Lemma lower_ascii_code c :
  code (lower_ascii c) = code c \/ (97 <= code (lower_ascii c) <= 122)%N.
Proof.
  unfold lower_ascii. destruct (in_range 65 90 c) eqn:H; [|now left].
  apply in_range_spec in H. right. rewrite code_shift; lia.
Qed.

Lemma lower_pair_codes c d c' d' :
  lower_pair c d = Some (c', d') ->
  code d' <> 206%N /\ ~ (code c' = 206%N /\ code d' = 148%N).
Proof.
  unfold lower_pair.
  destruct ((code c =? 195)%N && in_range 128 158 d && negb (code d =? 151)%N) eqn:H1.
  { intros [= <- <-]. apply andb_true_iff in H1 as [H1 _].
    apply andb_true_iff in H1 as [Hc Hd]. apply N.eqb_eq in Hc.
    apply in_range_spec in Hd. rewrite code_shift by lia. lia. }
  destruct ((code c =? 206)%N && in_range 145 159 d) eqn:H2.
  { intros [= <- <-]. apply andb_true_iff in H2 as [Hc Hd].
    apply in_range_spec in Hd. rewrite code_shift by lia. lia. }
  destruct ((code c =? 206)%N && in_range 160 169 d) eqn:H3; [|discriminate].
  intros [= <- <-]. apply andb_true_iff in H3 as [Hc Hd].
  apply in_range_spec in Hd. rewrite code_unshift.
  split; [lia|]. intros [H _]. vm_compute in H. discriminate H.
Qed.

Lemma prefix_delta t :
  String.prefix "Δ" t = true ->
  exists a b r, t = String a (String b r) /\ code a = 206%N /\ code b = 148%N.
Proof.
  destruct t as [|a [|b r]]; cbn [String.prefix].
  - discriminate.
  - destruct (ascii_dec "206"%char a); discriminate.
  - destruct (ascii_dec "206"%char a) as [<-|]; [|discriminate].
    destruct (ascii_dec "148"%char b) as [<-|]; [|discriminate].
    intros _. eexists _, _, _. split; [reflexivity|]. split; reflexivity.
Qed.

(** The head of a lowered string: the lowered head, or the lead byte of a
    lowered pair. *)
Lemma toLowerCase_head d s :
  exists h T, toLowerCase (String d s) = String h T
              /\ (h = lower_ascii d \/ exists e d', lower_pair d e = Some (h, d')).
Proof.
  simpl. destruct s as [|e s'].
  - eexists _, _. split; [reflexivity|]. now left.
  - destruct (lower_pair d e) as [[c' d']|] eqn:Hp.
    + eexists _, _. split; [reflexivity|]. right. eauto.
    + eexists _, _. split; [reflexivity|]. now left.
Qed.

Lemma lower_pair_lead c d c' d' :
  lower_pair c d = Some (c', d') -> code c' <> 148%N.
Proof.
  unfold lower_pair.
  destruct ((code c =? 195)%N && in_range 128 158 d && negb (code d =? 151)%N) eqn:H1.
  { intros [= <- <-]. apply andb_true_iff in H1 as [H1 _].
    apply andb_true_iff in H1 as [Hc Hd]. apply N.eqb_eq in Hc. lia. }
  destruct ((code c =? 206)%N && in_range 145 159 d) eqn:H2.
  { intros [= <- <-]. apply andb_true_iff in H2 as [Hc Hd]. apply N.eqb_eq in Hc. lia. }
  destruct ((code c =? 206)%N && in_range 160 169 d) eqn:H3; [|discriminate].
  intros [= <- <-]. vm_compute. discriminate.
Qed.

Lemma toLowerCase_no_capital_delta_upto n s :
  (String.length s <= n)%nat -> includes "Δ" (toLowerCase s) = false.
Proof.
  revert s. induction n as [|n IH]; intros s Hlen.
  - destruct s; [reflexivity|simpl in Hlen; lia].
  - destruct s as [|c [|d s'']]; [reflexivity| |].
    + cbn [toLowerCase includes String.prefix].
      destruct (ascii_dec "206"%char (lower_ascii c)); reflexivity.
    + assert (IH1 : includes "Δ" (toLowerCase (String d s'')) = false).
      { apply IH. simpl in *. lia. }
      assert (IH2 : includes "Δ" (toLowerCase s'') = false).
      { apply IH. simpl in *. lia. }
      change (toLowerCase (String c (String d s'')))
        with (match lower_pair c d with
              | Some (c', d') => String c' (String d' (toLowerCase s''))
              | None => String (lower_ascii c) (toLowerCase (String d s''))
              end).
      destruct (lower_pair c d) as [[c' d']|] eqn:Hp.
      * destruct (lower_pair_codes _ _ _ _ Hp) as [Hd' Hcd].
        change (includes "Δ" (String c' (String d' (toLowerCase s''))))
          with (String.prefix "Δ" (String c' (String d' (toLowerCase s'')))
                || (String.prefix "Δ" (String d' (toLowerCase s''))
                    || includes "Δ" (toLowerCase s''))).
        rewrite IH2, orb_false_r.
        apply orb_false_iff. split.
        -- apply not_true_is_false. intros H.
           apply prefix_delta in H as (a & b & r & [= -> -> _] & Ha & Hb). tauto.
        -- apply not_true_is_false. intros H.
           apply prefix_delta in H as (a & b & r & [= <- _] & Ha & Hb). tauto.
      * change (includes "Δ" (String (lower_ascii c) (toLowerCase (String d s''))))
          with (String.prefix "Δ" (String (lower_ascii c) (toLowerCase (String d s'')))
                || includes "Δ" (toLowerCase (String d s''))).
        rewrite IH1, orb_false_r. apply not_true_is_false. intros H.
        apply prefix_delta in H as (a & b & r & Heq & Ha & Hb).
        destruct (toLowerCase_head d s'') as (h & T & HT & Hh).
        rewrite HT in Heq. injection Heq as <- <- <-.
        assert (Hc : code c = 206%N).
        { destruct (lower_ascii_code c) as [<-|Hr]; [exact Ha|lia]. }
        destruct Hh as [->|(e & d' & Hpe)].
        -- assert (Hd : code d = 148%N).
           { destruct (lower_ascii_code d) as [<-|Hr]; [exact Hb|lia]. }
           unfold lower_pair in Hp. unfold in_range in Hp. rewrite Hc, Hd in Hp.
           vm_compute in Hp. discriminate Hp.
        -- now apply lower_pair_lead in Hpe.
Qed.

(** No capital delta is left in a lowered string. *)
Lemma toLowerCase_no_capital_delta s : includes "Δ" (toLowerCase s) = false.
Proof. apply (toLowerCase_no_capital_delta_upto (String.length s)). lia. Qed.

Lemma prefix_delta7 t : String.prefix "Δ7" t = true -> String.prefix "Δ" t = true.
Proof.
  destruct t as [|a [|b r]]; cbn [String.prefix]; try discriminate.
  - destruct (ascii_dec "206"%char a); discriminate.
  - destruct (ascii_dec "206"%char a); [|discriminate].
    destruct (ascii_dec "148"%char b); [|discriminate].
    intros _. now destruct r.
Qed.

Lemma includes_delta7 t : includes "Δ7" t = true -> includes "Δ" t = true.
Proof.
  induction t as [|a t IH].
  - cbn [includes String.prefix]. discriminate.
  - change (includes "Δ7" (String a t))
      with (String.prefix "Δ7" (String a t) || includes "Δ7" t).
    change (includes "Δ" (String a t))
      with (String.prefix "Δ" (String a t) || includes "Δ" t).
    intros H. apply orb_true_iff in H as [H|H]; apply orb_true_iff.
    + left. now apply prefix_delta7.
    + right. now apply IH.
Qed.

(** The third test of [isMaj7] never holds: only ["maj7"] and ["ma7"]
    count. *)
Lemma isMaj7_two_tests symbol :
  isMaj7 symbol
  = includes "maj7" (toLowerCase symbol) || includes "ma7" (toLowerCase symbol).
Proof.
  unfold isMaj7. cbv zeta.
  destruct (includes "Δ7" (toLowerCase symbol)) eqn:H; [|now rewrite orb_false_r].
  apply includes_delta7 in H. now rewrite toLowerCase_no_capital_delta in H.
Qed.

(** What the code appends: [Δ7] when the lowered core holds "maj7" or
    "ma7", else [7] when it holds a "7", else nothing.  A core that holds
    "Δ7" and neither of the two never gets [Δ7]. *)
Lemma extensionOf_cases coreSymbol :
  let s := toLowerCase coreSymbol in
  extensionOf coreSymbol
  = if includes "maj7" s || includes "ma7" s then "Δ7"
    else if includes "7" s then "7" else "".
Proof. unfold extensionOf, isSeventhChord. now rewrite isMaj7_two_tests. Qed.

(** C4, where the program departs from the claim.  The core ["C-Δ7"] (the
    minor-major seventh of tonal) holds ["Δ7"], so the claim has the numeral
    end with [Δ7]; [isMaj7] lowers the symbol first, which turns [Δ] into
    [δ], its test for ["Δ7"] fails and the numeral ends with the plain
    [7]. *)
Theorem romanizeChord_delta7_lowered :
  includes "Δ7" "C-Δ7" = true
  /\ toLowerCase "C-Δ7" = "c-δ7"
  /\ isMaj7 "C-Δ7" = false
  /\ extensionOf "C-Δ7" = "7"
  /\ romanizeChord Tonal.get "C-Δ7" key_C_major = "i7".
Proof. vm_compute. repeat split; reflexivity. Qed.

Local Open Scope Q_scope.

(** *** Facts on the play order *)

Lemma swap_perm {A} (i j : nat) (arr : list A) : Permutation (swap i j arr) arr.
Proof.
  unfold swap. destruct (arr !! i) as [t|] eqn:Hi; [|reflexivity].
  destruct (arr !! j) as [aj|] eqn:Hj; [|reflexivity].
  now apply Permutation_insert_swap.
Qed.

Lemma shuffleFrom_perm {A} (i : nat) (arr : list A) tape :
  Permutation (fst (shuffleFrom i arr tape)) arr.
Proof.
  revert arr tape. induction i as [|i IH]; intros arr tape; simpl; [reflexivity|].
  unfold bind. destruct (Math_random tape) as [r tape'].
  rewrite IH. apply swap_perm.
Qed.

Lemma insertItem_perm x l : Permutation (insertItem x l) (x :: l).
Proof.
  induction l as [|y l IH]; simpl; [reflexivity|].
  destruct (it_midi x <=? it_midi y)%Z; [reflexivity|].
  rewrite IH. apply perm_swap.
Qed.

Lemma sortItems_perm l : Permutation (sortItems l) l.
Proof.
  induction l as [|x l IH]; simpl; [reflexivity|].
  rewrite insertItem_perm. now constructor.
Qed.

Lemma orderForChord_perm items dir tape :
  Permutation (fst (orderForChord items dir tape)) items.
Proof.
  unfold orderForChord. destruct dir; simpl.
  - apply sortItems_perm.
  - rewrite <- Permutation_rev. apply sortItems_perm.
  - unfold shuffleInPlace. rewrite shuffleFrom_perm. apply sortItems_perm.
Qed.

Lemma orderForArp_perm items pat tape :
  Permutation (fst (orderForArp items pat tape)) items.
Proof.
  unfold orderForArp. destruct pat; simpl.
  - apply sortItems_perm.
  - rewrite <- Permutation_rev. apply sortItems_perm.
  - unfold shuffleInPlace. rewrite shuffleFrom_perm. apply sortItems_perm.
  - reflexivity.
Qed.

(** *** Facts on the events *)

(** What an event takes from its item does not depend on the draws. *)
Lemma makeEvent_item p delays arpDur oneShot it idx tape :
  let e := fst (makeEvent p delays arpDur oneShot it idx tape) in
  note e = it_note it /\ midi e = it_midi it /\ isTop e = it_isTop it.
Proof.
  unfold makeEvent, bind, randBetween, bind, ret.
  destruct (Qlt_le_dec 0 (n_timingJitterMs p));
    destruct (Qlt_le_dec 0 (n_velocityHumanize p));
    repeat (destruct (Math_random _)); simpl; auto.
Qed.

(** With no jitter the delay is the scheduled one, floored at 0. *)
Lemma makeEvent_delay p delays arpDur oneShot it idx tape :
  n_timingJitterMs p <= 0 ->
  delayMs (fst (makeEvent p delays arpDur oneShot it idx tape))
  = Math_maxQ 0 (default 0 (delays !! idx)).
Proof.
  intros Hj. unfold makeEvent, bind, randBetween, bind, ret.
  destruct (Qlt_le_dec 0 (n_timingJitterMs p)) as [Hlt|_].
  - exfalso. apply (Qlt_not_le _ _ Hlt Hj).
  - destruct (Qlt_le_dec 0 (n_velocityHumanize p));
      repeat (destruct (Math_random _)); reflexivity.
Qed.

Lemma mapM_cons {A B} (f : A -> nat -> Rand B) i x l tape :
  fst (mapM f i (x :: l) tape)
  = fst (f x i tape) :: fst (mapM f (S i) l (snd (f x i tape))).
Proof.
  simpl. unfold bind, ret. destruct (f x i tape) as [y tape']. simpl.
  destruct (mapM f (S i) l tape') as [ys tape'']. reflexivity.
Qed.

Lemma mapM_length {A B} (f : A -> nat -> Rand B) i l tape :
  length (fst (mapM f i l tape)) = length l.
Proof.
  revert i tape. induction l as [|x l IH]; intros i tape; [reflexivity|].
  rewrite mapM_cons. simpl. now rewrite IH.
Qed.

(** The event at place [k] is the one made of the item at place [k], with
    some tape. *)
Lemma mapM_lookup {A B} (f : A -> nat -> Rand B) i l tape k y :
  fst (mapM f i l tape) !! k = Some y ->
  exists x tape', l !! k = Some x /\ y = fst (f x (i + k)%nat tape').
Proof.
  revert i tape k. induction l as [|x l IH]; intros i tape k; [discriminate|].
  rewrite mapM_cons. destruct k as [|k]; simpl.
  - intros [= <-]. exists x, tape. split; [reflexivity|]. now rewrite Nat.add_0_r.
  - intros Hk. apply IH in Hk as (x' & tape' & Hl & ->).
    exists x', tape'. split; [assumption|]. now rewrite Nat.add_succ_r.
Qed.

Lemma mapM_makeEvent_items p delays arpDur oneShot i l tape :
  map (fun e => (note e, midi e, isTop e))
      (fst (mapM (makeEvent p delays arpDur oneShot) i l tape))
  = map (fun it => (it_note it, it_midi it, it_isTop it)) l.
Proof.
  revert i tape. induction l as [|it l IH]; intros i tape; [reflexivity|].
  rewrite mapM_cons. simpl. rewrite IH.
  destruct (makeEvent_item p delays arpDur oneShot it i tape) as (-> & -> & ->).
  reflexivity.
Qed.

Lemma makeItems_fields_from (g : Z -> bool) (k : nat) notes midis :
  length notes = length midis ->
  map (fun it => (it_note it, it_midi it, it_isTop it))
      (imap (fun i note =>
               {| it_note := note;
                  it_midi := nth i midis 0%Z;
                  it_isTop := g (nth i midis 0%Z);
                  it_idx := (k + i)%nat |}) notes)
  = map (fun '(n, m) => (n, m, g m)) (combine notes midis).
Proof.
  revert k midis. induction notes as [|n notes IH]; intros k midis Hlen; [reflexivity|].
  destruct midis as [|m midis]; [discriminate|].
  rewrite imap_cons. simpl. f_equal.
  injection Hlen as Hlen. rewrite <- (IH (S k) midis Hlen).
  f_equal. apply imap_ext. intros i x _. simpl. now rewrite Nat.add_succ_r.
Qed.

Lemma makeItems_fields notes midis :
  length notes = length midis ->
  map (fun it => (it_note it, it_midi it, it_isTop it)) (makeItems notes midis)
  = map (fun '(n, m) => (n, m, isTopMidi (Math_max midis) m)) (combine notes midis).
Proof. intros Hlen. apply (makeItems_fields_from _ 0 notes midis Hlen). Qed.

Lemma fold_max_ge_init l x : (x <= fold_left Z.max l x)%Z.
Proof.
  revert x. induction l as [|y l IH]; intros x; simpl; [lia|].
  specialize (IH (Z.max x y)). lia.
Qed.

Lemma fold_max_ge_elem l x y : In y l -> (y <= fold_left Z.max l x)%Z.
Proof.
  revert x. induction l as [|z l IH]; intros x; simpl; [tauto|].
  intros [->|Hin]; [|now apply IH].
  pose proof (fold_max_ge_init l (Z.max x y)). lia.
Qed.

Lemma fold_max_in l x : fold_left Z.max l x = x \/ In (fold_left Z.max l x) l.
Proof.
  revert x. induction l as [|y l IH]; intros x; simpl; [now left|].
  destruct (IH (Z.max x y)) as [H|H]; [|now right; right].
  rewrite H. destruct (Z.max_spec x y) as [[_ ->]|[_ ->]]; [now right; left|now left].
Qed.

(** [Math_max] of a list that is not empty is its greatest element. *)
Lemma Math_max_spec l :
  l <> [] ->
  exists top, Math_max l = Some top /\ In top l /\ forall y, In y l -> (y <= top)%Z.
Proof.
  destruct l as [|x l]; [congruence|]. intros _. simpl.
  eexists. split; [reflexivity|]. split.
  - destruct (fold_max_in l x) as [->|H]; [now left|now right].
  - intros y [<-|Hy]; [apply fold_max_ge_init|now apply fold_max_ge_elem].
Qed.

Lemma count_occ_flags (top : Z) (l : list Z) :
  count_occ Bool.bool_dec (map (fun m => (m =? top)%Z) l) true
  = count_occ Z.eq_dec l top.
Proof.
  induction l as [|m l IH]; [reflexivity|]. simpl.
  destruct (Z.eqb_spec m top) as [->|Hne].
  - destruct (Bool.bool_dec true true); [|congruence].
    destruct (Z.eq_dec top top); [|congruence]. now rewrite IH.
  - destruct (Bool.bool_dec false true); [discriminate|].
    destruct (Z.eq_dec m top); [congruence|]. exact IH.
Qed.

Lemma combine_fst {A B} (l : list A) (l' : list B) :
  length l = length l' -> map fst (combine l l') = l.
Proof.
  revert l'. induction l as [|x l IH]; intros [|y l'] Hlen; try discriminate; [reflexivity|].
  simpl. f_equal. apply IH. now injection Hlen.
Qed.

Lemma combine_snd {A B} (l : list A) (l' : list B) :
  length l = length l' -> map snd (combine l l') = l'.
Proof.
  revert l'. induction l as [|x l IH]; intros [|y l'] Hlen; try discriminate; [reflexivity|].
  simpl. f_equal. apply IH. now injection Hlen.
Qed.

(** What [buildNoteEvents] does on a call that is not empty and whose
    lengths agree: it orders the items, then makes one event of each. *)
Lemma buildNoteEvents_run notes midis perf dur tape :
  notes <> [] -> length notes = length midis ->
  exists playOrder arpDur oneShot tape',
    Permutation playOrder (makeItems notes midis)
    /\ (n_playMode (normalizePerf perf) = arp ->
        n_arpPattern (normalizePerf perf) = arp_1357 ->
        playOrder = makeItems notes midis)
    /\ fst (buildNoteEvents notes midis perf dur tape)
       = fst (mapM (makeEvent (normalizePerf perf)
                      (makeDelays (normalizePerf perf) (length playOrder))
                      arpDur oneShot) 0 playOrder tape').
Proof.
  intros Hne Hlen. unfold buildNoteEvents.
  assert (Hguard : (length notes =? 0)%nat || negb (length notes =? length midis)%nat
                   = false).
  { rewrite <- Hlen, Nat.eqb_refl. destruct notes; [congruence|reflexivity]. }
  rewrite Hguard. cbv zeta. set (p := normalizePerf perf). unfold bind at 1.
  destruct (n_playMode p) eqn:Hmode.
  - pose proof (orderForChord_perm (makeItems notes midis) (n_direction p) tape) as HP.
    destruct (orderForChord _ _ tape) as [playOrder tape'].
    exists playOrder. do 2 eexists. exists tape'.
    split; [exact HP|]. split; [discriminate|reflexivity].
  - pose proof (orderForArp_perm (makeItems notes midis) (n_arpPattern p) tape) as HP.
    assert (H1357 : n_arpPattern p = arp_1357 ->
                    fst (orderForArp (makeItems notes midis) (n_arpPattern p) tape)
                    = makeItems notes midis).
    { intros ->. reflexivity. }
    destruct (orderForArp _ _ tape) as [playOrder tape'].
    exists playOrder. do 2 eexists. exists tape'.
    split; [exact HP|]. split; [intros _; exact H1357|reflexivity].
Qed.

Lemma makeItems_flag notes midis :
  length notes = length midis ->
  Forall (fun it => it_isTop it = isTopMidi (Math_max midis) (it_midi it))
         (makeItems notes midis).
Proof.
  intros Hlen.
  assert (H : Forall (fun t : string * Z * bool =>
                        snd t = isTopMidi (Math_max midis) (snd (fst t)))
                     (map (fun it => (it_note it, it_midi it, it_isTop it))
                          (makeItems notes midis))).
  { rewrite (makeItems_fields notes midis Hlen).
    apply Forall_forall. intros t Ht. apply list_elem_of_In, in_map_iff in Ht.
    destruct Ht as ([n m] & <- & _). reflexivity. }
  rewrite Forall_forall in H. apply Forall_forall. intros it Hit.
  apply (H (it_note it, it_midi it, it_isTop it)).
  apply list_elem_of_In, in_map_iff. exists it. split; [reflexivity|].
  now apply list_elem_of_In.
Qed.

(** ** Claims on the note scheduler *)

(** C3, as amended.  In a call that is not empty and whose lengths agree,
    the events are the note-pitch pairs of the input in some order; an
    event is flagged [isTop] exactly when its pitch is the greatest pitch of
    [midis]; so as many events are flagged as [midis] holds that greatest
    pitch, which is one event or more, and just one when the greatest pitch
    occurs once. *)
Theorem buildNoteEvents_top_flags (notes : list string) (midis : list Z)
    (perf : PerformanceSettings) (dur : option Q) (tape : list Q) :
  notes <> [] ->
  length notes = length midis ->
  let evs := fst (buildNoteEvents notes midis perf dur tape) in
  exists top,
    Math_max midis = Some top
    /\ In top midis
    /\ (forall m, In m midis -> (m <= top)%Z)
    /\ Permutation (map (fun e => (note e, midi e)) evs) (combine notes midis)
    /\ (forall e, In e evs -> isTop e = (midi e =? top)%Z)
    /\ count_occ Bool.bool_dec (map isTop evs) true = count_occ Z.eq_dec midis top
    /\ (1 <= count_occ Z.eq_dec midis top)%nat
    /\ (count_occ Z.eq_dec midis top = 1%nat ->
        exists e, List.filter isTop evs = [e]).
Proof.
  intros Hne Hlen evs.
  assert (Hmidis : midis <> []).
  { destruct midis; [|discriminate]. destruct notes; [congruence|discriminate]. }
  destruct (Math_max_spec midis Hmidis) as (top & Htop & Hin & Hmax).
  destruct (buildNoteEvents_run notes midis perf dur tape Hne Hlen)
    as (playOrder & arpDur & oneShot & tape' & HP & _ & Hevs).
  fold evs in Hevs.
  pose proof (mapM_makeEvent_items (normalizePerf perf)
                (makeDelays (normalizePerf perf) (length playOrder))
                arpDur oneShot 0 playOrder tape') as Hfields.
  rewrite <- Hevs in Hfields.
  assert (Hpairs : map (fun e => (note e, midi e)) evs
                   = map (fun it => (it_note it, it_midi it)) playOrder).
  { apply (f_equal (map (fun t : string * Z * bool => fst t))) in Hfields.
    rewrite !map_map in Hfields. exact Hfields. }
  assert (Hflags : map (fun e => (midi e, isTop e)) evs
                   = map (fun it => (it_midi it, it_isTop it)) playOrder).
  { apply (f_equal (map (fun t : string * Z * bool => (snd (fst t), snd t)))) in Hfields.
    rewrite !map_map in Hfields. exact Hfields. }
  assert (Hitems : Forall (fun it => it_isTop it = (it_midi it =? top)%Z) playOrder).
  { pose proof (makeItems_flag notes midis Hlen) as HF. rewrite Htop in HF.
    rewrite Forall_forall in HF. apply Forall_forall. intros it Hit.
    apply HF. apply list_elem_of_In. apply list_elem_of_In in Hit.
    now apply (Permutation_in _ HP). }
  assert (Hcount : count_occ Bool.bool_dec (map isTop evs) true
                   = count_occ Z.eq_dec midis top).
  { rewrite <- count_occ_flags.
    assert (Htops : map isTop evs = map it_isTop playOrder).
    { apply (f_equal (map (fun t : Z * bool => snd t))) in Hflags.
      rewrite !map_map in Hflags. exact Hflags. }
    rewrite Htops. apply Permutation_count_occ.
    transitivity (map it_isTop (makeItems notes midis)).
    { now apply Permutation_map. }
    assert (Hf : map it_isTop (makeItems notes midis)
                 = map (fun t : string * Z => (snd t =? top)%Z) (combine notes midis)).
    { pose proof (makeItems_fields notes midis Hlen) as Hf. rewrite Htop in Hf.
      apply (f_equal (map (fun t : string * Z * bool => snd t))) in Hf.
      rewrite !map_map in Hf. etransitivity; [exact Hf|].
      apply map_ext. now intros [n m]. }
    rewrite Hf. rewrite <- (combine_snd notes midis Hlen) at 2. now rewrite map_map. }
  exists top. split; [exact Htop|]. split; [exact Hin|]. split; [exact Hmax|].
  split; [|split; [|split; [|split]]].
  - rewrite Hpairs.
    transitivity (map (fun it => (it_note it, it_midi it)) (makeItems notes midis)).
    { now apply Permutation_map. }
    assert (Hf : map (fun it => (it_note it, it_midi it)) (makeItems notes midis)
                 = map (fun t : string * Z => t) (combine notes midis)).
    { pose proof (makeItems_fields notes midis Hlen) as Hf.
      apply (f_equal (map (fun t : string * Z * bool => fst t))) in Hf.
      rewrite !map_map in Hf. etransitivity; [exact Hf|].
      apply map_ext. now intros [n m]. }
    rewrite Hf, map_id. reflexivity.
  - intros e He.
    assert (Hin' : In (midi e, isTop e) (map (fun e => (midi e, isTop e)) evs)).
    { apply in_map_iff. now exists e. }
    rewrite Hflags in Hin'. apply in_map_iff in Hin' as (it & [= Hm Ht] & Hit).
    rewrite Forall_forall in Hitems. apply list_elem_of_In in Hit.
    rewrite <- Hm, <- Ht. now apply Hitems.
  - exact Hcount.
  - apply count_occ_In. exact Hin.
  - intros Hone. rewrite <- Hcount in Hone. clear -Hone.
    induction evs as [|e evs IH]; simpl in *; [discriminate|].
    destruct (isTop e) eqn:He.
    + destruct (Bool.bool_dec true true); [|congruence].
      injection Hone as Hzero. exists e. f_equal.
      clear -Hzero. induction evs as [|e' evs IH]; [reflexivity|]. simpl in *.
      destruct (isTop e'); [|now apply IH].
      destruct (Bool.bool_dec true true); [discriminate|congruence].
    + destruct (Bool.bool_dec false true); [discriminate|]. now apply IH.
Qed.

Lemma buildNoteEvents_top_flags_witness :
  let evs := fst (buildNoteEvents ["C4"; "G4"; "E4"] [60; 67; 64]%Z
                    (plainPerf chord arp_up dir_down 20 90) None []) in
  exists top,
    Math_max [60; 67; 64]%Z = Some top
    /\ In top [60; 67; 64]%Z
    /\ (forall m, In m [60; 67; 64]%Z -> (m <= top)%Z)
    /\ Permutation (map (fun e => (note e, midi e)) evs)
         (combine ["C4"; "G4"; "E4"] [60; 67; 64]%Z)
    /\ (forall e, In e evs -> isTop e = (midi e =? top)%Z)
    /\ count_occ Bool.bool_dec (map isTop evs) true
       = count_occ Z.eq_dec [60; 67; 64]%Z top
    /\ (1 <= count_occ Z.eq_dec [60; 67; 64]%Z top)%nat
    /\ (count_occ Z.eq_dec [60; 67; 64]%Z top = 1%nat ->
        exists e, List.filter isTop evs = [e]).
Proof.
  apply (buildNoteEvents_top_flags ["C4"; "G4"; "E4"] [60; 67; 64]%Z
           (plainPerf chord arp_up dir_down 20 90) None []).
  - discriminate.
  - reflexivity.
Defined.

(** C3, as the specification words it, fails on a tie: with the greatest
    pitch 76 held twice, both of its events are flagged, not the first
    alone. *)
Lemma isTop_tie_counterexample :
  let evs := fst (buildNoteEvents ["C5"; "E5"; "E5"] [72; 76; 76]%Z
                    (plainPerf chord arp_up dir_up 20 90) None []) in
  map (fun e => (midi e, isTop e)) evs = [(72, false); (76, true); (76, true)]%Z
  /\ length (List.filter isTop evs) = 2%nat.
Proof. vm_compute. split; reflexivity. Qed.

Lemma Math_maxQ_floor_nonneg x : 0 <= x -> Math_maxQ 0 x = x.
Proof.
  intros Hx. unfold Math_maxQ. apply Qle_bool_iff in Hx. now rewrite Hx.
Qed.

Lemma Math_maxQ_lower a b : a <= Math_maxQ a b.
Proof.
  unfold Math_maxQ. destruct (Qle_bool a b) eqn:H.
  - now apply Qle_bool_iff.
  - apply Qle_refl.
Qed.

Lemma Math_maxQ_right a b : a <= b -> Math_maxQ a b = b.
Proof. intros H. unfold Math_maxQ. apply Qle_bool_iff in H. now rewrite H. Qed.

Lemma ofNat_nonneg i : 0 <= ofNat i.
Proof.
  unfold ofNat. change 0 with (inject_Z 0). rewrite <- Zle_Qle. lia.
Qed.

(** In arpeggio mode with the pattern "1357" the events follow the input,
    note for note and pitch for pitch, jitter or not. *)
Lemma buildNoteEvents_input_order notes midis perf dur tape :
  playMode perf = Some arp ->
  arpPattern perf = Some arp_1357 ->
  notes <> [] ->
  length notes = length midis ->
  map note (fst (buildNoteEvents notes midis perf dur tape)) = notes
  /\ map midi (fst (buildNoteEvents notes midis perf dur tape)) = midis.
Proof.
  intros Hmode Hpat Hne Hlen.
  destruct (buildNoteEvents_run notes midis perf dur tape Hne Hlen)
    as (playOrder & arpDur & oneShot & tape' & _ & Hsame & Hevs).
  assert (Hm : n_playMode (normalizePerf perf) = arp) by (simpl; now rewrite Hmode).
  assert (Hp : n_arpPattern (normalizePerf perf) = arp_1357) by (simpl; now rewrite Hpat).
  specialize (Hsame Hm Hp). subst playOrder.
  pose proof (mapM_makeEvent_items (normalizePerf perf)
                (makeDelays (normalizePerf perf) (length (makeItems notes midis)))
                arpDur oneShot 0 (makeItems notes midis) tape') as Hfields.
  rewrite <- Hevs, (makeItems_fields notes midis Hlen) in Hfields.
  split.
  - apply (f_equal (map (fun t : string * Z * bool => fst (fst t)))) in Hfields.
    rewrite !map_map in Hfields. etransitivity; [exact Hfields|].
    rewrite <- (combine_fst notes midis Hlen) at 2.
    apply map_ext. now intros [n m].
  - apply (f_equal (map (fun t : string * Z * bool => snd (fst t)))) in Hfields.
    rewrite !map_map in Hfields. etransitivity; [exact Hfields|].
    rewrite <- (combine_snd notes midis Hlen) at 2.
    apply map_ext. now intros [n m].
Qed.

(** C7, as amended.  In arpeggio mode with the pattern "1357" and no
    jitter, the events come in the order of the input, note for note and
    pitch for pitch, and the event at place [i] has the delay [i * step],
    where [step] is the setting [arpStepMs] raised to 10 when it is less
    (and 90 when it is not a finite number): [i * arpStepMs] itself
    whenever [arpStepMs] is 10 or more. *)
Theorem buildNoteEvents_arp_1357 (notes : list string) (midis : list Z)
    (perf : PerformanceSettings) (dur : option Q) (tape : list Q) (jitter : Q) :
  playMode perf = Some arp ->
  arpPattern perf = Some arp_1357 ->
  timingJitterMs perf = Some jitter ->
  jitter == 0 ->
  notes <> [] ->
  length notes = length midis ->
  let evs := fst (buildNoteEvents notes midis perf dur tape) in
  let step := Math_maxQ 10 (default 90 (arpStepMs perf)) in
  map note evs = notes
  /\ map midi evs = midis
  /\ (forall i e, evs !! i = Some e -> delayMs e == ofNat i * step)
  /\ (forall s, arpStepMs perf = Some s -> 10 <= s ->
      forall i e, evs !! i = Some e -> delayMs e == ofNat i * s).
Proof.
  intros Hmode Hpat Hjit Hzero Hne Hlen evs step.
  destruct (buildNoteEvents_input_order notes midis perf dur tape Hmode Hpat Hne Hlen)
    as [Hnotes Hmidis].
  destruct (buildNoteEvents_run notes midis perf dur tape Hne Hlen)
    as (playOrder & arpDur & oneShot & tape' & _ & _ & Hevs).
  fold evs in Hevs.
  assert (Hm : n_playMode (normalizePerf perf) = arp) by (simpl; now rewrite Hmode).
  assert (Hj : n_timingJitterMs (normalizePerf perf) <= 0).
  { simpl. rewrite Hjit. simpl. unfold Math_maxQ.
    destruct (Qle_bool 0 jitter); [rewrite Hzero|]; apply Qle_refl. }
  assert (Hdelay : forall i e, evs !! i = Some e -> delayMs e == ofNat i * step).
  { intros i e Hi. rewrite Hevs in Hi.
    pose proof (lookup_lt_Some _ _ _ Hi) as Hlt. rewrite mapM_length in Hlt.
    apply mapM_lookup in Hi as (it & tape'' & _ & ->).
    rewrite makeEvent_delay by exact Hj. simpl.
    unfold makeDelays. rewrite Hm.
    rewrite list_lookup_fmap, lookup_seq_lt by exact Hlt. simpl.
    rewrite Math_maxQ_floor_nonneg; [reflexivity|].
    apply Qmult_le_0_compat; [apply ofNat_nonneg|].
    apply Qle_trans with 10; [discriminate|]. apply Math_maxQ_lower. }
  split; [exact Hnotes|]. split; [exact Hmidis|]. split; [exact Hdelay|].
  intros s Hs Hge i e Hi. rewrite (Hdelay i e Hi).
  unfold step. rewrite Hs. simpl. now rewrite Math_maxQ_right.
Qed.

Example arp_1357_delays :
  map (fun e => (note e, midi e, delayMs e))
      (fst (buildNoteEvents ["G4"; "C4"; "B4"; "E4"] [67; 60; 71; 64]%Z
              (plainPerf arp arp_1357 dir_up 20 90) (Some (9 # 10)) []))
  = [("G4", 67%Z, 0); ("C4", 60%Z, 90); ("B4", 71%Z, 180); ("E4", 64%Z, 270)].
Proof. vm_compute. reflexivity. Qed.

Example chord_up_delays :
  map (fun e => (midi e, Qred (delayMs e)))
      (fst (buildNoteEvents ["G4"; "C4"; "B4"; "E4"] [67; 60; 71; 64]%Z
              (plainPerf chord arp_up dir_up 30 90) (Some (9 # 10)) []))
  = [(60%Z, 0); (64%Z, 10); (67%Z, 20); (71%Z, 30)].
Proof. vm_compute. reflexivity. Qed.

Lemma buildNoteEvents_arp_1357_witness :
  let evs := fst (buildNoteEvents ["G4"; "C4"; "B4"; "E4"] [67; 60; 71; 64]%Z
                    (plainPerf arp arp_1357 dir_up 20 90) (Some (9 # 10)) []) in
  let step := Math_maxQ 10 (default 90 (arpStepMs (plainPerf arp arp_1357 dir_up 20 90))) in
  map note evs = ["G4"; "C4"; "B4"; "E4"]
  /\ map midi evs = [67; 60; 71; 64]%Z
  /\ (forall i e, evs !! i = Some e -> delayMs e == ofNat i * step)
  /\ (forall s, arpStepMs (plainPerf arp arp_1357 dir_up 20 90) = Some s -> 10 <= s ->
      forall i e, evs !! i = Some e -> delayMs e == ofNat i * s).
Proof.
  apply (buildNoteEvents_arp_1357 ["G4"; "C4"; "B4"; "E4"] [67; 60; 71; 64]%Z
           (plainPerf arp arp_1357 dir_up 20 90) (Some (9 # 10)) [] 0).
  - reflexivity.
  - reflexivity.
  - reflexivity.
  - reflexivity.
  - discriminate.
  - reflexivity.
Defined.

(** C7, as the specification words it, fails under the floor of the step:
    with [arpStepMs = 5] the second event comes after 10 ms, not after
    [1 * 5]. *)
Lemma arp_step_floor_counterexample :
  let perf := plainPerf arp arp_1357 dir_up 20 5 in
  let evs := fst (buildNoteEvents ["C4"; "E4"] [60; 64]%Z perf None []) in
  arpStepMs perf = Some 5
  /\ map delayMs evs = [0; 10]
  /\ ~ (forall i e, evs !! i = Some e -> delayMs e == ofNat i * 5).
Proof.
  split; [reflexivity|]. split; [vm_compute; reflexivity|].
  intros H.
  specialize (H 1%nat {| note := "E4"; midi := 64; isTop := true; delayMs := 10;
                         velocity := Qmake 8850 10000; durSec := Qmake 5 100 |}).
  vm_compute in H. specialize (H eq_refl). discriminate H.
Qed.

(** ** Claim on the order of the built pitches *)

(** C10.  The [midis] of every result of [buildPadVoicing] are in
    nondecreasing order, whatever the lookup, the note numbering, the
    preset, the omit flags and the shift; so the order that the arpeggio
    pattern "1357" keeps, when it plays such a result, is ascending by
    pitch. *)
Theorem buildPadVoicing_midis_ascending
    (Chord_get : string -> TonalChord) (midiFrom : string -> Z -> Z)
    (toNote : Z -> string) (sym : string) (centerOctave : Z)
    (pr : PadVoicingPreset) (shift : Z) (opts : VoicingOptions) (r : VoicingResult) :
  buildPadVoicing Chord_get midiFrom toNote sym centerOctave pr shift opts = Some r ->
  Sorted Z.le (midis r)
  /\ forall perf dur tape,
       playMode perf = Some arp ->
       arpPattern perf = Some arp_1357 ->
       let evs := fst (buildNoteEvents (vnotes r) (midis r) perf dur tape) in
       map midi evs = midis r /\ Sorted Z.le (map midi evs).
Proof.
  intros Hr.
  destruct (buildPadVoicing_result_shape _ _ _ _ _ _ _ _ _ Hr) as (Hs & Hlen & Hne).
  split; [exact Hs|].
  intros perf dur tape Hmode Hpat evs.
  destruct (buildNoteEvents_input_order (vnotes r) (midis r) perf dur tape
              Hmode Hpat Hne Hlen) as [_ Hm].
  subst evs. rewrite Hm. split; [reflexivity|exact Hs].
Qed.

Lemma buildPadVoicing_midis_ascending_witness :
  build "Cm7" 5%Z DROP2_1357_NO_BASS 3%Z noOmit = Some result_Cm7_drop2_up_3
  /\ Sorted Z.le [58; 63; 66; 73]%Z
  /\ forall perf dur tape,
       playMode perf = Some arp ->
       arpPattern perf = Some arp_1357 ->
       let evs := fst (buildNoteEvents ["A#3"; "D#4"; "F#4"; "C#5"] [58; 63; 66; 73]%Z
                         perf dur tape) in
       map midi evs = [58; 63; 66; 73]%Z /\ Sorted Z.le (map midi evs).
Proof.
  split; [reflexivity|].
  apply (buildPadVoicing_midis_ascending Tonal.get Tone.midiFrom Tone.toNote
           "Cm7" 5%Z DROP2_1357_NO_BASS 3%Z noOmit result_Cm7_drop2_up_3).
  reflexivity.
Defined.

Local Close Scope Q_scope.

Lemma scheduleEvents_spec events t next :
  let '(t', next', ids) := scheduleEvents events t next in
  ids = seq next (length events)
  /\ next' = (next + length events)%nat
  /\ forall id, is_Some (t' !! id) <-> is_Some (t !! id) \/ (next <= id < next')%nat.
Proof.
  revert t next. induction events as [|ev events IH]; intros t next; simpl.
  - split; [reflexivity|]. split; [lia|]. intros id. split; [tauto|]. intros [H|H]; [exact H|lia].
  - specialize (IH (<[next := {| at_note := note ev; at_velocity := velocity ev;
                                 at_delaySec := (Math_maxQ 0 (delayMs ev) / 1000)%Q |}]> t)
                   (S next)).
    destruct (scheduleEvents events _ (S next)) as [[t' next'] ids].
    destruct IH as (-> & -> & Hlook).
    split; [reflexivity|]. split; [lia|].
    intros id. rewrite Hlook. rewrite lookup_insert.
    destruct (decide (next = id)) as [->|Hne].
    + split; [intros _; right; lia|intros _; left; eauto].
    + split; (intros [H|H]; [now left|right; lia]).
Qed.

Lemma clearAll_lookup ids (t : gmap nat Attack) id :
  clearAll ids t !! id = if decide (id ∈ ids) then None else t !! id.
Proof.
  induction ids as [|i ids IH]; simpl.
  - destruct (decide (id ∈ [])) as [H|_]; [|reflexivity]. now apply elem_of_nil in H.
  - rewrite lookup_delete. destruct (decide (i = id)) as [->|Hne].
    + destruct (decide (id ∈ id :: ids)) as [_|H]; [reflexivity|].
      exfalso. apply H. now left.
    + rewrite IH. destruct (decide (id ∈ ids)) as [Hin|Hin].
      * destruct (decide (id ∈ i :: ids)) as [_|H]; [reflexivity|].
        exfalso. apply H. now right.
      * destruct (decide (id ∈ i :: ids)) as [H|_]; [|reflexivity].
        apply elem_of_cons in H as [->|H]; [congruence|contradiction].
Qed.

Lemma idle_inv st : idle st -> HoldInv st.
Proof.
  intros (Hh & Hm & Ht). split.
  - intros id. rewrite Ht, lookup_empty. now intros [? ?].
  - intros idx h. rewrite Hh, lookup_empty. discriminate.
  - intros idx1 idx2 h1 h2 id. rewrite Hh, lookup_empty. discriminate.
  - intros id. rewrite Ht, lookup_empty. now intros [? ?].
  - rewrite Hh, Hm. reflexivity.
Qed.




Lemma startGuard_Some idx st p :
  startGuard idx st = Some p ->
  padModels st !! idx = Some p /\ activeHold st !! idx = None.
Proof.
  unfold startGuard. destruct (padModels st !! idx) as [p'|]; [|discriminate].
  destruct (negb (pm_ok p') || (length (pm_notes p') =? 0)%nat); [discriminate|].
  destruct (activeHold st !! idx); [discriminate|]. now intros [= ->].
Qed.

Lemma startGuard_held idx st h : activeHold st !! idx = Some h -> startGuard idx st = None.
Proof.
  intros Hh. unfold startGuard. destruct (padModels st !! idx) as [p|]; [|reflexivity].
  destruct (negb (pm_ok p) || (length (pm_notes p) =? 0)%nat); [reflexivity|].
  now rewrite Hh.
Qed.




(** A press on a held index ends at the guard. *)
Lemma startHoldBegin_held idx st h :
  activeHold st !! idx = Some h -> startHoldBegin idx st = (st, None).
Proof. intros Hh. unfold startHoldBegin. now rewrite (startGuard_held idx st h Hh). Qed.

Lemma startHoldByIndex_held idx st h :
  activeHold st !! idx = Some h -> startHoldByIndex idx st = st.
Proof. intros Hh. unfold startHoldByIndex. now rewrite (startHoldBegin_held idx st h Hh). Qed.


(** ** Claim on the holds *)

Lemma HoldInv_records st : HoldInv st -> HoldRecords st.
Proof. intros [Hold Hids Hone _ Hviz]. now split. Qed.














Example press_registers_hold :
  activeHold (run [Press 0] page0) !! 0%nat = Some hold_F_over_G
  /\ size (transport (run [Press 0] page0)) = 4%nat
  /\ at_note <$> transport (run [Press 0] page0) !! 2%nat = Some "C5".
Proof. repeat split; vm_compute; reflexivity. Qed.

Example second_press_changes_nothing :
  run [Press 0; Press 0] page0 = run [Press 0] page0.
Proof.
  change (startHoldByIndex 0 (run [Press 0] page0) = run [Press 0] page0).
  apply (startHoldByIndex_held 0%nat (run [Press 0] page0) hold_F_over_G).
  vm_compute. reflexivity.
Qed.

Example release_clears_the_hold :
  activeHold (run [Press 0; Release 0] page0) = ∅
  /\ transport (run [Press 0; Release 0] page0) = ∅
  /\ synthLog (run [Press 0; Release 0] page0) = [triggerRelease ["G3"; "A4"; "C5"; "F5"]].
Proof. repeat split; vm_compute; reflexivity. Qed.


(** The guard reads the hold that is registered, and a press registers its
    hold only after its [await].  A second press on the pad while the first
    still waits finds no hold, so it is not the press of C9: it passes the
    guard too.  Each of the two schedules its attacks, the record keeps the
    ids of the later one, and a release clears those only: the four
    callbacks of the first press stay, and belong to no hold. *)
Example presses_overlapping_at_the_await :
  let both := runSys [PressE 0; PressE 0; ResumeE 0; ResumeE 0] sys0 in
  awaiting (runSys [PressE 0; PressE 0] sys0) = [(0%nat, pad_F_over_G); (0%nat, pad_F_over_G)]
  /\ awaiting both = []
  /\ size (transport (page both)) = 8%nat
  /\ scheduleIds <$> activeHold (page both) !! 0%nat = Some [4; 5; 6; 7]%nat
  /\ activeHold (page (stepSys both (ReleaseE 0))) = ∅
  /\ size (transport (page (stepSys both (ReleaseE 0)))) = 4%nat
  /\ ~ HoldInv (page both).
Proof.
  cbv zeta. repeat split; try (vm_compute; reflexivity).
  intros [_ _ _ Hown _].
  assert (Hsome : is_Some (transport (page (runSys [PressE 0; PressE 0; ResumeE 0; ResumeE 0]
                                             sys0)) !! 0%nat))
    by (vm_compute; eauto).
  destruct (Hown 0%nat Hsome) as (idx & h & Hh & Hin).
  assert (Hact : activeHold (page (runSys [PressE 0; PressE 0; ResumeE 0; ResumeE 0] sys0))
                 = {[ 0%nat := {| h_notes := ["G3"; "A4"; "C5"; "F5"];
                                  scheduleIds := [4; 5; 6; 7]%nat |} ]})
    by (vm_compute; reflexivity).
  rewrite Hact in Hh. apply lookup_singleton_Some in Hh as [_ <-]. cbn in Hin.
  repeat (apply elem_of_cons in Hin as [Hin|Hin]; [discriminate|]).
  now apply elem_of_nil in Hin.
Qed.

(** A release that comes while the press still waits finds no hold and
    does nothing; the press then goes on and its hold stays. *)
Example release_during_the_await :
  let s := runSys [PressE 0; ReleaseE 0; ResumeE 0] sys0 in
  s = runSys [PressE 0; ResumeE 0] sys0
  /\ activeHold (page s) !! 0%nat = Some hold_F_over_G
  /\ size (transport (page s)) = 4%nat.
Proof. cbv zeta. repeat split; vm_compute; reflexivity. Qed.

(** * Further properties of the code *)

(** ** Placement ([lib/voicing.ts]) *)

Lemma raiseOctaves_least fuel m minMidi :
  (Z.to_nat (minMidi - m) <= fuel)%nat ->
  let r := raiseOctaves fuel m minMidi in
  minMidi <= r /\ m <= r /\ (r - m) mod 12 = 0
  /\ (m < minMidi -> r < minMidi + 12) /\ (minMidi <= m -> r = m).
Proof.
  revert m. induction fuel as [|fuel IH]; intros m Hfuel; simpl.
  - repeat split; try lia. now rewrite Z.sub_diag.
  - destruct (Z.ltb_spec m minMidi) as [Hlt|Hge].
    + destruct (IH (m + 12)) as (H1 & H2 & H3 & H4 & H5); [lia|].
      split; [exact H1|]. split; [lia|]. split; [|split; [|lia]].
      * replace (raiseOctaves fuel (m + 12) minMidi - m)
          with (raiseOctaves fuel (m + 12) minMidi - (m + 12) + 1 * 12) by lia.
        now rewrite Z.mod_add by lia.
      * intros _. destruct (Z.lt_ge_cases (m + 12) minMidi) as [Hl|Hg]; [now apply H4|].
        rewrite (H5 Hg). lia.
    + repeat split; try lia. now rewrite Z.sub_diag.
Qed.

Lemma nearestAbove_spec (midiFrom : string -> Z -> Z) (pc : string)
    (minMidi anchorOct : Z) :
  let m0 := midiFrom pc anchorOct in
  let m := nearestAbove midiFrom pc minMidi anchorOct in
  minMidi <= m /\ m0 <= m /\ (m - m0) mod 12 = 0
  /\ (m0 < minMidi -> m < minMidi + 12) /\ (minMidi <= m0 -> m = m0).
Proof. unfold nearestAbove. now apply raiseOctaves_least. Qed.

(** X1.  [nearestAbove] returns the least pitch of the pitch class's octave
    ladder, counted up from the anchor octave, that is not below
    [minMidi]: the anchor pitch itself when that is high enough, else a
    pitch less than an octave over [minMidi]. *)
Theorem nearestAbove_least (midiFrom : string -> Z -> Z) (pc : string)
    (minMidi anchorOct : Z) :
  let m0 := midiFrom pc anchorOct in
  let m := nearestAbove midiFrom pc minMidi anchorOct in
  minMidi <= m /\ m0 <= m /\ (m - m0) mod 12 = 0
  /\ (m0 < minMidi -> m < minMidi + 12) /\ (minMidi <= m0 -> m = m0).
Proof. exact (nearestAbove_spec midiFrom pc minMidi anchorOct). Qed.

Example nearestAbove_on_Tone :
  nearestAbove Tone.midiFrom "C" 71 4 = 72 /\ nearestAbove Tone.midiFrom "C" 30 4 = 60.
Proof. split; reflexivity. Qed.

Lemma placeEach_spec (midiFrom : string -> Z -> Z) pcs min oct :
  let placed := placeEach midiFrom pcs min oct in
  length placed = length pcs
  /\ Forall (fun m => min < m) placed
  /\ Sorted Z.lt placed
  /\ Forall2 (fun pc m => (m - midiFrom pc oct) mod 12 = 0) pcs placed.
Proof.
  revert min. induction pcs as [|pc pcs IH]; intros min; simpl.
  - repeat split; constructor.
  - destruct (IH (nearestAbove midiFrom pc (min + 1) oct + 1)) as (Hlen & Hall & Hs & Hmod).
    destruct (nearestAbove_spec midiFrom pc (min + 1) oct) as (Hge & _ & Hm & _).
    split; [now rewrite Hlen|]. split; [|split].
    + constructor; [lia|]. eapply Forall_impl; [exact Hall|]. simpl. intros; lia.
    + constructor; [exact Hs|].
      destruct Hall as [|x l Hx _]; constructor. lia.
    + constructor; assumption.
Qed.

Lemma buildClosedFromPcs_spec (midiFrom : string -> Z -> Z)
    (anchorPc : string) (pcs : list string) (centerOctave : Z) :
  let baseOct := Z.max 1 (centerOctave - 1) in
  let closed := buildClosedFromPcs midiFrom anchorPc pcs centerOctave in
  length closed = length pcs
  /\ Sorted Z.lt closed
  /\ Forall (fun m => midiFrom anchorPc baseOct <= m) closed
  /\ Forall2 (fun pc m => (m - midiFrom pc baseOct) mod 12 = 0) pcs closed.
Proof.
  unfold buildClosedFromPcs. destruct pcs as [|pc pcs].
  - simpl. repeat split; constructor.
  - cbv zeta.
    destruct (placeEach_spec midiFrom (pc :: pcs)
                (midiFrom anchorPc (Z.max 1 (centerOctave - 1)) - 1)
                (Z.max 1 (centerOctave - 1))) as (Hlen & Hall & Hs & Hmod).
    split; [exact Hlen|]. split; [exact Hs|]. split; [|exact Hmod].
    eapply Forall_impl; [exact Hall|]. simpl. intros; lia.
Qed.

(** X2.  The closed stack is strictly ascending, one pitch for each pitch class
    in order, each in its own pitch class (a whole number of octaves from
    the pitch of the base octave), and none below the anchor. *)
Theorem buildClosedFromPcs_ascending (midiFrom : string -> Z -> Z)
    (anchorPc : string) (pcs : list string) (centerOctave : Z) :
  let baseOct := Z.max 1 (centerOctave - 1) in
  let closed := buildClosedFromPcs midiFrom anchorPc pcs centerOctave in
  length closed = length pcs
  /\ Sorted Z.lt closed
  /\ Forall (fun m => midiFrom anchorPc baseOct <= m) closed
  /\ Forall2 (fun pc m => (m - midiFrom pc baseOct) mod 12 = 0) pcs closed.
Proof. exact (buildClosedFromPcs_spec midiFrom anchorPc pcs centerOctave). Qed.

Example buildClosedFromPcs_Cm7 :
  buildClosedFromPcs Tone.midiFrom "C" ["C"; "Eb"; "G"; "Bb"] 5 = [60; 63; 67; 70].
Proof. reflexivity. Qed.

(** ** Drops and crowding *)

(** X3.  Every drop keeps four voices, lowers the named ones by an octave and
    returns them in ascending order.  On a closed stack that spans less
    than an octave, the lowered voice is the new bass: drop-2 and drop-3
    put the second and the third voice from the top under the root, drop-4
    lowers the root, drop-2-and-4 puts the lowered root under the lowered
    second-from-top. *)
Theorem applyDrop_four_voices (v1 v2 v3 v4 : Z) :
  (forall kind,
      Sorted Z.le (applyDrop [v1; v2; v3; v4] kind)
      /\ Permutation (applyDrop [v1; v2; v3; v4] kind)
           match kind with
           | drop2 => [v1; v2; v3 - 12; v4]
           | drop3 => [v1; v2 - 12; v3; v4]
           | drop4 => [v1 - 12; v2; v3; v4]
           | drop24 => [v1 - 12; v2; v3 - 12; v4]
           end)
  /\ (v1 < v2 -> v2 < v3 -> v3 < v4 -> v4 < v1 + 12 ->
      applyDrop [v1; v2; v3; v4] drop2 = [v3 - 12; v1; v2; v4]
      /\ applyDrop [v1; v2; v3; v4] drop3 = [v2 - 12; v1; v3; v4]
      /\ applyDrop [v1; v2; v3; v4] drop4 = [v1 - 12; v2; v3; v4]
      /\ applyDrop [v1; v2; v3; v4] drop24 = [v1 - 12; v3 - 12; v2; v4]).
Proof.
  split.
  - intros kind. unfold applyDrop.
    destruct kind; (split; [apply sortZ_sorted|apply sortZ_perm]).
  - intros H12 H23 H34 Hoct. unfold applyDrop.
    repeat split; cbn [sortZ insertZ];
      repeat match goal with
             | |- context [?a <=? ?b] =>
                 destruct (Z.leb_spec a b); try lia; cbn [insertZ]
             end;
      reflexivity.
Qed.

Lemma applyDrop_four_voices_witness :
  applyDrop [60; 63; 67; 70] drop2 = [67 - 12; 60; 63; 70]
  /\ applyDrop [60; 63; 67; 70] drop3 = [63 - 12; 60; 67; 70]
  /\ applyDrop [60; 63; 67; 70] drop4 = [60 - 12; 63; 67; 70]
  /\ applyDrop [60; 63; 67; 70] drop24 = [60 - 12; 67 - 12; 63; 70].
Proof.
  apply (proj2 (applyDrop_four_voices 60 63 67 70)); lia.
Defined.

Lemma sliceLast_cons {A} (n : nat) (x : A) (l : list A) :
  (n <= length l)%nat -> sliceLast n (x :: l) = sliceLast n l.
Proof.
  intros Hn. unfold sliceLast. simpl length.
  replace (S (length l) - n)%nat with (S (length l - n)) by lia. reflexivity.
Qed.

Lemma sliceLast_all {A} (n : nat) (l : list A) :
  (length l <= n)%nat -> sliceLast n l = l.
Proof.
  intros Hn. unfold sliceLast. replace (length l - n)%nat with 0%nat by lia. reflexivity.
Qed.

Lemma sliceLast_map {A B} (f : A -> B) (n : nat) (l : list A) :
  sliceLast n (map f l) = map f (sliceLast n l).
Proof. unfold sliceLast. now rewrite length_map, skipn_map. Qed.

Lemma Math_min_map_add d l t :
  Math_min l = Some t -> Math_min (map (fun m => m + d) l) = Some (t + d).
Proof.
  intros Ht. apply Math_min_spec in Ht as [Hin Hle]. apply Math_min_spec. split.
  - apply in_map_iff. now exists t.
  - intros y Hy. apply in_map_iff in Hy as (x & <- & Hx). specialize (Hle x Hx). lia.
Qed.

(** X4.  With four pitches or more, the bass is not one of the three highest:
    after [clampLowMud] the three highest pitches are all at the floor or
    above, and a second pass changes nothing. *)
Theorem clampLowMud_clears_floor (l : list Z) (minTop : Z) :
  (4 <= length l)%nat ->
  let out := clampLowMud l minTop in
  (exists t, Math_min (sliceLast 3 out) = Some t /\ minTop <= t)
  /\ clampLowMud out minTop = out.
Proof.
  intros Hlen out.
  assert (Hout : exists t, Math_min (sliceLast 3 out) = Some t /\ minTop <= t).
  { subst out.
    destruct (clampLowMud_case l minTop) as [Hshort|_ Hclear|b rest t Hs Ht Hlt].
    - lia.
    - destruct (Math_min_is_Some (sliceLast 3 (sortZ l))) as [t Ht].
      { intros H. apply (f_equal (@length Z)) in H. unfold sliceLast in H.
        rewrite length_skipn, sortZ_length in H. simpl in H. lia. }
      exists t. split; [exact Ht|]. now apply Hclear.
    - assert (Hrest : (3 <= length rest)%nat).
      { apply (f_equal (@length Z)) in Hs. rewrite sortZ_length in Hs. simpl in Hs. lia. }
      rewrite Hs, sliceLast_cons in Ht by exact Hrest.
      exists (t + 12 * ceilDiv (minTop - t) 12). split.
      + rewrite sliceLast_cons by (now rewrite length_map).
        rewrite sliceLast_map. now apply Math_min_map_add.
      + pose proof (ceilDiv_12_least (minTop - t)) as [H _]. lia. }
  split; [exact Hout|].
  destruct Hout as (t & Ht & Hge).
  assert (Hsorted : sortZ out = out) by (apply sortZ_id, clampLowMud_sorted).
  unfold clampLowMud at 1. fold out.
  assert (Hl : length out = length l) by apply clampLowMud_length.
  destruct (Nat.ltb_spec (length out) 2) as [|_]; [reflexivity|].
  rewrite Hsorted, Ht.
  destruct (Z.geb_spec t minTop); [reflexivity|lia].
Qed.

Lemma clampLowMud_clears_floor_witness :
  let out := clampLowMud [57; 43; 52; 50] 55 in
  (exists t, Math_min (sliceLast 3 out) = Some t /\ 55 <= t)
  /\ clampLowMud out 55 = out.
Proof. apply (clampLowMud_clears_floor [57; 43; 52; 50] 55). simpl. lia. Defined.

(** X5.  With two or three pitches the bass is itself among "the three
    highest": the test looks at the bass, and the voices over it are raised,
    by the octaves the bass lacks to the floor, exactly when the bass is
    under the floor, wherever they stand themselves. *)
Theorem clampLowMud_few_voices (l : list Z) (minTop : Z) :
  (2 <= length l <= 3)%nat ->
  exists b rest,
    sortZ l = b :: rest
    /\ Math_min l = Some b
    /\ clampLowMud l minTop
       = if minTop <=? b then b :: rest
         else b :: map (fun m => m + 12 * ceilDiv (minTop - b) 12) rest.
Proof.
  intros Hlen.
  destruct (sortZ l) as [|b rest] eqn:Hs.
  { apply (f_equal (@length Z)) in Hs. rewrite sortZ_length in Hs. simpl in Hs. lia. }
  assert (Hmin : Math_min (sortZ l) = Some b).
  { rewrite Hs. apply Math_min_sorted. rewrite <- Hs. apply sortZ_sorted. }
  assert (Htop : sliceLast 3 (sortZ l) = sortZ l).
  { apply sliceLast_all. rewrite sortZ_length. lia. }
  exists b, rest. split; [reflexivity|]. split.
  { now rewrite <- (Math_min_perm _ _ (sortZ_perm l)). }
  unfold clampLowMud. destruct (Nat.ltb_spec (length l) 2) as [|_]; [lia|].
  rewrite Htop, Hmin, Hs.
  destruct (Z.geb_spec b minTop); destruct (Z.leb_spec minTop b); try lia; [reflexivity|].
  apply imap_raise_tail.
Qed.

Lemma clampLowMud_few_voices_witness :
  exists b rest,
    sortZ [64; 48; 72] = b :: rest
    /\ Math_min [64; 48; 72] = Some b
    /\ clampLowMud [64; 48; 72] 55
       = if 55 <=? b then b :: rest
         else b :: map (fun m => m + 12 * ceilDiv (55 - b) 12) rest.
Proof. apply (clampLowMud_few_voices [64; 48; 72] 55). simpl. lia. Defined.

Example clampLowMud_three_voices : clampLowMud [64; 48; 72] 55 = [48; 76; 84].
Proof. reflexivity. Qed.

(** ** The builder's results *)

Lemma applyDrop_length l kind : length (applyDrop l kind) = length l.
Proof.
  unfold applyDrop. destruct l as [|v1 [|v2 [|v3 [|v4 [|v5 l]]]]]; try reflexivity.
  destruct kind; now rewrite sortZ_length.
Qed.

Lemma noOmission_flags o :
  noOmission o ->
  match o with Some f => omit_root f | None => false end = false.
Proof.
  intros H. destruct o as [f|]; [|reflexivity].
  specialize (H root). simpl in H. now destruct (omit_root f).
Qed.

Section BuilderShape.

Variable Chord_get : string -> TonalChord.
Variable midiFrom : string -> Z -> Z.
Variable toNote : Z -> string.

Lemma presetMidis_length p c pr o :
  (length (presetMidis midiFrom p c pr o) <= 4)%nat
  /\ (noOmission o -> length (presetMidis midiFrom p c pr o) = 4%nat).
Proof.
  assert (Hpcs : (length (pcs1357 p o) <= 4)%nat
                 /\ (noOmission o -> length (pcs1357 p o) = 4%nat)).
  { unfold pcs1357, noOmission.
    split.
    - destruct (omitOk root o), (omitOk third o), (omitOk fifth o), (omitOk seventh o);
        simpl; lia.
    - intros H. rewrite !H. reflexivity. }
  assert (Hclosed : forall k,
             length (buildClosedFromPcs midiFrom (rootPc p) (pcs1357 p o) c) = k ->
             length (pcs1357 p o) = k).
  { intros k <-. symmetry.
    apply (buildClosedFromPcs_spec midiFrom (rootPc p) (pcs1357 p o) c). }
  assert (Hdrop : forall kind,
             length (dropPreset midiFrom p c o kind) = length (pcs1357 p o)).
  { intros kind. unfold dropPreset. rewrite clampLowMud_length, applyDrop_length.
    apply (buildClosedFromPcs_spec midiFrom (rootPc p) (pcs1357 p o) c). }
  assert (Hplaced : forall pcs minTop,
             length (placedPreset midiFrom p c pcs minTop) = length pcs).
  { intros pcs minTop. unfold placedPreset. rewrite clampLowMud_length.
    apply (placeEach_spec midiFrom pcs). }
  destruct pr; simpl presetMidis; rewrite ?Hdrop, ?Hplaced; try exact Hpcs.
  - (* triad *)
    unfold triadPreset. cbv zeta.
    split.
    + destruct o as [f|]; [destruct f as [[] [] [] ?]|]; cbn [omitOk omitFlag negb
        omit_root omit_third omit_fifth omit_seventh andb];
        try destruct (String.eqb _ _);
        cbn [pushIf negb andb]; rewrite clampLowMud_length; simpl; lia.
    + intros H. pose proof (noOmission_flags o H) as Hr.
      unfold noOmission in H. rewrite !H, Hr. cbn [andb negb pushIf].
      rewrite clampLowMud_length. reflexivity.
  - unfold noOmission. split.
    + destruct (omitOk root o), (omitOk third o), (omitOk seventh o); simpl; lia.
    + intros H. now rewrite !H.
  - unfold noOmission. split.
    + destruct (omitOk root o), (omitOk third o), (omitOk seventh o); simpl; lia.
    + intros H. now rewrite !H.
  - unfold noOmission. split.
    + destruct (omitOk third o), (omitOk seventh o); simpl; lia.
    + intros H. now rewrite !H.
Qed.

(** X6.  A result holds one to four pitches, and exactly four when no voice is
    asked away, whatever the chord and the preset (a chord that lacks a
    tone gets its substitute, never a gap). *)
Theorem buildPadVoicing_voice_count (sym : string) (centerOctave : Z)
    (pr : PadVoicingPreset) (shift : Z) (opts : VoicingOptions) (r : VoicingResult) :
  buildPadVoicing Chord_get midiFrom toNote sym centerOctave pr shift opts = Some r ->
  (1 <= length (midis r) <= 4)%nat
  /\ (noOmission (omit opts) -> length (midis r) = 4%nat).
Proof.
  unfold buildPadVoicing.
  destruct (parseChordSymbol Chord_get sym) as [p|]; [|discriminate].
  intros [= <-]. simpl. rewrite applyShift_length.
  destruct (presetMidis_length p centerOctave pr (omit opts)) as [Hle Hfour].
  destruct (presetMidis midiFrom p centerOctave pr (omit opts)) as [|m ms] eqn:Hm.
  - simpl. split; [lia|]. intros H. specialize (Hfour H). discriminate.
  - change (withFallback midiFrom p centerOctave (m :: ms)) with (m :: ms).
    split; [simpl in *; lia|exact Hfour].
Qed.

End BuilderShape.

Lemma buildPadVoicing_voice_count_witness :
  (1 <= length (midis result_Cm7_drop2_up_3) <= 4)%nat
  /\ (noOmission (omit noOmit) -> length (midis result_Cm7_drop2_up_3) = 4%nat).
Proof.
  apply (buildPadVoicing_voice_count Tonal.get Tone.midiFrom Tone.toNote
           "Cm7" 5 DROP2_1357_NO_BASS 3 noOmit result_Cm7_drop2_up_3).
  reflexivity.
Defined.

Section BuilderTones.

Variable Chord_get : string -> TonalChord.
Variable midiFrom : string -> Z -> Z.
Variable toNote : Z -> string.

(** X7.  The triad preset with no voice asked away: the bass first, in its own
    register two octaves under the centre (the crowding pass never moves
    it), then the third, the fifth and the closing root, each at least two
    semitones over the voice before, each in its pitch class. *)
Theorem triadPreset_shape (p : Parsed) (centerOctave : Z) (o : option OmitFlags) :
  noOmission o ->
  let r := tonic p in
  let bassPc := default r (slashBass p) in
  exists m3 m5 topR,
    presetMidis midiFrom p centerOctave PAD_TRIAD_BASS_35R o
    = [midiFrom bassPc (Z.max 1 (centerOctave - 2)); m3; m5; topR]
    /\ midiFrom bassPc (Z.max 1 (centerOctave - 2)) + 2 <= m3
    /\ m3 + 2 <= m5
    /\ m5 + 2 <= topR
    /\ (m3 - midiFrom (default r (thirdPc p)) (centerOctave - 1)) mod 12 = 0
    /\ (m5 - midiFrom (default r (fifthPc p)) (centerOctave - 1)) mod 12 = 0
    /\ (topR - midiFrom r centerOctave) mod 12 = 0.
Proof.
  intros Hno r bassPc. simpl presetMidis. unfold triadPreset. cbv zeta.
  pose proof (noOmission_flags o Hno) as Hr. unfold noOmission in Hno.
  rewrite !Hno, Hr. cbn [andb negb pushIf last]. cbn [app].
  unfold rootPc. fold r. fold bassPc.
  set (bass := midiFrom bassPc (Z.max 1 (centerOctave - 2))).
  set (a3 := nearestAbove midiFrom (default r (thirdPc p)) (bass + 2) (centerOctave - 1)).
  set (a5 := nearestAbove midiFrom (default r (fifthPc p)) (a3 + 2) (centerOctave - 1)).
  set (aR := nearestAbove midiFrom r (a5 + 2) centerOctave).
  destruct (nearestAbove_spec midiFrom (default r (thirdPc p)) (bass + 2) (centerOctave - 1))
    as (H3 & _ & M3 & _).
  destruct (nearestAbove_spec midiFrom (default r (fifthPc p)) (a3 + 2) (centerOctave - 1))
    as (H5 & _ & M5 & _).
  destruct (nearestAbove_spec midiFrom r (a5 + 2) centerOctave) as (HR & _ & MR & _).
  fold a3 in H3, M3, H5. fold a5 in H5, M5, HR. fold aR in HR, MR.
  assert (Hsorted : sortZ [bass; a3; a5; aR] = [bass; a3; a5; aR]).
  { apply sortZ_id. repeat constructor; lia. }
  destruct (clampLowMud_case [bass; a3; a5; aR] 55) as [Hlen|_ _|b rest t Hs Ht Hlt].
  - simpl in Hlen. lia.
  - rewrite Hsorted. exists a3, a5, aR. repeat split; assumption.
  - rewrite Hsorted in Hs. injection Hs as <- <-.
    pose proof (ceilDiv_12_least (55 - t)) as (Hd & _ & _).
    set (d := 12 * ceilDiv (55 - t) 12) in *.
    assert (Hshift : forall x y, (x - y) mod 12 = 0 -> (x + d - y) mod 12 = 0).
    { intros x y Hxy. replace (x + d - y) with (x - y + ceilDiv (55 - t) 12 * 12)
        by (unfold d; lia). now rewrite Z.mod_add by lia. }
    exists (a3 + d), (a5 + d), (aR + d). simpl map.
    repeat split; try lia; now apply Hshift.
Qed.

Lemma octaves_closed p m k :
  octavesFromChord midiFrom p m -> octavesFromChord midiFrom p (m + 12 * k).
Proof.
  intros (pc & oct & Hpc & Hm). exists pc, oct. split; [exact Hpc|].
  replace (m + 12 * k - midiFrom pc oct) with (m - midiFrom pc oct + k * 12) by lia.
  now rewrite Z.mod_add by lia.
Qed.

Lemma chordTone_default p (i : nat) (fallback : string) :
  chordTone p fallback -> chordTone p (default fallback (toneAt p i)).
Proof.
  intros Hf. unfold toneAt. destruct (notes p !! i) as [pc|] eqn:Hpc; [|exact Hf].
  right. left. simpl. apply list_elem_of_In, list_elem_of_lookup. eauto.
Qed.

Lemma nearestAbove_octaves p pc minMidi oct :
  chordTone p pc -> octavesFromChord midiFrom p (nearestAbove midiFrom pc minMidi oct).
Proof.
  intros Hpc. exists pc, oct. split; [exact Hpc|].
  apply (nearestAbove_spec midiFrom pc minMidi oct).
Qed.

Lemma placeEach_octaves p pcs min oct :
  Forall (chordTone p) pcs ->
  Forall (octavesFromChord midiFrom p) (placeEach midiFrom pcs min oct).
Proof.
  intros Hpcs. revert min. induction Hpcs as [|pc pcs Hpc _ IH]; intros min; simpl.
  - constructor.
  - constructor; [now apply nearestAbove_octaves|apply IH].
Qed.

Lemma sortZ_Forall (P : Z -> Prop) l : Forall P l -> Forall P (sortZ l).
Proof.
  intros H. rewrite Forall_forall in *. intros x Hx. apply H.
  apply list_elem_of_In. apply list_elem_of_In in Hx.
  now apply (Permutation_in _ (sortZ_perm l)).
Qed.

Lemma applyDrop_octaves p l kind :
  Forall (octavesFromChord midiFrom p) l ->
  Forall (octavesFromChord midiFrom p) (applyDrop l kind).
Proof.
  intros H. unfold applyDrop.
  destruct l as [|v1 [|v2 [|v3 [|v4 [|v5 l]]]]]; try exact H.
  assert (Hdown : forall m, octavesFromChord midiFrom p m ->
                            octavesFromChord midiFrom p (m - 12)).
  { intros m Hm. replace (m - 12) with (m + 12 * (-1)) by lia. now apply octaves_closed. }
  inversion H as [|? ? H1 H']; subst. inversion H' as [|? ? H2 H'']; subst.
  inversion H'' as [|? ? H3 H''']; subst. inversion H''' as [|? ? H4 _]; subst.
  destruct kind; apply sortZ_Forall; repeat constructor; auto.
Qed.

Lemma clampLowMud_octaves p l minTop :
  Forall (octavesFromChord midiFrom p) l ->
  Forall (octavesFromChord midiFrom p) (clampLowMud l minTop).
Proof.
  intros H. destruct (clampLowMud_case l minTop) as [_|_ _|b rest t Hs _ _].
  - exact H.
  - now apply sortZ_Forall.
  - apply sortZ_Forall in H. rewrite Hs in H. inversion H as [|? ? Hb Hrest]; subst.
    constructor; [exact Hb|]. apply Forall_map.
    eapply Forall_impl; [exact Hrest|]. intros m Hm. now apply octaves_closed.
Qed.

Lemma pushIf_Forall {A} (P : A -> Prop) (c : bool) (x : A) : P x -> Forall P (pushIf c x).
Proof. intros Hx. destruct c; simpl; [now constructor|constructor]. Qed.

Lemma presetMidis_octaves p c pr o :
  Forall (octavesFromChord midiFrom p) (presetMidis midiFrom p c pr o).
Proof.
  assert (Hr : chordTone p (rootPc p)) by now left.
  assert (H3 : chordTone p (default (rootPc p) (thirdPc p))) by now apply chordTone_default.
  assert (H5 : chordTone p (default (rootPc p) (fifthPc p))) by now apply chordTone_default.
  assert (H7 : chordTone p (default (default (rootPc p) (fifthPc p)) (seventhPc p)))
    by now apply chordTone_default.
  assert (H9 : chordTone p (default (default (rootPc p) (fifthPc p)) (ninthPc p)))
    by now apply chordTone_default.
  assert (H13 : chordTone p (default (default (rootPc p) (fifthPc p)) (thirteenthPc p)))
    by now apply chordTone_default.
  assert (Hbass : chordTone p (default (rootPc p) (slashBass p))).
  { destruct (slashBass p) as [b|] eqn:Hb; [|exact Hr]. right. right. exact Hb. }
  assert (Hpcs : Forall (chordTone p) (pcs1357 p o)).
  { unfold pcs1357. repeat apply Forall_app_2; now apply pushIf_Forall. }
  assert (Hdrop : forall kind,
             Forall (octavesFromChord midiFrom p) (dropPreset midiFrom p c o kind)).
  { intros kind. unfold dropPreset. apply clampLowMud_octaves, applyDrop_octaves.
    unfold buildClosedFromPcs. destruct (pcs1357 p o) eqn:E; [constructor|].
    rewrite <- E. apply placeEach_octaves. now rewrite E. }
  destruct pr; simpl presetMidis; try apply Hdrop.
  - unfold triadPreset. cbv zeta.
    assert (Hb : octavesFromChord midiFrom p
                   (midiFrom (default (rootPc p) (slashBass p)) (Z.max 1 (c - 2)))).
    { eexists _, _. split; [exact Hbass|]. now rewrite Z.sub_diag. }
    destruct (omitOk third o), (omitOk fifth o), (omitOk root o);
      apply clampLowMud_octaves;
      repeat apply Forall_app_2;
      first [ apply pushIf_Forall; exact Hb
            | constructor; [now apply nearestAbove_octaves|constructor] ].
  - unfold placedPreset. apply clampLowMud_octaves, placeEach_octaves.
    repeat apply Forall_app_2;
      first [ now apply pushIf_Forall
            | constructor;
              [assumption
              |first [ now apply pushIf_Forall
                     | constructor; [assumption|constructor]
                     | constructor ]] ].
  - unfold placedPreset. apply clampLowMud_octaves, placeEach_octaves.
    repeat apply Forall_app_2;
      first [ now apply pushIf_Forall
            | constructor;
              [assumption
              |first [ now apply pushIf_Forall
                     | constructor; [assumption|constructor]
                     | constructor ]] ].
  - unfold placedPreset. apply clampLowMud_octaves, placeEach_octaves.
    repeat apply Forall_app_2;
      first [ now apply pushIf_Forall
            | constructor;
              [assumption
              |first [ now apply pushIf_Forall
                     | constructor; [assumption|constructor]
                     | constructor ]] ].
Qed.

(** X8.  The builder moves voices by whole octaves only: every pitch of a
    result, the shift taken off, lies a whole number of octaves from a
    pitch class of the parsed chord (its tonic, one of its notes, or its
    slash bass). *)
Theorem buildPadVoicing_chord_tones_only (sym : string) (centerOctave : Z)
    (pr : PadVoicingPreset) (shift : Z) (opts : VoicingOptions) (r : VoicingResult) :
  buildPadVoicing Chord_get midiFrom toNote sym centerOctave pr shift opts = Some r ->
  exists p,
    parseChordSymbol Chord_get sym = Some p
    /\ Forall (fun m => octavesFromChord midiFrom p (m - shift)) (midis r).
Proof.
  unfold buildPadVoicing.
  destruct (parseChordSymbol Chord_get sym) as [p|]; [|discriminate].
  intros [= <-]. exists p. split; [reflexivity|]. simpl.
  rewrite applyShift_map. apply Forall_map.
  assert (H : Forall (octavesFromChord midiFrom p)
                (withFallback midiFrom p centerOctave
                   (presetMidis midiFrom p centerOctave pr (omit opts)))).
  { pose proof (presetMidis_octaves p centerOctave pr (omit opts)) as Hp.
    destruct (presetMidis midiFrom p centerOctave pr (omit opts)); [|exact Hp].
    simpl. constructor; [|constructor].
    eexists _, _. split; [|now rewrite Z.sub_diag].
    unfold fallbackPc. destruct (slashBass p) as [b|] eqn:Hb; [|now left].
    right. right. exact Hb. }
  eapply Forall_impl; [exact H|]. intros m Hm. simpl.
  now replace (m + shift - shift) with m by lia.
Qed.

End BuilderTones.

Lemma triadPreset_shape_witness :
  exists m3 m5 topR,
    presetMidis Tone.midiFrom parsed_C 5 PAD_TRIAD_BASS_35R None
    = [Tone.midiFrom "C" (Z.max 1 (5 - 2)); m3; m5; topR]
    /\ Tone.midiFrom "C" (Z.max 1 (5 - 2)) + 2 <= m3
    /\ m3 + 2 <= m5
    /\ m5 + 2 <= topR
    /\ (m3 - Tone.midiFrom (default "C" (thirdPc parsed_C)) (5 - 1)) mod 12 = 0
    /\ (m5 - Tone.midiFrom (default "C" (fifthPc parsed_C)) (5 - 1)) mod 12 = 0
    /\ (topR - Tone.midiFrom "C" 5) mod 12 = 0.
Proof.
  apply (triadPreset_shape Tone.midiFrom parsed_C 5 None).
  intros deg. reflexivity.
Defined.

Example triad_C_centre_5 :
  presetMidis Tone.midiFrom parsed_C 5 PAD_TRIAD_BASS_35R None = [48; 64; 67; 72].
Proof. reflexivity. Qed.

Lemma buildPadVoicing_chord_tones_only_witness :
  exists p,
    parseChordSymbol Tonal.get "Cm7" = Some p
    /\ Forall (fun m => octavesFromChord Tone.midiFrom p (m - 3))
         (midis result_Cm7_drop2_up_3).
Proof.
  apply (buildPadVoicing_chord_tones_only Tonal.get Tone.midiFrom Tone.toNote
           "Cm7" 5 DROP2_1357_NO_BASS 3 noOmit result_Cm7_drop2_up_3).
  reflexivity.
Defined.

(** ** Transposition and degrees *)

(** X9.  The signed difference does transpose [a] onto [b]: added to the
    semitone of [a] it gives, modulo 12, the semitone of [b].  Swapping the
    two keys negates it, but for the tritone, which goes down six semitones
    both ways. *)
Theorem signedSemitoneDiff_reaches (a b : string) :
  (pcToSemitone a + signedSemitoneDiff a b) mod 12 = pcToSemitone b
  /\ (signedSemitoneDiff a b + signedSemitoneDiff b a = 0
      \/ (signedSemitoneDiff a b = -6 /\ signedSemitoneDiff b a = -6)).
Proof.
  unfold signedSemitoneDiff. cbv zeta.
  pose proof (pcToSemitone_range a) as Ha.
  pose proof (pcToSemitone_range b) as Hb.
  set (x := pcToSemitone a) in *. set (y := pcToSemitone b) in *. clearbody x y.
  split.
  - Z.quot_rem_to_equations. Z.div_mod_to_equations. lia.
  - Z.quot_rem_to_equations. lia.
Qed.

Example signedSemitoneDiff_tritone :
  signedSemitoneDiff "C" "F#" = -6 /\ signedSemitoneDiff "F#" "C" = -6.
Proof. split; reflexivity. Qed.

Lemma degreeLoop_best diff mode :
  0 <= diff < 12 ->
  let b := degreeLoop diff degreeStart 0 (degreeIntervals mode) in
  exists base numeral,
    degreeIntervals mode !! bestIdx b = Some base
    /\ DEGREE_ROMAN !! bestIdx b = Some numeral
    /\ nth (bestIdx b) DEGREE_ROMAN "" = numeral
    /\ numeral <> ""
    /\ (base + bestDelta b) mod 12 = diff
    /\ (bestDelta b = 0 <-> In diff (degreeIntervals mode))
    /\ (bestDelta b = 0 \/ bestDelta b = 1
        \/ (bestDelta b = -1 /\ mode = key_minor /\ diff = 11 /\ bestIdx b = 0%nat)).
Proof.
  intros Hd.
  assert (H : diff = 0 \/ diff = 1 \/ diff = 2 \/ diff = 3 \/ diff = 4 \/ diff = 5
              \/ diff = 6 \/ diff = 7 \/ diff = 8 \/ diff = 9 \/ diff = 10 \/ diff = 11)
    by lia.
  destruct mode;
    repeat (destruct H as [->|H]); try subst diff;
    vm_compute; eexists _, _;
    (split; [reflexivity|]); (split; [reflexivity|]); (split; [reflexivity|]);
    (split; [discriminate|]); (split; [reflexivity|]);
    (split;
       [split;
        [intros Hz; first [discriminate Hz | clear; auto 20]
        |intros Hin;
         repeat (destruct Hin as [Hin|Hin]; try discriminate Hin);
         try reflexivity; try contradiction]|]);
    first [ left; reflexivity
          | right; left; reflexivity
          | right; right; repeat split; reflexivity ].
Qed.

Lemma append_empty (a b : string) : a +:+ b = "" -> a = "" /\ b = "".
Proof.
  destruct a as [|c a].
  - intros H. split; [reflexivity|exact H].
  - intros H. change (String c (a +:+ b) = "") in H. discriminate H.
Qed.

Lemma toLowerCase_nonempty s : s <> "" -> toLowerCase s <> "".
Proof.
  destruct s as [|c [|d s]]; [congruence|discriminate|].
  intros _. cbn [toLowerCase]. destruct (lower_pair c d) as [[? ?]|]; discriminate.
Qed.

Lemma toUpperCase_nonempty s : s <> "" -> toUpperCase s <> "".
Proof. destruct s; [congruence|discriminate]. Qed.

Lemma qualityToRomanCase_nonempty q base symbol :
  base <> "" -> qualityToRomanCase q base symbol <> "".
Proof.
  intros Hb. unfold qualityToRomanCase. cbv zeta.
  pose proof (toLowerCase_nonempty base Hb) as Hl.
  pose proof (toUpperCase_nonempty base Hb) as Hu.
  repeat match goal with
         | |- context [if ?c then _ else _] => destruct c
         end;
    try (intros H; apply append_empty in H as [H _]; contradiction).
  destruct q; assumption.
Qed.

Section RomanFacts.

Variable Chord_get : string -> TonalChord.

Lemma romanizeChord_parsed (sym : string) (key : KeySig) (p : Parsed) :
  parseChordSymbol Chord_get sym = Some p ->
  let diff := (pcToSemitone (tonic p) - pcToSemitone (key_tonic key)) mod 12 in
  exists (i : nat) base numeral delta,
    degreeIntervals (key_mode key) !! i = Some base
    /\ DEGREE_ROMAN !! i = Some numeral
    /\ (base + delta) mod 12 = diff
    /\ (delta = 0 <-> In diff (degreeIntervals (key_mode key)))
    /\ (delta = 0 \/ delta = 1
        \/ (delta = -1 /\ key_mode key = key_minor /\ diff = 11 /\ i = 0%nat))
    /\ romanizeChord Chord_get sym key
       = (if delta =? 0 then "" else if delta =? 1 then "#" else "b")
         +:+ qualityToRomanCase (qualityGuess p) numeral (core p)
         +:+ extensionOf (core p).
Proof.
  intros Hp diff. unfold romanizeChord. rewrite Hp. cbv zeta.
  pose proof (pcToSemitone_range (tonic p)) as Hc.
  pose proof (pcToSemitone_range (key_tonic key)) as Hk.
  assert (Hrem : Z.rem (pcToSemitone (tonic p) - pcToSemitone (key_tonic key) + 12) 12
                 = diff).
  { unfold diff. rewrite Z.rem_mod_nonneg by lia.
    replace (pcToSemitone (tonic p) - pcToSemitone (key_tonic key) + 12)
      with (pcToSemitone (tonic p) - pcToSemitone (key_tonic key) + 1 * 12) by lia.
    apply Z.mod_add. lia. }
  rewrite Hrem.
  assert (Hd : 0 <= diff < 12) by (apply Z.mod_pos_bound; lia).
  destruct (degreeLoop_best diff (key_mode key) Hd)
    as (base & numeral & Hbase & Hnum & Hnth & _ & Hsum & Hdia & Hdelta).
  change {| bestIdx := 0; bestDelta := 0; bestScore := 999 |} with degreeStart.
  set (b := degreeLoop diff degreeStart 0 (degreeIntervals (key_mode key))) in *.
  exists (bestIdx b), base, numeral, (bestDelta b).
  rewrite Hnth.
  repeat (split; [assumption|]).
  destruct Hdelta as [->|[->|(-> & _)]]; reflexivity.
Qed.

(** X10.  The numeral of a chord is a diatonic degree of the key, with at most
    one accidental: none exactly when the root is a step of the key's scale
    (natural minor for a minor key), else a sharp on the step just below
    the root; the one flat is the leading tone of a minor key, written as
    a flattened first degree.  Two accidentals never appear. *)
Theorem romanizeChord_degree (sym : string) (key : KeySig) (p : Parsed) :
  parseChordSymbol Chord_get sym = Some p ->
  let diff := (pcToSemitone (tonic p) - pcToSemitone (key_tonic key)) mod 12 in
  exists (i : nat) base numeral delta,
    degreeIntervals (key_mode key) !! i = Some base
    /\ DEGREE_ROMAN !! i = Some numeral
    /\ (base + delta) mod 12 = diff
    /\ (delta = 0 <-> In diff (degreeIntervals (key_mode key)))
    /\ (delta = 0 \/ delta = 1
        \/ (delta = -1 /\ key_mode key = key_minor /\ diff = 11 /\ i = 0%nat))
    /\ romanizeChord Chord_get sym key
       = (if delta =? 0 then "" else if delta =? 1 then "#" else "b")
         +:+ qualityToRomanCase (qualityGuess p) numeral (core p)
         +:+ extensionOf (core p).
Proof. exact (romanizeChord_parsed sym key p). Qed.

Lemma romanizeChord_empty (sym : string) (key : KeySig) :
  romanizeChord Chord_get sym key = "" <-> parseChordSymbol Chord_get sym = None.
Proof.
  split.
  - intros Hempty. destruct (parseChordSymbol Chord_get sym) as [p|] eqn:Hp; [|reflexivity].
    exfalso.
    pose proof (pcToSemitone_range (tonic p)) as Hc.
    pose proof (pcToSemitone_range (key_tonic key)) as Hk.
    destruct (romanizeChord_parsed sym key p Hp)
      as (i & base & numeral & delta & _ & Hnum & _ & _ & _ & Heq).
    rewrite Heq in Hempty. apply append_empty in Hempty as [_ Hempty].
    apply append_empty in Hempty as [Hempty _].
    revert Hempty. apply qualityToRomanCase_nonempty.
    intros ->. apply list_elem_of_lookup_2, list_elem_of_In in Hnum.
    simpl in Hnum. intuition discriminate.
  - intros Hp. unfold romanizeChord. now rewrite Hp.
Qed.

(** X11.  The label is empty exactly when the symbol does not parse: a chord
    that parses always gets a numeral. *)
Theorem romanizeChord_empty_iff (sym : string) (key : KeySig) :
  romanizeChord Chord_get sym key = "" <-> parseChordSymbol Chord_get sym = None.
Proof. exact (romanizeChord_empty sym key). Qed.

End RomanFacts.

Lemma romanizeChord_degree_witness :
  let diff := (pcToSemitone (tonic parsed_C) - pcToSemitone (key_tonic key_C_major)) mod 12 in
  exists (i : nat) base numeral delta,
    degreeIntervals (key_mode key_C_major) !! i = Some base
    /\ DEGREE_ROMAN !! i = Some numeral
    /\ (base + delta) mod 12 = diff
    /\ (delta = 0 <-> In diff (degreeIntervals (key_mode key_C_major)))
    /\ (delta = 0 \/ delta = 1
        \/ (delta = -1 /\ key_mode key_C_major = key_minor /\ diff = 11 /\ i = 0%nat))
    /\ romanizeChord Tonal.get "C" key_C_major
       = (if delta =? 0 then "" else if delta =? 1 then "#" else "b")
         +:+ qualityToRomanCase (qualityGuess parsed_C) numeral (core parsed_C)
         +:+ extensionOf (core parsed_C).
Proof. apply (romanizeChord_degree Tonal.get "C" key_C_major parsed_C). reflexivity. Defined.

Example romanize_sharp_not_flat :
  romanizeChord Tonal.get "Dbm7" key_C_major = "#i7".
Proof. vm_compute. reflexivity. Qed.

Example romanize_minor_leading_tone :
  romanizeChord Tonal.get "C" {| key_tonic := "Db"; key_mode := key_minor |} = "bI".
Proof. vm_compute. reflexivity. Qed.

(** ** The slash bass *)

Lemma includes_char_cons (c a : ascii) (s : string) :
  includes (String c "") (String a s) = true <-> c = a \/ includes (String c "") s = true.
Proof.
  change (includes (String c "") (String a s))
    with (String.prefix (String c "") (String a s) || includes (String c "") s).
  rewrite orb_true_iff. cbn [String.prefix].
  destruct (ascii_dec c a) as [->|Hne].
  - split; [now left|]. intros _. left. now destruct s.
  - split; (intros [H|H]; [|now right]); [discriminate|contradiction].
Qed.

Lemma includes_char_In (c : ascii) (s : string) :
  includes (String c "") s = true <-> In c (list_ascii_of_string s).
Proof.
  induction s as [|a s IH].
  - cbn. split; [discriminate|tauto].
  - rewrite includes_char_cons, IH. simpl. intuition.
Qed.

Lemma trimStart_chars c s :
  In c (list_ascii_of_string (trimStart s)) -> In c (list_ascii_of_string s).
Proof.
  induction s as [|a s IH]; simpl; [tauto|].
  destruct (is_space a); [right; now apply IH|trivial].
Qed.

Lemma rev_string_chars c s :
  In c (list_ascii_of_string (rev_string s)) <-> In c (list_ascii_of_string s).
Proof.
  unfold rev_string. rewrite list_ascii_of_string_of_list_ascii. symmetry. apply in_rev.
Qed.

Lemma trim_chars c s :
  In c (list_ascii_of_string (trim s)) -> In c (list_ascii_of_string s).
Proof.
  unfold trim, trimEnd. intros H.
  apply (proj1 (rev_string_chars c _)) in H.
  apply trimStart_chars in H.
  apply (proj1 (rev_string_chars c _)) in H.
  now apply trimStart_chars.
Qed.

Lemma slashTail_Some r b :
  slashTail r = Some b ->
  is_bass b = true /\ In "/"%char (list_ascii_of_string r).
Proof.
  unfold slashTail. destruct (trimStart r) as [|c r'] eqn:Hr; [discriminate|].
  destruct (Ascii.eqb_spec c "/"%char) as [->|]; [|discriminate].
  destruct (is_bass (trimStart r')) eqn:Hb; [|discriminate].
  intros [= <-]. split; [exact Hb|].
  apply trimStart_chars. rewrite Hr. now left.
Qed.

Lemma lazyCore_Some seen rest m1 m2 :
  lazyCore seen rest = Some (m1, m2) ->
  is_bass m2 = true /\ In "/"%char (list_ascii_of_string rest).
Proof.
  revert seen. induction rest as [|c rest IH]; intros seen; cbn [lazyCore].
  - destruct (slashTail "") as [b|] eqn:Hb; [|discriminate].
    intros [= _ <-]. now apply slashTail_Some in Hb.
  - destruct (slashTail (String c rest)) as [b|] eqn:Hb.
    + intros [= _ <-]. now apply slashTail_Some in Hb.
    + destruct (is_dot c); [|discriminate]. intros H. apply IH in H as [Hbass Hin].
      split; [exact Hbass|]. now right.
Qed.

Lemma letter_cases l :
  in_range 65 71 l || in_range 97 103 l = true ->
  In l ["A"; "B"; "C"; "D"; "E"; "F"; "G"; "a"; "b"; "c"; "d"; "e"; "f"; "g"]%char.
Proof.
  intros H. rewrite <- (ascii_N_embedding l). fold (code l).
  apply orb_true_iff in H as [H|H]; apply in_range_spec in H.
  - assert (Hc : (code l = 65 \/ code l = 66 \/ code l = 67 \/ code l = 68
                  \/ code l = 69 \/ code l = 70 \/ code l = 71)%N) by lia.
    repeat (destruct Hc as [->|Hc]); try rewrite Hc; vm_compute; tauto.
  - assert (Hc : (code l = 97 \/ code l = 98 \/ code l = 99 \/ code l = 100
                  \/ code l = 101 \/ code l = 102 \/ code l = 103)%N) by lia.
    repeat (destruct Hc as [->|Hc]); try rewrite Hc; vm_compute; tauto.
Qed.

Lemma is_bass_cases b :
  is_bass b = true ->
  exists l rest,
    b = String l rest
    /\ In l ["A"; "B"; "C"; "D"; "E"; "F"; "G"; "a"; "b"; "c"; "d"; "e"; "f"; "g"]%char
    /\ In rest [""; "b"; "#"].
Proof.
  destruct b as [|l rest]; [discriminate|]. cbn [is_bass].
  intros H. apply andb_true_iff in H as [Hl Hrest].
  exists l, rest. split; [reflexivity|]. split; [now apply letter_cases|].
  destruct rest as [|a [|? ?]]; [now left| |discriminate].
  apply orb_true_iff in Hrest as [H|H]; apply Ascii.eqb_eq in H; subst a; simpl; tauto.
Qed.

(** X12.  A slash bass, when [splitSlash] finds one, is a plain note name: a
    capital letter from A to G with at most one accidental, [b] or [#]
    (the letter raised if it was typed small); and it is found only in an
    input that holds a slash. *)
Theorem splitSlash_bass (input coreSymbol bass : string) :
  splitSlash input = (coreSymbol, Some bass) ->
  (exists letter acc,
      In letter ["A"; "B"; "C"; "D"; "E"; "F"; "G"]
      /\ In acc [""; "b"; "#"]
      /\ bass = letter +:+ acc)
  /\ includes "/" input = true.
Proof.
  unfold splitSlash. destruct (matchSlash (trim input)) as [[m1 m2]|] eqn:Hm; [|discriminate].
  intros [= _ <-].
  assert (H : is_bass m2 = true /\ In "/"%char (list_ascii_of_string (trim input))).
  { unfold matchSlash in Hm. destruct (trim input) as [|c rest]; [discriminate|].
    destruct (is_dot c); [|discriminate].
    apply lazyCore_Some in Hm as [Hb Hin]. split; [exact Hb|now right]. }
  destruct H as [Hb Hin]. split.
  - apply is_bass_cases in Hb as (l & rest & -> & Hl & Hrest).
    exists (String (upper_ascii l) ""), rest.
    simpl in Hl, Hrest.
    repeat (destruct Hl as [<-|Hl]); try contradiction;
      repeat (destruct Hrest as [<-|Hrest]); try contradiction;
      vm_compute; tauto.
  - apply includes_char_In. now apply trim_chars.
Qed.

Lemma splitSlash_bass_witness :
  (exists letter acc,
      In letter ["A"; "B"; "C"; "D"; "E"; "F"; "G"]
      /\ In acc [""; "b"; "#"]
      /\ "Ab" = letter +:+ acc)
  /\ includes "/" " Dbm7 / ab " = true.
Proof. apply (splitSlash_bass " Dbm7 / ab " "Dbm7" "Ab"). reflexivity. Defined.

(** ** The note scheduler, further *)

Local Open Scope Q_scope.

Lemma Math_maxQ_cases a b : (a <= b /\ Math_maxQ a b = b) \/ (b < a /\ Math_maxQ a b = a).
Proof.
  unfold Math_maxQ. destruct (Qle_bool a b) eqn:H.
  - left. split; [now apply Qle_bool_iff|reflexivity].
  - right. split; [|reflexivity]. apply Qnot_le_lt. intros Hle.
    apply Qle_bool_iff in Hle. congruence.
Qed.

Lemma Math_minQ_cases a b : (a <= b /\ Math_minQ a b = a) \/ (b < a /\ Math_minQ a b = b).
Proof.
  unfold Math_minQ. destruct (Qle_bool a b) eqn:H.
  - left. split; [now apply Qle_bool_iff|reflexivity].
  - right. split; [|reflexivity]. apply Qnot_le_lt. intros Hle.
    apply Qle_bool_iff in Hle. congruence.
Qed.

Lemma clamp_range x lo hi : lo <= hi -> lo <= clamp x lo hi /\ clamp x lo hi <= hi.
Proof.
  intros Hlh. unfold clamp.
  destruct (Math_minQ_cases hi x) as [[H1 ->]|[H1 ->]];
    destruct (Math_maxQ_cases lo hi) as [[H2 E2]|[H2 E2]];
    destruct (Math_maxQ_cases lo x) as [[H3 E3]|[H3 E3]];
    rewrite ?E2, ?E3; lra.
Qed.

Lemma clamp_inside x lo hi : lo <= x -> x <= hi -> clamp x lo hi == x.
Proof.
  intros Hl Hh. unfold clamp.
  destruct (Math_minQ_cases hi x) as [[H1 ->]|[H1 ->]];
    destruct (Math_maxQ_cases lo hi) as [[H2 E2]|[H2 E2]];
    destruct (Math_maxQ_cases lo x) as [[H3 E3]|[H3 E3]];
    rewrite ?E2, ?E3; lra.
Qed.

Lemma clamp_mono x y lo hi : x <= y -> clamp x lo hi <= clamp y lo hi.
Proof.
  intros Hxy. unfold clamp.
  destruct (Math_minQ_cases hi x) as [[H1 ->]|[H1 ->]];
    destruct (Math_minQ_cases hi y) as [[H1' ->]|[H1' ->]];
    destruct (Math_maxQ_cases lo hi) as [[H2 E2]|[H2 E2]];
    destruct (Math_maxQ_cases lo x) as [[H3 E3]|[H3 E3]];
    destruct (Math_maxQ_cases lo y) as [[H4 E4]|[H4 E4]];
    rewrite ?E2, ?E3, ?E4; lra.
Qed.

Lemma normalizePerf_bounds (perf : PerformanceSettings) :
  let p := normalizePerf perf in
  (0 <= n_strumMs p
   /\ 10 <= n_arpStepMs p
   /\ 1 # 10 <= n_arpGate p <= 1
   /\ 0 <= n_timingJitterMs p
   /\ 0 <= n_velocityHumanize p
   /\ 5 # 100 <= n_baseVelocity p <= 1
   /\ 0 <= n_topBoost p <= 1)
  /\ (forall x, strumMs perf = Some x -> 0 <= x -> n_strumMs p == x)
  /\ (forall x, arpStepMs perf = Some x -> 10 <= x -> n_arpStepMs p == x)
  /\ (forall x, arpGate perf = Some x -> 1 # 10 <= x <= 1 -> n_arpGate p == x)
  /\ (forall x, timingJitterMs perf = Some x -> 0 <= x -> n_timingJitterMs p == x)
  /\ (forall x, velocityHumanize perf = Some x -> 0 <= x -> n_velocityHumanize p == x)
  /\ (forall x, baseVelocity perf = Some x -> 5 # 100 <= x <= 1 -> n_baseVelocity p == x)
  /\ (forall x, topBoost perf = Some x -> 0 <= x <= 1 -> n_topBoost p == x).
Proof.
  cbv zeta. unfold normalizePerf. cbn [n_strumMs n_arpStepMs n_arpGate n_timingJitterMs
    n_velocityHumanize n_baseVelocity n_topBoost].
  split.
  - repeat split;
      try apply Math_maxQ_lower;
      try (apply clamp_range; lra).
  - repeat split; intros x -> Hx; cbn [default];
      first [ destruct Hx as [Hlo Hhi]; apply clamp_inside; assumption
            | rewrite Math_maxQ_right by exact Hx; reflexivity ].
Qed.

(** X13.  Whatever the settings, the normalised ones are in range; and a finite
    setting that is in range already is kept. *)
Theorem normalizePerf_ranges (perf : PerformanceSettings) :
  let p := normalizePerf perf in
  (0 <= n_strumMs p
   /\ 10 <= n_arpStepMs p
   /\ 1 # 10 <= n_arpGate p <= 1
   /\ 0 <= n_timingJitterMs p
   /\ 0 <= n_velocityHumanize p
   /\ 5 # 100 <= n_baseVelocity p <= 1
   /\ 0 <= n_topBoost p <= 1)
  /\ (forall x, strumMs perf = Some x -> 0 <= x -> n_strumMs p == x)
  /\ (forall x, arpStepMs perf = Some x -> 10 <= x -> n_arpStepMs p == x)
  /\ (forall x, arpGate perf = Some x -> 1 # 10 <= x <= 1 -> n_arpGate p == x)
  /\ (forall x, timingJitterMs perf = Some x -> 0 <= x -> n_timingJitterMs p == x)
  /\ (forall x, velocityHumanize perf = Some x -> 0 <= x -> n_velocityHumanize p == x)
  /\ (forall x, baseVelocity perf = Some x -> 5 # 100 <= x <= 1 -> n_baseVelocity p == x)
  /\ (forall x, topBoost perf = Some x -> 0 <= x <= 1 -> n_topBoost p == x).
Proof. exact (normalizePerf_bounds perf). Qed.

Lemma normalizePerf_ranges_witness :
  let perf := plainPerf arp arp_1357 dir_up 20 90 in
  let p := normalizePerf perf in
  (0 <= n_strumMs p
   /\ 10 <= n_arpStepMs p
   /\ 1 # 10 <= n_arpGate p <= 1
   /\ 0 <= n_timingJitterMs p
   /\ 0 <= n_velocityHumanize p
   /\ 5 # 100 <= n_baseVelocity p <= 1
   /\ 0 <= n_topBoost p <= 1)
  /\ n_arpStepMs p == 90.
Proof.
  intros perf p.
  destruct (normalizePerf_ranges perf) as (Hr & _ & Hstep & _).
  split; [exact Hr|]. apply Hstep; [reflexivity|discriminate].
Defined.

Example normalizePerf_out_of_range :
  let p := normalizePerf {| strumMs := Some (-5); direction := None; playMode := None;
                            arpPattern := None; arpStepMs := None; arpGate := Some 3;
                            timingJitterMs := None; velocityHumanize := Some (-1);
                            baseVelocity := Some 0; topBoost := Some 2 |} in
  (n_strumMs p, n_direction p, n_playMode p, n_arpPattern p, n_arpStepMs p, n_arpGate p,
   n_timingJitterMs p, n_velocityHumanize p, n_baseVelocity p, n_topBoost p)
  = (0, dir_up, chord, arp_up, 90, 1, 0, 0, 5 # 100, 1).
Proof. reflexivity. Qed.

Lemma mapM_elem {A B} (f : A -> nat -> Rand B) i l tape y :
  In y (fst (mapM f i l tape)) ->
  exists x idx tape', In x l /\ y = fst (f x idx tape').
Proof.
  intros Hin. apply list_elem_of_In, list_elem_of_lookup in Hin as [k Hk].
  apply mapM_lookup in Hk as (x & tape' & Hx & ->).
  exists x, (i + k)%nat, tape'. split; [|reflexivity].
  apply list_elem_of_In, list_elem_of_lookup. eauto.
Qed.

(** The step of the arpeggio in seconds, the length of an arpeggio note and
    the clamped one-shot length, as [buildNoteEvents] computes them. *)
Lemma buildNoteEvents_run_full notes midis perf dur tape :
  notes <> [] -> length notes = length midis ->
  let p := normalizePerf perf in
  let oneShot := clamp (default (85 # 100) dur) (5 # 100) 10 in
  let arpStepSec := match n_playMode p with arp => n_arpStepMs p / 1000 | chord => 0 end in
  let arpDurSec := Math_minQ oneShot (Math_maxQ (5 # 100) (arpStepSec * n_arpGate p)) in
  exists playOrder tape',
    (playOrder, tape')
    = match n_playMode p with
      | arp => orderForArp (makeItems notes midis) (n_arpPattern p) tape
      | chord => orderForChord (makeItems notes midis) (n_direction p) tape
      end
    /\ fst (buildNoteEvents notes midis perf dur tape)
       = fst (mapM (makeEvent p (makeDelays p (length playOrder)) arpDurSec oneShot)
                0 playOrder tape').
Proof.
  intros Hne Hlen. cbv zeta. unfold buildNoteEvents.
  assert (Hguard : (length notes =? 0)%nat || negb (length notes =? length midis)%nat
                   = false).
  { rewrite <- Hlen, Nat.eqb_refl. destruct notes; [congruence|reflexivity]. }
  rewrite Hguard. cbv zeta. unfold bind at 1.
  destruct (match n_playMode (normalizePerf perf) with
            | chord => orderForChord (makeItems notes midis) (n_direction (normalizePerf perf))
            | arp => orderForArp (makeItems notes midis) (n_arpPattern (normalizePerf perf))
            end tape) as [playOrder tape'] eqn:Horder.
  exists playOrder, tape'. split; [|reflexivity].
  destruct (n_playMode (normalizePerf perf)); now rewrite Horder.
Qed.



Lemma buildNoteEvents_length (notes : list string) (midis : list Z)
    (perf : PerformanceSettings) (dur : option Q) (tape : list Q) :
  (notes = [] \/ length notes <> length midis ->
   buildNoteEvents notes midis perf dur tape = ([], tape))
  /\ (notes <> [] -> length notes = length midis ->
      length (fst (buildNoteEvents notes midis perf dur tape)) = length notes).
Proof.
  split.
  - intros H. unfold buildNoteEvents.
    assert (Hguard : (length notes =? 0)%nat || negb (length notes =? length midis)%nat
                     = true).
    { destruct H as [->|H]; [reflexivity|].
      apply orb_true_iff. right. apply negb_true_iff. now apply Nat.eqb_neq. }
    now rewrite Hguard.
  - intros Hne Hlen.
    destruct (buildNoteEvents_run notes midis perf dur tape Hne Hlen)
      as (playOrder & arpDur & oneShot & tape' & HP & _ & ->).
    rewrite mapM_length, (Permutation_length HP).
    unfold makeItems. now rewrite length_imap.
Qed.

(** X15.  Notes and pitches that are empty, or not as many, give no event and
    draw nothing; otherwise there is one event for each note. *)
Theorem buildNoteEvents_count (notes : list string) (midis : list Z)
    (perf : PerformanceSettings) (dur : option Q) (tape : list Q) :
  (notes = [] \/ length notes <> length midis ->
   buildNoteEvents notes midis perf dur tape = ([], tape))
  /\ (notes <> [] -> length notes = length midis ->
      length (fst (buildNoteEvents notes midis perf dur tape)) = length notes).
Proof. exact (buildNoteEvents_length notes midis perf dur tape). Qed.

Lemma buildNoteEvents_count_witness :
  buildNoteEvents ["C4"; "E4"] [60]%Z (plainPerf chord arp_up dir_up 20 90) None [1 # 2]
  = ([], [1 # 2])
  /\ length (fst (buildNoteEvents ["C4"; "E4"] [60; 64]%Z
                    (plainPerf chord arp_up dir_up 20 90) None [1 # 2])) = 2%nat.
Proof.
  destruct (buildNoteEvents_count ["C4"; "E4"] [60]%Z
              (plainPerf chord arp_up dir_up 20 90) None [1 # 2]) as [Hnone _].
  destruct (buildNoteEvents_count ["C4"; "E4"] [60; 64]%Z
              (plainPerf chord arp_up dir_up 20 90) None [1 # 2]) as [_ Hsome].
  split.
  - apply Hnone. right. simpl. lia.
  - apply Hsome; [discriminate|reflexivity].
Defined.







Lemma makeEvent_velocity p delays arpDur oneShot it idx tape :
  n_velocityHumanize p <= 0 ->
  let e := fst (makeEvent p delays arpDur oneShot it idx tape) in
  isTop e = it_isTop it
  /\ velocity e
     = clamp01 (if it_isTop it && (if Qlt_le_dec 0 (n_topBoost p) then true else false)
                then n_baseVelocity p * (1 + n_topBoost p)
                else n_baseVelocity p).
Proof.
  intros Hh. unfold makeEvent, bind, randBetween, bind, ret.
  destruct (Qlt_le_dec 0 (n_velocityHumanize p)) as [Hlt|_].
  { exfalso. apply (Qlt_not_le _ _ Hlt Hh). }
  destruct (Qlt_le_dec 0 (n_timingJitterMs p));
    repeat (destruct (Math_random _)); split; reflexivity.
Qed.

(** X17.  With no humanising of the velocity, the notes that are not the top
    note all sound at the base velocity, and a top note is never softer
    than any other note. *)
Theorem buildNoteEvents_top_not_softer (notes : list string) (midis : list Z)
    (perf : PerformanceSettings) (dur : option Q) (tape : list Q) :
  let p := normalizePerf perf in
  let evs := fst (buildNoteEvents notes midis perf dur tape) in
  n_velocityHumanize p <= 0 ->
  (forall e, In e evs -> isTop e = false -> velocity e = clamp01 (n_baseVelocity p))
  /\ (forall e e', In e evs -> In e' evs -> isTop e = true -> velocity e' <= velocity e).
Proof.
  intros p evs Hh.
  assert (Hev : forall e, In e evs ->
            velocity e
            = clamp01 (if isTop e && (if Qlt_le_dec 0 (n_topBoost p) then true else false)
                       then n_baseVelocity p * (1 + n_topBoost p)
                       else n_baseVelocity p)).
  { intros e He. subst evs.
    destruct (decide (notes <> [] /\ length notes = length midis)) as [[Hne Hlen]|Hno].
    - destruct (buildNoteEvents_run_full notes midis perf dur tape Hne Hlen)
        as (playOrder & tape' & _ & Hevs).
      rewrite Hevs in He. apply mapM_elem in He as (it & idx & tape'' & _ & ->).
      match goal with
      | |- context [makeEvent ?a ?b ?c ?d ?e ?f ?g] =>
          destruct (makeEvent_velocity a b c d e f g Hh) as [-> ->]
      end. reflexivity.
    - destruct (buildNoteEvents_length notes midis perf dur tape) as [Hnone _].
      rewrite Hnone in He; [contradiction|].
      destruct notes as [|n notes]; [now left|]. right. intros Heq. apply Hno.
      split; [discriminate|exact Heq]. }
  destruct (proj1 (normalizePerf_bounds perf)) as (_ & _ & _ & _ & _ & [Hb _] & [Ht _]).
  fold p in Hb, Ht.
  split.
  - intros e He Htop. rewrite (Hev e He), Htop. reflexivity.
  - intros e e' He He' Htop. rewrite (Hev e He), (Hev e' He'), Htop.
    unfold clamp01. apply clamp_mono.
    destruct (Qlt_le_dec 0 (n_topBoost p)) as [Hpos|_]; cbn [andb].
    + destruct (isTop e'); cbn [andb]; [apply Qle_refl|]. nra.
    + destruct (isTop e'); cbn [andb]; apply Qle_refl.
Qed.

Lemma buildNoteEvents_top_not_softer_witness :
  let perf := plainPerf chord arp_up dir_up 30 90 in
  let p := normalizePerf perf in
  let evs := fst (buildNoteEvents ["G4"; "C4"; "B4"] [67; 60; 71]%Z perf None []) in
  (forall e, In e evs -> isTop e = false -> velocity e = clamp01 (n_baseVelocity p))
  /\ (forall e e', In e evs -> In e' evs -> isTop e = true -> velocity e' <= velocity e).
Proof.
  apply (buildNoteEvents_top_not_softer ["G4"; "C4"; "B4"] [67; 60; 71]%Z
           (plainPerf chord arp_up dir_up 30 90) None []).
  discriminate.
Defined.

Local Close Scope Q_scope.

(** ** Pad holds, further *)

Lemma scheduleEvents_lookup events (t : gmap nat Attack) next :
  let '(t', next', ids) := scheduleEvents events t next in
  (forall id, (id < next)%nat -> t' !! id = t !! id)
  /\ (forall k ev, events !! k = Some ev ->
        t' !! (next + k)%nat
        = Some {| at_note := note ev; at_velocity := velocity ev;
                  at_delaySec := (Math_maxQ 0 (delayMs ev) / 1000)%Q |}).
Proof.
  revert t next. induction events as [|ev events IH]; intros t next; simpl.
  - split; [reflexivity|]. intros k ev. discriminate.
  - specialize (IH (<[next := {| at_note := note ev; at_velocity := velocity ev;
                                 at_delaySec := (Math_maxQ 0 (delayMs ev) / 1000)%Q |}]> t)
                   (S next)).
    destruct (scheduleEvents events _ (S next)) as [[t' next'] ids].
    destruct IH as [Hold Hnew]. split.
    + intros id Hid. rewrite Hold by lia. apply lookup_insert_ne. lia.
    + intros [|k] ev' Hk; simpl in Hk.
      * injection Hk as <-. rewrite Nat.add_0_r, Hold by lia. apply lookup_insert_eq.
      * rewrite Nat.add_succ_r. apply (Hnew k ev' Hk).
Qed.

(** A press that goes on at once and the release after it leave the
    holds, the highlighted pads and the waiting callbacks as they were. *)
Lemma press_release_atomic (idx : nat) (st : Page) :
  HoldRecords st ->
  activeHold st !! idx = None ->
  let st' := stopHoldByIndex idx (startHoldByIndex idx st) in
  activeHold st' = activeHold st
  /\ holdMidis st' = holdMidis st
  /\ transport st' = transport st.
Proof.
  intros [Hold _ _ Hviz] Hfree st'. subst st'.
  assert (Hviz' : holdMidis st !! idx = None).
  { apply not_elem_of_dom. rewrite Hviz. now apply not_elem_of_dom. }
  unfold startHoldByIndex, startHoldBegin.
  destruct (startGuard idx st) as [p|] eqn:Hg.
  2:{ unfold stopHoldByIndex. rewrite Hfree. repeat split. }
  unfold startHoldResume. simpl.
  destruct (buildNoteEvents _ _ _ _ _) as [events tape'].
  pose proof (scheduleEvents_spec events (transport st) (nextId st)) as Hspec.
  pose proof (scheduleEvents_lookup events (transport st) (nextId st)) as Hlook.
  destruct (scheduleEvents events (transport st) (nextId st)) as [[t' next'] ids].
  destruct Hspec as (-> & -> & Hsome). destruct Hlook as [Hkeep _].
  unfold stopHoldByIndex. simpl. rewrite lookup_insert_eq. simpl.
  split; [|split].
  - rewrite delete_insert_eq. now apply delete_id.
  - rewrite delete_insert_eq. now apply delete_id.
  - apply map_eq. intros id. rewrite clearAll_lookup.
    destruct (decide (id ∈ seq (nextId st) (length events))) as [Hin|Hout].
    + apply elem_of_seq in Hin. symmetry.
      destruct (transport st !! id) eqn:Hid; [|reflexivity].
      assert (id < nextId st)%nat by (apply Hold; eauto). lia.
    + destruct (Nat.lt_ge_cases id (nextId st)) as [Hlt|Hge]; [now apply Hkeep|].
      destruct (t' !! id) eqn:Hid.
      * assert (Hs : is_Some (t' !! id)) by eauto.
        apply Hsome in Hs as [Hs|Hs].
        -- assert (id < nextId st)%nat by now apply Hold. lia.
        -- exfalso. apply Hout. apply elem_of_seq. lia.
      * symmetry. destruct (transport st !! id) eqn:Hid'; [|reflexivity].
        assert (id < nextId st)%nat by (apply Hold; eauto). lia.
Qed.

(** X18.  A press and its release, in their two orders.  When the release
    comes after the press has gone on from its [await], the holds, the
    highlighted pads and the waiting callbacks are as they were before the
    press.  When the release comes while the press still waits, it finds no
    hold and does nothing: the press then sets up its hold, which stays,
    with its callbacks, until another release or a stop-all.  (The page
    keeps its records, nothing else waits, and the press passes its
    guard.) *)
Theorem press_release_orders (idx : nat) (s : Sys) (p : PadModel) :
  awaiting s = [] ->
  HoldRecords (page s) ->
  startGuard idx (page s) = Some p ->
  let pressed := stepSys s (PressE idx) in
  let after := runSys [ResumeE 0; ReleaseE idx] pressed in
  let during := runSys [ReleaseE idx; ResumeE 0] pressed in
  awaiting pressed = [(idx, p)]
  /\ (awaiting after = []
      /\ activeHold (page after) = activeHold (page s)
      /\ holdMidis (page after) = holdMidis (page s)
      /\ transport (page after) = transport (page s))
  /\ (during = stepSys pressed (ResumeE 0)
      /\ awaiting during = []
      /\ (exists h, activeHold (page during) !! idx = Some h
                    /\ scheduleIds h = seq (nextId (page s)) (length (h_notes h))
                    /\ forall id, id ∈ scheduleIds h ->
                         is_Some (transport (page during) !! id))
      /\ holdMidis (page during) !! idx = Some (pm_midis p)).
Proof.
  intros Haw Hrec Hg. destruct s as [st aw]. simpl in Haw, Hrec, Hg. subst aw.
  pose proof (startGuard_Some idx st p Hg) as [_ Hfree].
  pose proof (press_release_atomic idx st Hrec Hfree) as Hatomic.
  cbv zeta in *. unfold startHoldByIndex in Hatomic.
  simpl. unfold startHoldBegin in *. rewrite Hg in *. simpl.
  split; [reflexivity|]. split.
  - split; [reflexivity|]. exact Hatomic.
  - unfold stopHoldByIndex at 1 2 3 4. simpl. rewrite Hfree. simpl.
    split; [reflexivity|]. split; [reflexivity|].
    unfold startHoldResume. simpl.
    destruct (buildNoteEvents _ _ _ _ _) as [events tape'].
    pose proof (scheduleEvents_spec events (transport st) (nextId st)) as Hspec.
    destruct (scheduleEvents events (transport st) (nextId st)) as [[t' next'] ids].
    destruct Hspec as (-> & -> & Hsome). simpl.
    split; [|apply lookup_insert_eq].
    eexists. split; [apply lookup_insert_eq|]. simpl.
    split; [now rewrite length_map|].
    intros id Hid. apply Hsome. right. apply elem_of_seq in Hid. lia.
Qed.

Lemma press_release_orders_witness :
  let pressed := stepSys sys0 (PressE 0) in
  let after := runSys [ResumeE 0; ReleaseE 0] pressed in
  let during := runSys [ReleaseE 0; ResumeE 0] pressed in
  awaiting pressed = [(0%nat, pad_F_over_G)]
  /\ (awaiting after = []
      /\ activeHold (page after) = activeHold (page sys0)
      /\ holdMidis (page after) = holdMidis (page sys0)
      /\ transport (page after) = transport (page sys0))
  /\ (during = stepSys pressed (ResumeE 0)
      /\ awaiting during = []
      /\ (exists h, activeHold (page during) !! 0%nat = Some h
                    /\ scheduleIds h = seq (nextId (page sys0)) (length (h_notes h))
                    /\ forall id, id ∈ scheduleIds h ->
                         is_Some (transport (page during) !! id))
      /\ holdMidis (page during) !! 0%nat = Some (pm_midis pad_F_over_G)).
Proof.
  apply (press_release_orders 0 sys0 pad_F_over_G).
  - reflexivity.
  - apply HoldInv_records, idle_inv. repeat split.
  - reflexivity.
Defined.

(** X19.  A release cancels the attacks of its hold that still wait, and those
    only: the hold's ids are gone from the transport, every other waiting
    callback and every other hold stay, and the synth (if there is one) is
    told to release the notes of the hold. *)
Theorem stopHoldByIndex_cancels (idx : nat) (st : Page) (h : HoldState) :
  activeHold st !! idx = Some h ->
  let st' := stopHoldByIndex idx st in
  activeHold st' !! idx = None
  /\ holdMidis st' !! idx = None
  /\ (forall id, id ∈ scheduleIds h -> transport st' !! id = None)
  /\ (forall id, id ∉ scheduleIds h -> transport st' !! id = transport st !! id)
  /\ (forall j, j <> idx ->
        activeHold st' !! j = activeHold st !! j /\ holdMidis st' !! j = holdMidis st !! j)
  /\ synthLog st' = (if synthMade st then triggerRelease (h_notes h) :: synthLog st
                     else synthLog st).
Proof.
  intros Hh st'. subst st'. unfold stopHoldByIndex. rewrite Hh. simpl.
  split; [apply lookup_delete_eq|]. split; [apply lookup_delete_eq|].
  split; [|split; [|split]].
  - intros id Hid. rewrite clearAll_lookup. now destruct (decide (id ∈ scheduleIds h)).
  - intros id Hid. rewrite clearAll_lookup. now destruct (decide (id ∈ scheduleIds h)).
  - intros j Hj. split; apply lookup_delete_ne; congruence.
  - reflexivity.
Qed.

Lemma stopHoldByIndex_cancels_witness :
  let st := run [Press 0] page0 in
  let st' := stopHoldByIndex 0 st in
  activeHold st' !! 0%nat = None
  /\ holdMidis st' !! 0%nat = None
  /\ (forall id, id ∈ scheduleIds hold_F_over_G -> transport st' !! id = None)
  /\ (forall id, id ∉ scheduleIds hold_F_over_G -> transport st' !! id = transport st !! id)
  /\ (forall j, j <> 0%nat ->
        activeHold st' !! j = activeHold st !! j /\ holdMidis st' !! j = holdMidis st !! j)
  /\ synthLog st' = (if synthMade st then triggerRelease (h_notes hold_F_over_G) :: synthLog st
                     else synthLog st).
Proof.
  apply (stopHoldByIndex_cancels 0 (run [Press 0] page0) hold_F_over_G).
  vm_compute. reflexivity.
Defined.

Lemma buildNoteEvents_notes_perm notes midis perf dur tape :
  notes <> [] -> length notes = length midis ->
  Permutation (map note (fst (buildNoteEvents notes midis perf dur tape))) notes.
Proof.
  intros Hne Hlen.
  destruct (buildNoteEvents_run notes midis perf dur tape Hne Hlen)
    as (playOrder & arpDur & oneShot & tape' & HP & _ & ->).
  set (evs := fst (mapM _ 0%nat playOrder tape')).
  assert (E1 : map note evs = map it_note playOrder).
  { transitivity (map (fun t : string * Z * bool => fst (fst t))
                    (map (fun e => (note e, midi e, isTop e)) evs)).
    - rewrite map_map. reflexivity.
    - unfold evs. rewrite mapM_makeEvent_items, map_map. reflexivity. }
  assert (E2 : map it_note (makeItems notes midis) = notes).
  { transitivity (map (fun t : string * Z * bool => fst (fst t))
                    (map (fun it => (it_note it, it_midi it, it_isTop it))
                       (makeItems notes midis))).
    - rewrite map_map. reflexivity.
    - rewrite (makeItems_fields notes midis Hlen), map_map.
      rewrite <- (combine_fst notes midis Hlen) at 2.
      apply map_ext. now intros [n m]. }
  rewrite E1, <- E2. now apply Permutation_map.
Qed.

Lemma startHoldByIndex_hold (idx : nat) (st : Page) (p : PadModel) :
  padModels st !! idx = Some p ->
  pm_ok p = true ->
  pm_notes p <> [] ->
  length (pm_notes p) = length (pm_midis p) ->
  activeHold st !! idx = None ->
  let st' := startHoldByIndex idx st in
  exists h,
    activeHold st' !! idx = Some h
    /\ Permutation (h_notes h) (pm_notes p)
    /\ scheduleIds h = seq (nextId st) (length (pm_notes p))
    /\ (forall k n, h_notes h !! k = Some n ->
          exists a, transport st' !! (nextId st + k)%nat = Some a
                    /\ at_note a = n /\ (0 <= at_delaySec a)%Q)
    /\ holdMidis st' !! idx = Some (pm_midis p)
    /\ guidePadIdx st' = idx
    /\ (forall j, j <> idx -> activeHold st' !! j = activeHold st !! j)
    /\ (forall id, (id < nextId st)%nat -> transport st' !! id = transport st !! id).
Proof.
  intros Hp Hok Hne Hlen Hfree st'. subst st'.
  assert (Hg : startGuard idx st = Some p).
  { unfold startGuard. rewrite Hp, Hok, Hfree. simpl.
    destruct (pm_notes p); [congruence|reflexivity]. }
  unfold startHoldByIndex, startHoldBegin. rewrite Hg.
  unfold startHoldResume. simpl.
  pose proof (buildNoteEvents_notes_perm (pm_notes p) (pm_midis p) (perfNow st)
                (Some (9 # 10)%Q) (randomTape st) Hne Hlen) as Hperm.
  destruct (buildNoteEvents _ _ _ _ _) as [events tape'].
  simpl in Hperm.
  pose proof (scheduleEvents_spec events (transport st) (nextId st)) as Hspec.
  pose proof (scheduleEvents_lookup events (transport st) (nextId st)) as Hlook.
  destruct (scheduleEvents events (transport st) (nextId st)) as [[t' next'] ids].
  destruct Hspec as (-> & -> & _). destruct Hlook as [Hkeep Hnew].
  simpl. eexists. split; [apply lookup_insert_eq|]. simpl.
  split; [exact Hperm|]. split.
  { f_equal. rewrite <- (Permutation_length Hperm). now rewrite length_map. }
  split.
  { intros k n Hk. rewrite list_lookup_fmap in Hk.
    destruct (events !! k) as [ev|] eqn:Hev; [|discriminate]. injection Hk as <-.
    eexists. split; [apply (Hnew k ev Hev)|]. simpl. split; [reflexivity|].
    apply Qle_shift_div_l; [reflexivity|]. rewrite Qmult_0_l. apply Math_maxQ_lower. }
  split; [apply lookup_insert_eq|]. split; [reflexivity|]. split.
  - intros j Hj. apply lookup_insert_ne. congruence.
  - exact Hkeep.
Qed.

Lemma startHoldResume_hold (idx : nat) (p : PadModel) (st : Page) :
  pm_notes p <> [] ->
  length (pm_notes p) = length (pm_midis p) ->
  let st' := startHoldResume idx p st in
  exists h,
    activeHold st' !! idx = Some h
    /\ Permutation (h_notes h) (pm_notes p)
    /\ scheduleIds h = seq (nextId st) (length (pm_notes p))
    /\ nextId st' = (nextId st + length (pm_notes p))%nat
    /\ (forall k n, h_notes h !! k = Some n ->
          exists a, transport st' !! (nextId st + k)%nat = Some a
                    /\ at_note a = n /\ (0 <= at_delaySec a)%Q)
    /\ holdMidis st' !! idx = Some (pm_midis p)
    /\ (forall j, j <> idx ->
          activeHold st' !! j = activeHold st !! j
          /\ holdMidis st' !! j = holdMidis st !! j)
    /\ (forall id, (id < nextId st)%nat -> transport st' !! id = transport st !! id).
Proof.
  intros Hne Hlen st'. subst st'. unfold startHoldResume.
  pose proof (buildNoteEvents_notes_perm (pm_notes p) (pm_midis p) (perfNow st)
                (Some (9 # 10)%Q) (randomTape st) Hne Hlen) as Hperm.
  destruct (buildNoteEvents _ _ _ _ _) as [events tape'].
  simpl in Hperm.
  assert (Hcount : length events = length (pm_notes p)).
  { rewrite <- (Permutation_length Hperm). now rewrite length_map. }
  pose proof (scheduleEvents_spec events (transport st) (nextId st)) as Hspec.
  pose proof (scheduleEvents_lookup events (transport st) (nextId st)) as Hlook.
  destruct (scheduleEvents events (transport st) (nextId st)) as [[t' next'] ids].
  destruct Hspec as (-> & -> & _). destruct Hlook as [Hkeep Hnew].
  simpl. eexists. split; [apply lookup_insert_eq|]. simpl.
  split; [exact Hperm|]. split; [now rewrite Hcount|]. split; [now rewrite Hcount|].
  split.
  { intros k n Hk. rewrite list_lookup_fmap in Hk.
    destruct (events !! k) as [ev|] eqn:Hev; [|discriminate]. injection Hk as <-.
    eexists. split; [apply (Hnew k ev Hev)|]. simpl. split; [reflexivity|].
    apply Qle_shift_div_l; [reflexivity|]. rewrite Qmult_0_l. apply Math_maxQ_lower. }
  split; [apply lookup_insert_eq|]. split.
  - intros j Hj. split; apply lookup_insert_ne; congruence.
  - exact Hkeep.
Qed.

(** X20.  When a press goes on after its [await], with the pad that it read at
    its guard (its notes not empty, and as many as its pitches), it sets up
    one hold on its index, in the place of the hold that the index has by
    then, if any: the notes of the pad in play order, with one fresh
    callback id for each note, in order; each id waits in the transport
    with the attack of its note, at a delay that is not negative.  The pad
    is highlighted; the holds and highlights of the other indices and the
    callbacks that waited stay.  All this is said of the page as it is when
    the press goes on, whatever happened while it waited. *)
Theorem startHoldResume_registers (idx : nat) (p : PadModel) (st : Page) :
  pm_notes p <> [] ->
  length (pm_notes p) = length (pm_midis p) ->
  let st' := startHoldResume idx p st in
  exists h,
    activeHold st' !! idx = Some h
    /\ Permutation (h_notes h) (pm_notes p)
    /\ scheduleIds h = seq (nextId st) (length (pm_notes p))
    /\ nextId st' = (nextId st + length (pm_notes p))%nat
    /\ (forall k n, h_notes h !! k = Some n ->
          exists a, transport st' !! (nextId st + k)%nat = Some a
                    /\ at_note a = n /\ (0 <= at_delaySec a)%Q)
    /\ holdMidis st' !! idx = Some (pm_midis p)
    /\ (forall j, j <> idx ->
          activeHold st' !! j = activeHold st !! j
          /\ holdMidis st' !! j = holdMidis st !! j)
    /\ (forall id, (id < nextId st)%nat -> transport st' !! id = transport st !! id).
Proof. exact (startHoldResume_hold idx p st). Qed.

Lemma startHoldResume_registers_witness :
  let st := page (runSys [PressE 0; PressE 0; ResumeE 0] sys0) in
  let st' := startHoldResume 0 pad_F_over_G st in
  exists h,
    activeHold st' !! 0%nat = Some h
    /\ Permutation (h_notes h) (pm_notes pad_F_over_G)
    /\ scheduleIds h = seq (nextId st) (length (pm_notes pad_F_over_G))
    /\ nextId st' = (nextId st + length (pm_notes pad_F_over_G))%nat
    /\ (forall k n, h_notes h !! k = Some n ->
          exists a, transport st' !! (nextId st + k)%nat = Some a
                    /\ at_note a = n /\ (0 <= at_delaySec a)%Q)
    /\ holdMidis st' !! 0%nat = Some (pm_midis pad_F_over_G)
    /\ (forall j, j <> 0%nat ->
          activeHold st' !! j = activeHold st !! j
          /\ holdMidis st' !! j = holdMidis st !! j)
    /\ (forall id, (id < nextId st)%nat -> transport st' !! id = transport st !! id).
Proof.
  apply (startHoldResume_registers 0 pad_F_over_G
           (page (runSys [PressE 0; PressE 0; ResumeE 0] sys0))).
  - discriminate.
  - reflexivity.
Defined.

Lemma setAdd_In {A} `{EqDecision A} (u : list A) (m x : A) :
  In x (setAdd u m) <-> In x u \/ x = m.
Proof.
  unfold setAdd. destruct (decide (m ∈ u)) as [Hin|Hin].
  - apply list_elem_of_In in Hin. split; [tauto|]. intros [H| ->]; assumption.
  - rewrite in_app_iff. simpl. intuition congruence.
Qed.

Lemma setAdd_NoDup {A} `{EqDecision A} (u : list A) (m : A) :
  NoDup u -> NoDup (setAdd u m).
Proof.
  intros Hu. unfold setAdd. destruct (decide (m ∈ u)) as [Hin|Hin]; [exact Hu|].
  apply NoDup_app. split; [exact Hu|]. split.
  - intros x Hx Hx'. apply list_elem_of_singleton in Hx'. now subst.
  - apply NoDup_singleton.
Qed.

Lemma fold_setAdd_In {A} `{EqDecision A} (arr u : list A) (x : A) :
  In x (fold_left setAdd arr u) <-> In x u \/ In x arr.
Proof.
  revert u. induction arr as [|m arr IH]; intros u; simpl; [tauto|].
  rewrite IH, setAdd_In. intuition congruence.
Qed.

Lemma fold_setAdd_NoDup {A} `{EqDecision A} (arr u : list A) :
  NoDup u -> NoDup (fold_left setAdd arr u).
Proof.
  revert u. induction arr as [|m arr IH]; intros u Hu; simpl; [exact Hu|].
  apply IH, setAdd_NoDup, Hu.
Qed.

Lemma fold_values_In (vs : list (list Z)) (u : list Z) (x : Z) :
  In x (fold_left (fun u arr => fold_left setAdd arr u) vs u)
  <-> In x u \/ exists arr, In arr vs /\ In x arr.
Proof.
  revert u. induction vs as [|v vs IH]; intros u; simpl.
  - split; [tauto|]. intros [H|(arr & [] & _)]. exact H.
  - rewrite IH, fold_setAdd_In. split.
    + intros [[H|H]|(arr & Harr & H)]; [tauto| |]; right; eauto.
    + intros [H|(arr & [<-|Harr] & H)]; [tauto|tauto|]. right. eauto.
Qed.

Lemma fold_values_NoDup (vs : list (list Z)) (u : list Z) :
  NoDup u -> NoDup (fold_left (fun u arr => fold_left setAdd arr u) vs u).
Proof.
  revert u. induction vs as [|v vs IH]; intros u Hu; simpl; [exact Hu|].
  apply IH, fold_setAdd_NoDup, Hu.
Qed.

Lemma insertKey_perm x l : Permutation (insertKey x l) (x :: l).
Proof.
  induction l as [|y l IH]; simpl; [reflexivity|].
  destruct (fst x <=? fst y)%nat; [reflexivity|].
  rewrite IH. apply perm_swap.
Qed.

Lemma sortKeys_perm l : Permutation (sortKeys l) l.
Proof.
  induction l as [|x l IH]; simpl; [reflexivity|].
  rewrite insertKey_perm. now constructor.
Qed.

Lemma holdValues_In (m : gmap nat (list Z)) (arr : list Z) :
  In arr (holdValues m) <-> exists idx, m !! idx = Some arr.
Proof.
  unfold holdValues. rewrite in_map_iff. split.
  - intros ([idx a] & <- & Hin).
    apply (Permutation_in _ (sortKeys_perm _)) in Hin.
    apply list_elem_of_In, elem_of_map_to_list in Hin. now exists idx.
  - intros (idx & Hidx). exists (idx, arr). split; [reflexivity|].
    apply (Permutation_in _ (Permutation_sym (sortKeys_perm _))).
    now apply list_elem_of_In, elem_of_map_to_list.
Qed.

Lemma Sorted_le_NoDup_lt (l : list Z) : Sorted Z.le l -> NoDup l -> Sorted Z.lt l.
Proof.
  induction 1 as [|x l Hs IH Hhd]; intros Hnd; [constructor|].
  apply NoDup_cons in Hnd as [Hx Hnd].
  constructor; [now apply IH|].
  destruct Hhd as [|y l' Hxy]; constructor.
  assert (x <> y) by (intros ->; apply Hx; left). lia.
Qed.

Lemma syncActiveMidis_NoDup (st : Page) : NoDup (syncActiveMidis st).
Proof.
  unfold syncActiveMidis. cbv zeta.
  rewrite sortZ_perm.
  apply fold_setAdd_NoDup, fold_values_NoDup. constructor.
Qed.

Lemma syncActiveMidis_In (st : Page) (m : Z) :
  In m (syncActiveMidis st)
  <-> (exists idx arr, holdMidis st !! idx = Some arr /\ In m arr)
      \/ In m (oneShotMidis st).
Proof.
  unfold syncActiveMidis. cbv zeta. split.
  - intros Hin. apply (Permutation_in _ (sortZ_perm _)) in Hin.
    apply fold_setAdd_In in Hin as [Hin|Hin]; [|now right].
    apply fold_values_In in Hin as [[]|(arr & Harr & Hin)].
    apply holdValues_In in Harr as (idx & Hidx). left. eauto.
  - intros Hin. apply (Permutation_in _ (Permutation_sym (sortZ_perm _))).
    apply fold_setAdd_In. destruct Hin as [(idx & arr & Hidx & Hin)|Hin]; [|now right].
    left. apply fold_values_In. right. exists arr. split; [|exact Hin].
    apply holdValues_In. now exists idx.
Qed.

(** X21.  The pitches handed to the keyboard are in strictly ascending order, so
    none is there twice, and they are exactly the pitches of the held pads
    and of the one-shot highlight. *)
Theorem syncActiveMidis_spec (st : Page) :
  Sorted Z.lt (syncActiveMidis st)
  /\ forall m, In m (syncActiveMidis st)
       <-> (exists idx arr, holdMidis st !! idx = Some arr /\ In m arr)
           \/ In m (oneShotMidis st).
Proof.
  split; [|apply syncActiveMidis_In].
  apply Sorted_le_NoDup_lt; [apply sortZ_sorted|apply syncActiveMidis_NoDup].
Qed.

(** X22.  Releasing a pad takes its pitches off the keyboard unless another held
    pad or the one-shot highlight has them too: after the release the
    highlighted pitches are those of the other held pads and of the
    one-shot highlight. *)
Theorem stopHoldByIndex_highlight (idx : nat) (st : Page) (m : Z) :
  is_Some (activeHold st !! idx) ->
  In m (syncActiveMidis (stopHoldByIndex idx st))
  <-> (exists j arr, j <> idx /\ holdMidis st !! j = Some arr /\ In m arr)
      \/ In m (oneShotMidis st).
Proof.
  intros [h Hh].
  assert (Hs : holdMidis (stopHoldByIndex idx st) = delete idx (holdMidis st)
               /\ oneShotMidis (stopHoldByIndex idx st) = oneShotMidis st).
  { unfold stopHoldByIndex. rewrite Hh. split; reflexivity. }
  destruct Hs as [Hm Ho].
  rewrite syncActiveMidis_In, Hm, Ho.
  split.
  - intros [(j & arr & Hj & Hin)|Hin]; [|now right]. left.
    destruct (decide (j = idx)) as [->|Hne].
    + rewrite lookup_delete_eq in Hj. discriminate.
    + rewrite lookup_delete_ne in Hj by congruence. eauto.
  - intros [(j & arr & Hne & Hj & Hin)|Hin]; [|now right]. left.
    exists j, arr. split; [|exact Hin]. rewrite lookup_delete_ne by congruence. exact Hj.
Qed.

Lemma stopHoldByIndex_highlight_witness :
  In 55 (syncActiveMidis (stopHoldByIndex 0 (run [Press 0] page0)))
  <-> (exists j arr, j <> 0%nat
         /\ holdMidis (run [Press 0] page0) !! j = Some arr /\ In 55 arr)
      \/ In 55 (oneShotMidis (run [Press 0] page0)).
Proof.
  apply (stopHoldByIndex_highlight 0 (run [Press 0] page0) 55).
  vm_compute. eauto.
Defined.

(** ** The keyboard ([app/PianoKeyboard.tsx]) *)

Lemma mod12_mod (m : Z) : mod12 m = m mod 12.
Proof. unfold mod12. Z.quot_rem_to_equations. Z.div_mod_to_equations. lia. Qed.

Lemma mod12_cases (m : Z) :
  mod12 m = 0 \/ mod12 m = 1 \/ mod12 m = 2 \/ mod12 m = 3 \/ mod12 m = 4 \/ mod12 m = 5
  \/ mod12 m = 6 \/ mod12 m = 7 \/ mod12 m = 8 \/ mod12 m = 9 \/ mod12 m = 10 \/ mod12 m = 11.
Proof. rewrite mod12_mod. pose proof (Z.mod_pos_bound m 12). lia. Qed.

Lemma mod12_succ (m : Z) : mod12 (m + 1) = if mod12 m =? 11 then 0 else mod12 m + 1.
Proof.
  rewrite !mod12_mod. destruct (Z.eqb_spec (m mod 12) 11); Z.div_mod_to_equations; lia.
Qed.

Lemma mod12_pred (m : Z) : mod12 (m - 1) = if mod12 m =? 0 then 11 else mod12 m - 1.
Proof.
  rewrite !mod12_mod. destruct (Z.eqb_spec (m mod 12) 0); Z.div_mod_to_equations; lia.
Qed.

Lemma mod12_octave (m : Z) : mod12 (m + 12) = mod12 m.
Proof. rewrite !mod12_mod. Z.div_mod_to_equations. lia. Qed.

Lemma black_between_whites (m : Z) :
  isWhite m = false -> isWhite (m + 1) = true /\ isWhite (m - 1) = true.
Proof.
  unfold isWhite. rewrite mod12_succ, mod12_pred.
  destruct (mod12_cases m) as [H|[H|[H|[H|[H|[H|[H|[H|[H|[H|[H|H]]]]]]]]]]];
    rewrite H; vm_compute; intuition congruence.
Qed.

(** X23.  Every pitch, negative ones too, is a white key or a black key and
    never both; the colours repeat from octave to octave; and a black key
    has a white key on either side. *)
Theorem isBlack_complements_isWhite (m : Z) :
  isBlack m = negb (isWhite m)
  /\ isWhite (m + 12) = isWhite m
  /\ (isWhite m = false -> isWhite (m + 1) = true /\ isWhite (m - 1) = true).
Proof.
  split; [|split].
  - unfold isBlack, isWhite.
    destruct (mod12_cases m) as [H|[H|[H|[H|[H|[H|[H|[H|[H|[H|[H|H]]]]]]]]]]];
      rewrite H; reflexivity.
  - unfold isWhite. now rewrite mod12_octave.
  - apply black_between_whites.
Qed.

Lemma keysLoop_length n m wc : length (keysLoop n m wc) = n.
Proof.
  revert m wc. induction n as [|n IH]; intros m wc; simpl; [reflexivity|].
  now rewrite IH.
Qed.

Lemma keysLoop_lookup n m wc (i : nat) k :
  keysLoop n m wc !! i = Some k ->
  k_midi k = m + Z.of_nat i /\ k_isWhite k = isWhite (k_midi k)
  /\ k_mod12 k = k_midi k mod 12 /\ (i < n)%nat.
Proof.
  revert m wc i. induction n as [|n IH]; intros m wc i; simpl; [discriminate|].
  destruct i as [|i]; simpl.
  - intros [= <-]. simpl. rewrite mod12_mod. repeat split; lia.
  - intros H. apply IH in H as (H1 & H2 & H3 & H4). repeat split; try assumption; lia.
Qed.

Lemma keysLoop_white_indices n m wc :
  map k_whiteIndex (filter k_isWhite (keysLoop n m wc))
  = map (fun j => wc + Z.of_nat j) (seq 0 (totalWhite (keysLoop n m wc))).
Proof.
  unfold totalWhite. revert m wc. induction n as [|n IH]; intros m wc; [reflexivity|].
  cbn [keysLoop]. cbv zeta. rewrite filter_cons. cbn [k_isWhite].
  destruct (isWhite m) eqn:Hw.
  - rewrite decide_True by exact I. cbn [map length seq k_whiteIndex].
    rewrite IH, <- seq_shift, map_map. f_equal; [lia|].
    apply map_ext. intros j. lia.
  - rewrite decide_False by (intros []). apply IH.
Qed.

Lemma keysLoop_black n m wc (i : nat) k :
  keysLoop n m wc !! i = Some k -> k_isWhite k = false ->
  match i with
  | O => k_whiteIndex k = wc - 1
  | S j => exists prev, keysLoop n m wc !! j = Some prev
                        /\ k_isWhite prev = true /\ k_whiteIndex k = k_whiteIndex prev
  end.
Proof.
  revert m wc i. induction n as [|n IH]; intros m wc i; [discriminate|].
  cbn [keysLoop]. cbv zeta. destruct i as [|i].
  - intros [= <-]. cbn [k_isWhite k_whiteIndex]. now intros ->.
  - cbn [lookup list_lookup]. intros Hk Hb.
    pose proof (keysLoop_lookup _ _ _ _ _ Hk) as (Hm & Hw & _).
    specialize (IH _ _ _ Hk Hb). destruct i as [|j].
    + eexists. split; [reflexivity|]. cbn [k_isWhite k_whiteIndex].
      assert (Hwm : isWhite m = true).
      { rewrite Hw, Hm in Hb. apply black_between_whites in Hb as [_ Hb].
        now replace (m + 1 + Z.of_nat 0 - 1) with m in Hb by lia. }
      rewrite Hwm in *. split; [reflexivity|]. lia.
    + exact IH.
Qed.

(** X24.  The keys of the range, both ends in, in ascending order, one for each
    pitch.  The white keys are numbered 0, 1, 2, ... from the left; a black
    key carries the number of the white key on its left, and -1 when the
    range starts on it. *)
Theorem keys_layout (minMidi maxMidi : Z) :
  let ks := keys minMidi maxMidi in
  length ks = Z.to_nat (maxMidi - minMidi + 1)
  /\ (forall (i : nat) k, ks !! i = Some k ->
        k_midi k = minMidi + Z.of_nat i /\ minMidi <= k_midi k <= maxMidi
        /\ k_isWhite k = isWhite (k_midi k) /\ k_mod12 k = k_midi k mod 12)
  /\ map k_whiteIndex (filter k_isWhite ks) = map Z.of_nat (seq 0 (totalWhite ks))
  /\ (forall (i : nat) k, ks !! i = Some k -> k_isWhite k = false ->
        match i with
        | O => k_whiteIndex k = -1
        | S j => exists prev, ks !! j = Some prev
                              /\ k_isWhite prev = true /\ k_whiteIndex k = k_whiteIndex prev
        end).
Proof.
  cbv zeta. unfold keys. split; [apply keysLoop_length|]. split; [|split].
  - intros i k Hk. apply keysLoop_lookup in Hk as (H1 & H2 & H3 & H4).
    repeat split; try assumption; lia.
  - rewrite keysLoop_white_indices. apply map_ext. intros j. lia.
  - intros i k Hk Hb. pose proof (keysLoop_black _ _ _ _ _ Hk Hb) as H.
    destruct i; [lia|exact H].
Qed.

Example keys_from_black_key :
  map k_whiteIndex (keys 61 64) = [-1; 0; 0; 1].
Proof. reflexivity. Qed.


(** ** Pitch-class spelling and chord candidates ([lib/chordSuggest.ts]) *)

Lemma append_nil_r (s : string) : s +:+ "" = s.
Proof.
  induction s as [|c s IH]; [reflexivity|].
  change (String c (s +:+ "") = String c s). now rewrite IH.
Qed.

Lemma append_inj_l (r a b : string) : r +:+ a = r +:+ b -> a = b.
Proof.
  induction r as [|c r IH]; [trivial|].
  change (String c (r +:+ a) = String c (r +:+ b) -> a = b). intros [= H]. now apply IH.
Qed.

Lemma chars_app (a b : string) :
  list_ascii_of_string (a +:+ b) = list_ascii_of_string a ++ list_ascii_of_string b.
Proof.
  induction a as [|c a IH]; [reflexivity|].
  change (c :: list_ascii_of_string (a +:+ b)
          = c :: (list_ascii_of_string a ++ list_ascii_of_string b)).
  now rewrite IH.
Qed.

Lemma trimStart_id (s : string) :
  Forall (fun c => is_space c = false) (list_ascii_of_string s) -> trimStart s = s.
Proof.
  destruct s as [|c s]; [reflexivity|]. simpl. intros H.
  apply Forall_cons in H as [-> _]. reflexivity.
Qed.

Lemma rev_string_involutive (s : string) : rev_string (rev_string s) = s.
Proof.
  unfold rev_string.
  now rewrite list_ascii_of_string_of_list_ascii, rev_involutive,
    string_of_list_ascii_of_string.
Qed.

Lemma trim_id (s : string) :
  Forall (fun c => is_space c = false) (list_ascii_of_string s) -> trim s = s.
Proof.
  intros H. unfold trim, trimEnd. rewrite (trimStart_id s H).
  rewrite trimStart_id; [apply rev_string_involutive|].
  unfold rev_string. rewrite list_ascii_of_string_of_list_ascii.
  apply List.Forall_forall. intros c Hc. apply List.in_rev in Hc.
  revert c Hc. now apply List.Forall_forall.
Qed.

Lemma digit_not_space (c : ascii) : in_range 48 57 c = true -> is_space c = false.
Proof.
  unfold is_space, in_range. intros H.
  apply andb_true_iff in H as [H1 H2]. apply N.leb_le in H1.
  apply orb_false_iff. split.
  - apply andb_false_iff. right. apply N.leb_gt. apply N.leb_le in H2. lia.
  - apply N.eqb_neq. lia.
Qed.

Lemma allDigits_no_space (d : string) :
  allDigits d = true -> Forall (fun c => is_space c = false) (list_ascii_of_string d).
Proof.
  induction d as [|c d IH]; simpl; [constructor|].
  intros H. apply andb_true_iff in H as [Hc Hd].
  constructor; [now apply digit_not_space|now apply IH].
Qed.

Lemma removeDigits_app (a b : string) :
  removeDigits (a +:+ b) = removeDigits a +:+ removeDigits b.
Proof.
  induction a as [|c a IH]; [reflexivity|].
  change (removeDigits (String c (a +:+ b))
          = removeDigits (String c a) +:+ removeDigits b).
  simpl. destruct (in_range 48 57 c); [exact IH|].
  change (String c (removeDigits (a +:+ b))
          = String c (removeDigits a +:+ removeDigits b)).
  now rewrite IH.
Qed.

Lemma removeDigits_digits (d : string) : allDigits d = true -> removeDigits d = "".
Proof.
  induction d as [|c d IH]; simpl; [reflexivity|].
  intros H. apply andb_true_iff in H as [-> Hd]. now apply IH.
Qed.

(** The digits of the octave do not count. *)
Lemma toPitchClass_octave (pc d : string) :
  forallb (fun c => negb (is_space c)) (list_ascii_of_string pc) = true ->
  removeDigits pc = pc ->
  allDigits d = true ->
  toPitchClass (pc +:+ d) = toPitchClass pc.
Proof.
  intros Hsp Hpc Hd.
  assert (Hsp' : Forall (fun c => is_space c = false) (list_ascii_of_string pc)).
  { apply List.Forall_forall. intros c Hc.
    apply (proj1 (forallb_forall _ _) Hsp), negb_true_iff in Hc. exact Hc. }
  unfold toPitchClass. rewrite (trim_id pc Hsp'), trim_id.
  - now rewrite removeDigits_app, (removeDigits_digits d Hd), Hpc, append_nil_r.
  - rewrite chars_app. apply Forall_app. split; [exact Hsp'|now apply allDigits_no_space].
Qed.

Lemma toFlatPc_octave (l a d : string) :
  In l LETTERS -> In a ACCIDENTALS -> allDigits d = true ->
  toFlatPc ((l +:+ a) +:+ d) = toFlatPc (l +:+ a).
Proof.
  intros Hl Ha Hd. unfold toFlatPc. cbv zeta.
  rewrite toPitchClass_octave; [reflexivity| | |exact Hd];
    simpl in Hl, Ha; intuition subst; reflexivity.
Qed.

(** A spelling that comes back as a string names the same pitch class as
    the one that went in: the tables only respell. *)
Lemma toFlatPc_pitch (s t : string) :
  toFlatPc s = Str t -> pcToSemitone t = pcToSemitone (toPitchClass s).
Proof.
  unfold toFlatPc. cbv zeta. generalize (toPitchClass s) as pc. intros pc.
  unfold tableGet, FLAT_NORMALIZE, SHARP_TO_FLAT.
  repeat match goal with
         | |- context [String.eqb pc ?k] =>
             destruct (String.eqb_spec pc k) as [->|?];
             [intros H; vm_compute in H; injection H as <-; reflexivity|]
         end.
  destruct (existsb (String.eqb pc) OBJECT_PROTOTYPE_KEYS); cbn [truthy].
  - discriminate.
  - now intros [= <-].
Qed.

(** X25.  Two note names get the same spelling exactly when they name the same
    pitch class, whatever their octaves: of the sharps and flats of the
    seven letters, each pitch class has one spelling. *)
Theorem toFlatPc_canonical (s1 pc1 s2 pc2 : string) :
  noteName s1 pc1 -> noteName s2 pc2 ->
  (toFlatPc s1 = toFlatPc s2 <-> pcToSemitone pc1 = pcToSemitone pc2).
Proof.
  intros (l1 & a1 & d1 & Hl1 & Ha1 & Hd1 & -> & ->)
         (l2 & a2 & d2 & Hl2 & Ha2 & Hd2 & -> & ->).
  rewrite !toFlatPc_octave by assumption.
  clear Hd1 Hd2. simpl in Hl1, Ha1, Hl2, Ha2.
  repeat match goal with
         | H : _ \/ _ |- _ => destruct H as [<-|H]
         | H : False |- _ => destruct H
         end;
    vm_compute; split; intros H; first [reflexivity|discriminate H].
Qed.

Lemma toFlatPc_canonical_witness :
  toFlatPc "A#3" = toFlatPc "Bb5" <-> pcToSemitone "A#" = pcToSemitone "Bb".
Proof.
  apply (toFlatPc_canonical "A#3" "A#" "Bb5" "Bb").
  - exists "A", "#", "3". repeat split; simpl; tauto.
  - exists "B", "b", "5". repeat split; simpl; tauto.
Defined.

Example toFlatPc_inherited_name : toFlatPc "__proto__" = Inherited "__proto__".
Proof. reflexivity. Qed.

Lemma existsb_eqb_false (x : string) (seen : list string) :
  x ∉ seen -> existsb (String.eqb x) seen = false.
Proof.
  intros Hx. destruct (existsb (String.eqb x) seen) eqn:E; [|reflexivity].
  apply existsb_exists in E as (y & Hy & Heq). apply String.eqb_eq in Heq. subst y.
  exfalso. now apply Hx, list_elem_of_In.
Qed.

Lemma filterSeen_id (seen : list string) (l : list ChordCandidate) :
  NoDup (seen ++ map symbol l) -> filterSeen seen l = l.
Proof.
  revert seen. induction l as [|x l IH]; intros seen Hnd; [reflexivity|].
  simpl in *. apply NoDup_app in Hnd as (Hseen & Hdis & Hl).
  apply NoDup_cons in Hl as [Hx Hl].
  rewrite existsb_eqb_false.
  - f_equal. apply IH. apply NoDup_app. split; [|split; [|exact Hl]].
    + apply NoDup_app. split; [exact Hseen|]. split; [|apply NoDup_singleton].
      intros y Hy Hy'. apply list_elem_of_singleton in Hy'. subst y.
      apply (Hdis _ Hy). left.
    + intros y Hy Hy'. apply elem_of_app in Hy as [Hy|Hy].
      * apply (Hdis _ Hy). now right.
      * apply list_elem_of_singleton in Hy. now subst y.
  - intros Hin. apply (Hdis _ Hin). left.
Qed.

(** X26.  Whatever the root, all eleven candidates come back, in the order of
    the list and with symbols that all differ: the filter for repeats
    never leaves one out. *)
Theorem suggestChordsFromPc_all (r : string) :
  map symbol (suggestChordsFromPc r)
  = map (String.append r)
      [""; "m"; "7"; "maj7"; "m7"; "sus4"; "sus2"; "dim"; "m7b5"; "aug"; "add9"]
  /\ map tag (suggestChordsFromPc r)
     = [tag_triad; tag_triad; tag_7th; tag_7th; tag_7th; tag_sus; tag_sus;
        tag_alt; tag_alt; tag_alt; tag_color]
  /\ NoDup (map symbol (suggestChordsFromPc r)).
Proof.
  assert (Hnd : NoDup (map (String.append r)
      [""; "m"; "7"; "maj7"; "m7"; "sus4"; "sus2"; "dim"; "m7b5"; "aug"; "add9"])).
  { assert (Hinj : Inj (=) (=) (String.append r)) by (intros a b; apply append_inj_l).
    apply (NoDup_fmap_2 (String.append r)).
    apply (bool_decide_unpack _). vm_compute. reflexivity. }
  unfold suggestChordsFromPc. cbv zeta.
  match goal with |- context [filterSeen [] ?l] => set (cands := l) end.
  assert (Hsym : map symbol cands
                 = map (String.append r)
                     [""; "m"; "7"; "maj7"; "m7"; "sus4"; "sus2"; "dim"; "m7b5"; "aug"; "add9"]).
  { unfold cands. cbn [map symbol]. now rewrite append_nil_r. }
  assert (Hid : filterSeen [] cands = cands).
  { apply filterSeen_id. cbn [app]. rewrite Hsym. exact Hnd. }
  rewrite Hid. split; [exact Hsym|]. split; [reflexivity|]. rewrite Hsym. exact Hnd.
Qed.

(** ** The guide pitch classes ([lib/chordGuide.ts]) *)

Lemma fold_setAdd_length {A} `{EqDecision A} (arr u : list A) :
  (length (fold_left setAdd arr u) <= length u + length arr)%nat.
Proof.
  revert u. induction arr as [|m arr IH]; intros u; simpl; [lia|].
  specialize (IH (setAdd u m)). unfold setAdd in *.
  destruct (decide (m ∈ u)); [lia|]. rewrite length_app in IH. simpl in IH. lia.
Qed.

Lemma uniq_NoDup (items : list (option Value)) : NoDup (uniq items).
Proof. unfold uniq. apply fold_setAdd_NoDup. constructor. Qed.

Lemma uniq_In (items : list (option Value)) (v : Value) :
  In v (uniq items) <-> In (Some v) items /\ truthy v = true.
Proof.
  unfold uniq. rewrite fold_setAdd_In. simpl.
  rewrite <- list_elem_of_In, list_elem_of_omap. split.
  - intros [[]|(o & Ho & Hv)]. destruct (truthyAt o) eqn:Ht; [|discriminate].
    subst o. split; [now apply list_elem_of_In|exact Ht].
  - intros [Hin Ht]. right. exists (Some v). split; [now apply list_elem_of_In|].
    simpl. now rewrite Ht.
Qed.

Lemma uniq_length (items : list (option Value)) : (length (uniq items) <= length items)%nat.
Proof.
  unfold uniq. etransitivity; [apply fold_setAdd_length|]. simpl.
  unfold omap. induction items as [|o items IH]; simpl; [lia|].
  destruct o as [v|]; simpl; [destruct (truthy v); simpl|]; lia.
Qed.

Lemma pushNote_In (flag : bool) (o x : option Value) :
  In x (pushNote flag o) -> x = o /\ flag = true.
Proof.
  unfold pushNote. destruct flag; simpl; [|tauto].
  destruct (truthyAt o); simpl; intuition.
Qed.

Lemma pushNote_length (flag : bool) (o : option Value) : (length (pushNote flag o) <= 1)%nat.
Proof. unfold pushNote. destruct (flag && truthyAt o); simpl; lia. Qed.

Section GuideFacts.

Variable Chord_get : string -> TonalChord.

(** X27.  A chord that the lookup does not know has no guide.  Otherwise the
    chord pitch classes are the spellings of the first four notes of the
    chord and the extensions those of the fifth to the seventh note whose
    switch is on; neither list holds a pitch class twice, and no extension
    is a chord pitch class too. *)
Theorem getChordGuidePcs_sets (chordSymbol : string) (opts : ChordGuideOptions) :
  let c := Chord_get (coreSymbol chordSymbol) in
  let g := getChordGuidePcs Chord_get chordSymbol opts in
  (hasTonic c = false -> chordPcs g = [] /\ extPcs g = [])
  /\ NoDup (chordPcs g) /\ NoDup (extPcs g)
  /\ (forall pc, In pc (extPcs g) -> ~ In pc (chordPcs g))
  /\ (length (chordPcs g) <= 4)%nat /\ (length (extPcs g) <= 3)%nat
  /\ (forall pc, In pc (chordPcs g) <->
        hasTonic c = true /\ truthy pc = true
        /\ exists (i : nat) n, (i < 4)%nat /\ ct_notes c !! i = Some n /\ toFlatPc n = pc)
  /\ (forall pc, In pc (extPcs g) <->
        hasTonic c = true /\ truthy pc = true /\ ~ In pc (chordPcs g)
        /\ exists (i : nat) n, ct_notes c !! i = Some n /\ toFlatPc n = pc
             /\ ((i = 4%nat /\ add9 opts = true) \/ (i = 5%nat /\ add11 opts = true)
                 \/ (i = 6%nat /\ add13 opts = true))).
Proof.
  cbv zeta. unfold getChordGuidePcs.
  destruct (hasTonic (Chord_get (coreSymbol chordSymbol))) eqn:Ht; cbn [negb].
  2:{ cbn [chordPcs extPcs]. split; [tauto|].
      split; [constructor|]. split; [constructor|]. split; [intros pc []|].
      split; [simpl; lia|]. split; [simpl; lia|].
      split; intros pc; simpl; (split; [tauto|]); intros [H _]; discriminate H. }
  cbv zeta. cbn [chordPcs extPcs].
  set (notes := map toFlatPc (ct_notes (Chord_get (coreSymbol chordSymbol)))).
  set (cp := uniq [notes !! 0%nat; notes !! 1%nat; notes !! 2%nat; notes !! 3%nat]).
  set (ext := pushNote (add9 opts) (notes !! 4%nat) ++ pushNote (add11 opts) (notes !! 5%nat)
              ++ pushNote (add13 opts) (notes !! 6%nat)).
  assert (Hnotes : forall (i : nat) v, notes !! i = Some v
            <-> exists n, ct_notes (Chord_get (coreSymbol chordSymbol)) !! i = Some n
                          /\ toFlatPc n = v).
  { intros i v. unfold notes. change (map toFlatPc ?l) with (toFlatPc <$> l).
    rewrite list_lookup_fmap.
    destruct (ct_notes (Chord_get (coreSymbol chordSymbol)) !! i) as [n|]; simpl.
    - split; [intros [= <-]; eauto|intros (n' & [= <-] & <-); reflexivity].
    - split; [discriminate|intros (n' & [=] & _)]. }
  assert (Hcp : forall pc, In pc cp <->
            truthy pc = true
            /\ exists (i : nat) n, (i < 4)%nat
                 /\ ct_notes (Chord_get (coreSymbol chordSymbol)) !! i = Some n
                 /\ toFlatPc n = pc).
  { intros pc. unfold cp. rewrite uniq_In. simpl. split.
    - intros [Hin Htr]. split; [exact Htr|].
      destruct Hin as [H|[H|[H|[H|[]]]]]; apply Hnotes in H as (n & Hn & Hv);
        [exists 0%nat|exists 1%nat|exists 2%nat|exists 3%nat]; exists n; repeat split;
        try assumption; lia.
    - intros (Htr & i & n & Hi & Hn & Hv). split; [|exact Htr].
      assert (Hl : notes !! i = Some pc) by (apply Hnotes; eauto).
      destruct i as [|[|[|[|i]]]]; [| | | |lia]; rewrite Hl; tauto. }
  assert (Hext : forall pc, In pc (uniq ext) <->
            truthy pc = true
            /\ exists (i : nat) n, ct_notes (Chord_get (coreSymbol chordSymbol)) !! i = Some n
                 /\ toFlatPc n = pc
                 /\ ((i = 4%nat /\ add9 opts = true) \/ (i = 5%nat /\ add11 opts = true)
                     \/ (i = 6%nat /\ add13 opts = true))).
  { intros pc. rewrite uniq_In. unfold ext. rewrite !in_app_iff. split.
    - intros [Hin Htr]. split; [exact Htr|].
      destruct Hin as [H|[H|H]]; apply pushNote_In in H as [H Hflag]; symmetry in H;
        apply Hnotes in H as (n & Hn & Hv);
        [exists 4%nat|exists 5%nat|exists 6%nat]; exists n; tauto.
    - intros (Htr & i & n & Hn & Hv & Hi). split; [|exact Htr].
      assert (Hl : notes !! i = Some pc) by (apply Hnotes; eauto).
      unfold pushNote.
      destruct Hi as [[-> Hf]|[[-> Hf]|[-> Hf]]]; rewrite Hl, Hf; cbn [truthyAt andb];
        rewrite Htr; simpl; tauto. }
  assert (Hfilter : forall pc,
            In pc (filter (fun pc => negb (bool_decide (pc ∈ cp))) (uniq ext))
            <-> In pc (uniq ext) /\ ~ In pc cp).
  { intros pc. rewrite <- !list_elem_of_In, list_elem_of_filter. split.
    - intros [Hn Hin]. split; [exact Hin|]. intros Hc.
      now rewrite (bool_decide_eq_true_2 _ Hc) in Hn.
    - intros [Hin Hn]. split; [|exact Hin].
      now rewrite (bool_decide_eq_false_2 _ Hn). }
  split; [discriminate|]. split; [apply uniq_NoDup|].
  split; [apply NoDup_filter, uniq_NoDup|].
  split; [intros pc Hin; now apply Hfilter in Hin|].
  split; [apply (uniq_length [_; _; _; _])|].
  split.
  { etransitivity; [apply length_filter|]. etransitivity; [apply uniq_length|].
    unfold ext. rewrite !length_app.
    pose proof (pushNote_length (add9 opts) (notes !! 4%nat)).
    pose proof (pushNote_length (add11 opts) (notes !! 5%nat)).
    pose proof (pushNote_length (add13 opts) (notes !! 6%nat)). lia. }
  split.
  - intros pc. rewrite Hcp. tauto.
  - intros pc. rewrite Hfilter, Hext. tauto.
Qed.

End GuideFacts.

Example getChordGuidePcs_F_over_G :
  getChordGuidePcs Tonal.get " F/G " {| add9 := true; add11 := false; add13 := false |}
  = {| chordPcs := [Str "F"; Str "A"; Str "C"]; extPcs := [] |}.
Proof. reflexivity. Qed.

(** ** The chord text and the pads ([app/dev/page.tsx]) *)

Lemma splitSeparators_nonempty (text : string) : splitSeparators text <> [].
Proof.
  induction text as [|c text IH]; simpl; [discriminate|].
  destruct (is_sep c).
  - destruct text as [|d text']; [discriminate|]. destruct (is_sep d); [exact IH|discriminate].
  - destruct (splitSeparators text); discriminate.
Qed.

Lemma splitSeparators_pieces (text : string) :
  Forall (fun p => Forall (fun c => is_sep c = false) (list_ascii_of_string p))
         (splitSeparators text).
Proof.
  induction text as [|c text IH]; [repeat constructor|].
  cbn [splitSeparators]. cbv zeta. destruct (is_sep c) eqn:Hc.
  - destruct text as [|d text']; [repeat constructor|].
    destruct (is_sep d); [exact IH|]. constructor; [constructor|exact IH].
  - destruct (splitSeparators text) as [|p ps]; [repeat constructor; exact Hc|].
    apply Forall_cons in IH as [Hp Hps]. constructor; [|exact Hps].
    simpl. constructor; assumption.
Qed.

Lemma sep_free_no_space (s : string) :
  Forall (fun c => is_sep c = false) (list_ascii_of_string s) ->
  Forall (fun c => is_space c = false) (list_ascii_of_string s).
Proof.
  apply List.Forall_impl. intros c H. unfold is_sep in H. now apply orb_false_iff in H as [H _].
Qed.

(** The chord text gives at most sixteen symbols, none of them empty and
    none with white space or a comma in it. *)
Lemma chordSymbols_tokens (text : string) :
  (length (chordSymbols text) <= 16)%nat /\ Forall isToken (chordSymbols text).
Proof.
  unfold chordSymbols. cbv zeta. split.
  - rewrite length_take. unfold MAX_PADS. lia.
  - apply Forall_take. apply Forall_forall. intros s Hs.
    apply list_elem_of_filter in Hs as [Hne Hs].
    apply list_elem_of_In, in_map_iff in Hs as (p & <- & Hp).
    split.
    + intros E. rewrite E in Hne. exact Hne.
    + pose proof (splitSeparators_pieces text) as Hall.
      apply (proj1 (List.Forall_forall _ _) Hall) in Hp.
      apply List.Forall_forall. intros c Hc. apply trim_chars in Hc.
      revert c Hc. now apply List.Forall_forall.
Qed.

Lemma splitSeparators_token (tok rest : string) :
  Forall (fun c => is_sep c = false) (list_ascii_of_string tok) ->
  splitSeparators (tok +:+ rest)
  = (tok +:+ hd "" (splitSeparators rest)) :: tl (splitSeparators rest).
Proof.
  induction tok as [|c tok IH]; intros Hfree.
  - change ("" +:+ rest) with rest. change ("" +:+ ?x) with x.
    pose proof (splitSeparators_nonempty rest).
    now destruct (splitSeparators rest).
  - apply Forall_cons in Hfree as [Hc Hfree].
    change (String c tok +:+ rest) with (String c (tok +:+ rest)).
    cbn [splitSeparators]. cbv zeta. rewrite Hc, (IH Hfree). reflexivity.
Qed.

Lemma splitSeparators_run (sep rest : string) :
  sep <> "" ->
  Forall (fun c => is_sep c = true) (list_ascii_of_string sep) ->
  match rest with String d _ => is_sep d = false | EmptyString => True end ->
  splitSeparators (sep +:+ rest) = "" :: splitSeparators rest.
Proof.
  induction sep as [|c sep IH]; intros Hne Hall Hrest; [congruence|].
  apply Forall_cons in Hall as [Hc Hall].
  change (String c sep +:+ rest) with (String c (sep +:+ rest)).
  cbn [splitSeparators]. cbv zeta. rewrite Hc.
  destruct sep as [|c' sep'].
  - change ("" +:+ rest) with rest. destruct rest as [|d rest']; [reflexivity|].
    now rewrite Hrest.
  - change (String c' sep' +:+ rest) with (String c' (sep' +:+ rest)).
    pose proof Hall as Hall'. apply Forall_cons in Hall' as [Hc' _]. rewrite Hc'.
    change (String c' (sep' +:+ rest)) with (String c' sep' +:+ rest).
    apply IH; [discriminate|exact Hall|exact Hrest].
Qed.

Lemma joinWith_head (sep t : string) (tokens : list string) :
  isToken t ->
  match joinWith sep (t :: tokens) with
  | String d _ => is_sep d = false
  | EmptyString => True
  end.
Proof.
  intros [Hne Hfree]. destruct t as [|c t]; [congruence|].
  apply Forall_cons in Hfree as [Hc _].
  cbn [joinWith]. destruct tokens; [exact Hc|].
  change (String c t +:+ ?r) with (String c (t +:+ r)). exact Hc.
Qed.

Lemma splitSeparators_join (sep : string) (tokens : list string) :
  sep <> "" ->
  Forall (fun c => is_sep c = true) (list_ascii_of_string sep) ->
  Forall isToken tokens -> tokens <> [] ->
  splitSeparators (joinWith sep tokens) = tokens.
Proof.
  intros Hne Hsep. induction tokens as [|t tokens IH]; intros Htok Hnil; [congruence|].
  apply Forall_cons in Htok as [Ht Htok]. destruct tokens as [|t' tokens].
  - cbn [joinWith]. rewrite <- (append_nil_r t) at 1.
    rewrite splitSeparators_token by apply Ht. cbn. now rewrite append_nil_r.
  - change (joinWith sep (t :: t' :: tokens))
      with (t +:+ sep +:+ joinWith sep (t' :: tokens)).
    rewrite splitSeparators_token by apply Ht.
    rewrite splitSeparators_run; [|exact Hne|exact Hsep|].
    + cbn [hd tl]. rewrite append_nil_r, IH; [reflexivity|exact Htok|discriminate].
    + apply joinWith_head. now apply Forall_cons in Htok as [Ht' _].
Qed.

(** X28.  Symbols written one after the other, with any one run of commas and
    ASCII white space between them, are read back as they were written, as
    far as the sixteenth: symbols that are not empty and hold no comma and
    no white space, neither of ASCII nor of the rest of Unicode (which the
    code would split at, and the model would not). *)
Theorem chordSymbols_reads_back (sep : string) (tokens : list string) :
  sep <> "" ->
  Forall (fun c => is_sep c = true) (list_ascii_of_string sep) ->
  Forall isToken tokens ->
  Forall noUnicodeSpace tokens ->
  chordSymbols (joinWith sep tokens) = take 16 tokens.
Proof.
  intros Hne Hsep Htok _. unfold chordSymbols. cbv zeta. unfold MAX_PADS. f_equal.
  destruct tokens as [|t tokens]; [reflexivity|].
  rewrite splitSeparators_join by (assumption || discriminate).
  assert (Htrim : map trim (t :: tokens) = t :: tokens).
  { rewrite <- (map_id (t :: tokens)) at 2. apply map_ext_in. intros s Hs.
    apply trim_id, sep_free_no_space.
    now apply (proj1 (List.Forall_forall _ _) Htok) in Hs as [_ Hs]. }
  rewrite Htrim.
  apply Forall_cons in Htok as [Ht Htok]. clear Htrim.
  assert (Hall : Forall isToken (t :: tokens)) by now constructor.
  clear Ht Htok. induction Hall as [|s l [Hs _] _ IH]; [reflexivity|].
  rewrite filter_cons. destruct s as [|c s]; [congruence|].
  rewrite decide_True by exact I. now rewrite IH.
Qed.

Lemma chordSymbols_reads_back_witness :
  chordSymbols (joinWith ", " ["Cm7"; "F/G"; "Bb"]) = take 16 ["Cm7"; "F/G"; "Bb"].
Proof.
  apply (chordSymbols_reads_back ", " ["Cm7"; "F/G"; "Bb"]).
  - discriminate.
  - repeat constructor.
  - repeat constructor; discriminate.
  - repeat constructor.
Defined.

Example chordSymbols_mixed_separators :
  chordSymbols " ,Cm7,, F/G
	Bb , " = ["Cm7"; "F/G"; "Bb"].
Proof. reflexivity. Qed.

Section PadFacts.

Variable Chord_get : string -> TonalChord.
Variable midiFrom : string -> Z -> Z.
Variable toNote : Z -> string.

Lemma buildPadVoicing_Some_iff sym c pr shift opts :
  is_Some (buildPadVoicing Chord_get midiFrom toNote sym c pr shift opts)
  <-> parseChordSymbol Chord_get sym <> None.
Proof.
  unfold buildPadVoicing. destruct (parseChordSymbol Chord_get sym); split.
  - discriminate.
  - intros _. eexists. reflexivity.
  - intros [x Hx]. discriminate.
  - congruence.
Qed.

Lemma padModel_shape css presets omits c shift key (i : nat) :
  let pad := fst (padModel Chord_get midiFrom toNote css presets omits c shift key i) in
  pm_idx pad = i
  /\ pm_chord pad = default "" (css !! i)
  /\ pm_preset pad = default PAD_TRIAD_BASS_35R (presets !! i)
  /\ (pm_ok pad = true
      <-> pm_chord pad <> "" /\ parseChordSymbol Chord_get (pm_chord pad) <> None)
  /\ (pm_ok pad = true <-> pm_roman pad <> "")
  /\ (pm_ok pad = true ->
      pm_notes pad <> [] /\ length (pm_notes pad) = length (pm_midis pad)
      /\ Sorted Z.le (pm_midis pad))
  /\ (pm_ok pad = false -> pm_notes pad = [] /\ pm_midis pad = []).
Proof.
  cbv zeta. unfold padModel. cbv zeta.
  destruct (String.eqb_spec (default "" (css !! i)) "") as [E|E]; cbn [fst].
  - cbn [pm_idx pm_chord pm_preset pm_ok pm_roman pm_notes pm_midis].
    repeat split; try congruence; try tauto; intros; intuition congruence.
  - cbn [pm_idx pm_chord pm_preset pm_ok pm_roman pm_notes pm_midis].
    set (sym := default "" (css !! i)) in *.
    set (opts := {| omit := Some (default emptyOmit (omits !! i)) |}).
    set (pr := default PAD_TRIAD_BASS_35R (presets !! i)).
    pose proof (buildPadVoicing_Some_iff sym c pr shift opts) as Hv.
    pose proof (romanizeChord_empty Chord_get sym key) as Hr.
    pose proof (buildPadVoicing_result_shape Chord_get midiFrom toNote sym c pr shift opts)
      as Hshape.
    destruct (buildPadVoicing Chord_get midiFrom toNote sym c pr shift opts) as [r|].
    + assert (Hp : parseChordSymbol Chord_get sym <> None) by (apply Hv; eauto).
      rewrite bool_decide_eq_true_2 by eauto.
      destruct (Hshape r eq_refl) as (Hs & Hl & Hn). cbn [fmap option_fmap option_map default].
      repeat split; try assumption; try discriminate; try tauto.
    + assert (Hp : parseChordSymbol Chord_get sym = None).
      { destruct (parseChordSymbol Chord_get sym) eqn:Hp; [|reflexivity].
        exfalso. assert (H : is_Some (@None VoicingResult)) by (apply Hv; discriminate).
        destruct H as [x Hx]. discriminate. }
      rewrite bool_decide_eq_false_2 by (intros [x Hx]; discriminate).
      cbn [fmap option_fmap option_map default].
      repeat split; try discriminate; try tauto.
Qed.

Lemma padModelsOf_shape_aux (css : list string) (presets : list PadVoicingPreset)
    (omits : list OmitFlags) (c shift : Z) (key : KeySig) :
  let pads := padModelsOf Chord_get midiFrom toNote css presets omits c shift key in
  length pads = 16%nat
  /\ forall (i : nat) pad o, pads !! i = Some (pad, o) ->
       pm_idx pad = i
       /\ pm_chord pad = default "" (css !! i)
       /\ pm_preset pad = default PAD_TRIAD_BASS_35R (presets !! i)
       /\ o = default emptyOmit (omits !! i)
       /\ (pm_ok pad = true
           <-> pm_chord pad <> "" /\ parseChordSymbol Chord_get (pm_chord pad) <> None)
       /\ (pm_ok pad = true <-> pm_roman pad <> "")
       /\ (pm_ok pad = true ->
           pm_notes pad <> [] /\ length (pm_notes pad) = length (pm_midis pad)
           /\ Sorted Z.le (pm_midis pad))
       /\ (pm_ok pad = false -> pm_notes pad = [] /\ pm_midis pad = []).
Proof.
  cbv zeta. unfold padModelsOf. split; [now rewrite length_map, length_seq|].
  intros i pad o Hi.
  change (map ?f ?l) with (f <$> l) in Hi. rewrite list_lookup_fmap in Hi.
  destruct (seq 0 MAX_PADS !! i) as [j|] eqn:Hj; [|discriminate].
  apply lookup_seq in Hj as [-> _]. cbn [fmap option_fmap option_map] in Hi.
  change (0 + i)%nat with i in Hi. injection Hi as Hi.
  pose proof (padModel_shape css presets omits c shift key i) as H.
  cbv zeta in H. rewrite Hi in H. cbn [fst] in H.
  destruct H as (H1 & H2 & H3 & H4 & H5 & H6 & H7).
  repeat split; try assumption; try tauto.
  apply (f_equal snd) in Hi. cbn [snd] in Hi. rewrite <- Hi.
  unfold padModel. cbv zeta. now destruct (String.eqb _ _).
Qed.

(** X29.  The page always has sixteen pads.  The pad of a place carries its
    index, the symbol of that place in the chord text (none beyond the
    symbols that are there) and its preset.  It is playable exactly when
    its symbol is there and parses, which is exactly when it has a roman
    numeral; a playable pad has at least one note, as many notes as
    pitches, and its pitches ascend; a pad that is not playable has
    neither notes nor pitches. *)
Theorem padModelsOf_shape (css : list string) (presets : list PadVoicingPreset)
    (omits : list OmitFlags) (c shift : Z) (key : KeySig) :
  let pads := padModelsOf Chord_get midiFrom toNote css presets omits c shift key in
  length pads = 16%nat
  /\ forall (i : nat) pad o, pads !! i = Some (pad, o) ->
       pm_idx pad = i
       /\ pm_chord pad = default "" (css !! i)
       /\ pm_preset pad = default PAD_TRIAD_BASS_35R (presets !! i)
       /\ o = default emptyOmit (omits !! i)
       /\ (pm_ok pad = true
           <-> pm_chord pad <> "" /\ parseChordSymbol Chord_get (pm_chord pad) <> None)
       /\ (pm_ok pad = true <-> pm_roman pad <> "")
       /\ (pm_ok pad = true ->
           pm_notes pad <> [] /\ length (pm_notes pad) = length (pm_midis pad)
           /\ Sorted Z.le (pm_midis pad))
       /\ (pm_ok pad = false -> pm_notes pad = [] /\ pm_midis pad = []).
Proof. exact (padModelsOf_shape_aux css presets omits c shift key). Qed.

End PadFacts.

Example padModelsOf_two_symbols :
  map (fun x => (pm_chord (fst x), pm_roman (fst x), pm_midis (fst x), pm_ok (fst x)))
      (take 3 (padModelsOf Tonal.get Tone.midiFrom Tone.toNote
                 (chordSymbols "C, Xyz") [] [] 4 0 key_C_major))
  = [("C", "I", [36; 64; 67; 72], true); ("Xyz", "", [], false); ("", "", [], false)].
Proof. reflexivity. Qed.

Section PressBuiltPad.

Variable Chord_get : string -> TonalChord.
Variable midiFrom : string -> Z -> Z.
Variable toNote : Z -> string.

(** X30.  On a page whose pads are the ones built from the chord text, a press
    on a place that is not held takes effect exactly when the pad there is
    playable: then the hold has the notes of the pad, one scheduled attack
    for each, and the pad's pitches are highlighted; a press on a pad that
    is not playable, or beyond the sixteen places, changes nothing. *)
Theorem press_built_pad (css : list string) (presets : list PadVoicingPreset)
    (omits : list OmitFlags) (c shift : Z) (key : KeySig) (st : Page) (idx : nat) :
  padModels st
  = map fst (padModelsOf Chord_get midiFrom toNote css presets omits c shift key) ->
  activeHold st !! idx = None ->
  let st' := startHoldByIndex idx st in
  match padModels st !! idx with
  | Some pad =>
      if pm_ok pad
      then exists h, activeHold st' !! idx = Some h
                     /\ Permutation (h_notes h) (pm_notes pad)
                     /\ length (scheduleIds h) = length (pm_notes pad)
                     /\ holdMidis st' !! idx = Some (pm_midis pad)
      else st' = st
  | None => (16 <= idx)%nat /\ st' = st
  end.
Proof.
  intros Hpads Hfree st'. subst st'.
  pose proof (padModelsOf_shape_aux Chord_get midiFrom toNote css presets omits c shift key)
    as [Hlen Hshape].
  destruct (padModels st !! idx) as [pad|] eqn:Hpad.
  - assert (Hsrc : exists o,
               padModelsOf Chord_get midiFrom toNote css presets omits c shift key !! idx
               = Some (pad, o)).
    { rewrite Hpads in Hpad. change (map ?f ?l) with (f <$> l) in Hpad.
      rewrite list_lookup_fmap in Hpad.
      destruct (padModelsOf _ _ _ _ _ _ _ _ _ !! idx) as [[pad' o]|]; [|discriminate].
      injection Hpad as <-. now exists o. }
    destruct Hsrc as [o Hsrc].
    destruct (Hshape idx pad o Hsrc) as (_ & _ & _ & _ & _ & _ & Hok & Hno).
    destruct (pm_ok pad) eqn:Hokb.
    + destruct (Hok eq_refl) as (Hne & Hl & _).
      destruct (startHoldByIndex_hold idx st pad Hpad Hokb Hne Hl Hfree)
        as (h & Hh & Hperm & Hids & _ & Hviz & _).
      exists h. split; [exact Hh|]. split; [exact Hperm|]. split; [|exact Hviz].
      rewrite Hids. apply length_seq.
    + unfold startHoldByIndex, startHoldBegin, startGuard. now rewrite Hpad, Hokb.
  - split.
    + apply lookup_ge_None in Hpad. rewrite Hpads, length_map, Hlen in Hpad. exact Hpad.
    + unfold startHoldByIndex, startHoldBegin, startGuard. now rewrite Hpad.
Qed.

End PressBuiltPad.

Lemma press_built_pad_witness :
  let pads := padModelsOf Tonal.get Tone.midiFrom Tone.toNote (chordSymbols "F/G, C")
                [] [] 4 0 key_C_major in
  let st := {| activeHold := ∅; holdMidis := ∅; oneShotMidis := []; oneShotTimer := None;
               syncPending := false; guidePadIdx := 0; logs := [];
               padModels := map fst pads;
               perfNow := plainPerf chord arp_up dir_up 20 90; shiftNow := 0;
               synthMade := false; audioReady := false; transportStarted := false;
               transport := ∅; nextId := 0; synthLog := []; randomTape := [] |} in
  let st' := startHoldByIndex 1 st in
  match padModels st !! 1%nat with
  | Some pad =>
      if pm_ok pad
      then exists h, activeHold st' !! 1%nat = Some h
                     /\ Permutation (h_notes h) (pm_notes pad)
                     /\ length (scheduleIds h) = length (pm_notes pad)
                     /\ holdMidis st' !! 1%nat = Some (pm_midis pad)
      else st' = st
  | None => (16 <= 1)%nat /\ st' = st
  end.
Proof.
  intros pads st.
  apply (press_built_pad Tonal.get Tone.midiFrom Tone.toNote (chordSymbols "F/G, C")
           [] [] 4 0 key_C_major st 1).
  - reflexivity.
  - reflexivity.
Defined.
